(** * tmcp: a shallow embedding of the pipeline substrate and its primitives

    The development follows the layering of the JavaScript sources:

    - [JS]       the fragment of ECMAScript values and operators the modules
                 use, with the rounding of doubles and the names that objects
                 inherit from [Object.prototype];
    - [Core]     lib/pipeline-core.js   (normalizeObject, createMeta, appendTag);
    - [Stream]   lib/pipeline-stream.js (resolveChannelPolicies, safeWrite and
                 the NDJSON line it writes);
    - [Config]   lib/pipeline-config.js (parseCLIOnce, applyPositionalsSchema, loadCLI);
    - [MinRate]  tmcp-control-minrate.js;
    - [Merge]    tmcp-control-merge-streams.js;
    - [Delay]    tmcp-control-delay.js;
    - [Dedup]    tmcp-control-dedup.js;
    - [Reduce]   tmcp-transformer-reduce.js (the handler);
    - [StreamErrors], [Ndjson], [PolicySpec]
                 lib/pipeline-stream.js (handleWriteError, the NDJSON reader
                 of safeRead, parseSpec);
    - [Registry], [Layers]
                 lib/pipeline-config.js (registerParam, registerPositionals,
                 createCliBaseLayer, createRuntimeLayer);
    - [ReduceRules]
                 tmcp-transformer-reduce.js (computeOutput);
    - [Gate]     tmcp-control-gate.js.

    Module-level [let] bindings become fields of an explicit state record that
    every handler takes and returns; [Date.now()] is an argument of the handler
    that calls it; what a handler passes to [safeWrite] is returned as the list
    of emitted records. *)

From Stdlib Require Import QArith Qabs ZArith String Ascii List Bool Lqa Lia.
From stdpp Require Import gmap strings list fin_maps pretty sorting.

#[local] Open Scope string_scope.
#[local] Open Scope list_scope.

(* ========================================================================= *)
(** ** ECMAScript values *)
(* ========================================================================= *)

Module JS.

(** A Number is a rational, NaN or a signed infinity; the sign of zero is not
    modelled.  The doubles are the rationals that [round64] below leaves as
    they are.  The operations [num_add], [num_sub], [num_mul] and [num_div]
    give the exact result; [fl_add], [fl_sub], [fl_mul] and [fl_div] round it
    as the operators of the language do.  The modules below round where a
    result is compared with a tolerance or written as computed (the
    comparison of tmcp-control-dedup, the distances and the interpolation of
    tmcp-control-merge-streams, the age test of tmcp-control-gate); the sums
    and differences of timestamps with an interval, a delay or a buffer
    length are taken exactly, as they are on doubles that hold whole
    milliseconds. *)
Inductive number :=
| Fin (q : Q)
| NaN
| Inf (negative : bool).

(** JSON-like values.  An object is a finite map from property names to
    values, which gives [Object.keys] without duplicates by construction.
    [structuredClone] and the spread of an object are the identity on these
    values. *)
#[warnings="-register-all"]
Inductive jsval :=
| JUndef
| JNull
| JBool (b : bool)
| JNum (n : number)
| JStr (s : string)
| JArr (l : list jsval)
| JObj (m : gmap string jsval).

Definition Qlt_bool (a b : Q) : bool := negb (Qle_bool b a).

Definition num_neg (a : number) : number :=
  match a with
  | Fin q => Fin (- q)
  | NaN => NaN
  | Inf s => Inf (negb s)
  end.

Definition num_add (a b : number) : number :=
  match a, b with
  | NaN, _ | _, NaN => NaN
  | Fin x, Fin y => Fin (x + y)
  | Fin _, Inf s | Inf s, Fin _ => Inf s
  | Inf s, Inf s' => if Bool.eqb s s' then Inf s else NaN
  end.

Definition num_sub (a b : number) : number := num_add a (num_neg b).

Definition num_mul (a b : number) : number :=
  match a, b with
  | NaN, _ | _, NaN => NaN
  | Fin x, Fin y => Fin (x * y)
  | Fin x, Inf s | Inf s, Fin x =>
      if Qeq_bool x 0 then NaN else Inf (xorb s (Qlt_bool x 0))
  | Inf s, Inf s' => Inf (xorb s s')
  end.

Definition num_div (a b : number) : number :=
  match a, b with
  | NaN, _ | _, NaN => NaN
  | Fin x, Fin y =>
      if Qeq_bool y 0
      then (if Qeq_bool x 0 then NaN else Inf (Qlt_bool x 0))
      else Fin (x / y)
  | Fin _, Inf _ => Fin 0
  | Inf s, Fin y => Inf (xorb s (Qlt_bool y 0))
  | Inf _, Inf _ => NaN
  end.

(** [n / d] rounded to the nearest integer, a tie going to the even one
    ([n >= 0] and [d > 0]). *)
Definition roundHalfEven (n d : Z) : Z :=
  let q := (n / d)%Z in
  match Z.compare (2 * (n mod d)) d with
  | Lt => q
  | Gt => (q + 1)%Z
  | Eq => if Z.even q then q else (q + 1)%Z
  end.

(** The exponent [e] with [2^e <= n/d < 2^(e+1)], for [n > 0] and [d > 0]. *)
Definition exponent (n d : Z) : Z :=
  let e0 := (Z.log2 n - Z.log2 d)%Z in
  if Z.leb (d * 2 ^ Z.max 0 e0) (n * 2 ^ Z.max 0 (- e0))
  then e0 else (e0 - 1)%Z.

(** The IEEE-754 binary64 value nearest to a rational, ties to even: 53
    significant bits down to the exponent [-1022], multiples of [2^-1074]
    below it, and an infinity from [2^1024] on. *)
Definition round64 (q : Q) : number :=
  let r := Qred q in
  let n := Z.abs (Qnum r) in
  let d := Zpos (Qden r) in
  if Z.eqb n 0 then Fin 0
  else
    let p := (Z.max (exponent n d) (-1022) - 52)%Z in
    let m := roundHalfEven (n * 2 ^ Z.max 0 (- p)) (d * 2 ^ Z.max 0 p) in
    if Z.leb (2 ^ 1024) (m * 2 ^ Z.max 0 p) then Inf (Z.ltb (Qnum r) 0)
    else Fin (Qred (Z.sgn (Qnum r) * m * 2 ^ Z.max 0 p
                    # Z.to_pos (2 ^ Z.max 0 (- p)))).

(** The result of an operation on doubles: the exact result, rounded. *)
Definition fl (a : number) : number :=
  match a with
  | Fin q => round64 q
  | _ => a
  end.

(** [a + b], [a - b], [a * b] and [a / b] on two Numbers. *)
Definition fl_add (a b : number) : number := fl (num_add a b).
Definition fl_sub (a b : number) : number := fl (num_sub a b).
Definition fl_mul (a b : number) : number := fl (num_mul a b).
Definition fl_div (a b : number) : number := fl (num_div a b).

(** [Math.abs] *)
Definition num_abs (a : number) : number :=
  match a with
  | Fin q => Fin (Qabs q)
  | NaN => NaN
  | Inf _ => Inf false
  end.

(** [a < b] on Numbers; false as soon as one side is NaN. *)
Definition num_ltb (a b : number) : bool :=
  match a, b with
  | NaN, _ | _, NaN => false
  | Fin x, Fin y => Qlt_bool x y
  | Fin _, Inf s => negb s
  | Inf s, Fin _ => s
  | Inf s, Inf s' => s && negb s'
  end.

(** [a <= b] on Numbers; false as soon as one side is NaN. *)
Definition num_leb (a b : number) : bool :=
  match a, b with
  | NaN, _ | _, NaN => false
  | Fin x, Fin y => Qle_bool x y
  | Fin _, Inf s => negb s
  | Inf s, Fin _ => s
  | Inf s, Inf s' => s || negb s'
  end.

(** [a === b] on Numbers. *)
Definition num_eqb (a b : number) : bool :=
  match a, b with
  | Fin x, Fin y => Qeq_bool x y
  | Inf s, Inf s' => Bool.eqb s s'
  | _, _ => false
  end.

(** [Number.isFinite(v)]: no coercion, only a finite Number passes. *)
Definition isFinite (v : jsval) : bool :=
  match v with
  | JNum (Fin _) => true
  | _ => false
  end.

Definition typeof (v : jsval) : string :=
  match v with
  | JUndef => "undefined"
  | JNull => "object"
  | JBool _ => "boolean"
  | JNum _ => "number"
  | JStr _ => "string"
  | JArr _ => "object"
  | JObj _ => "object"
  end.

(** ToBoolean *)
Definition truthy (v : jsval) : bool :=
  match v with
  | JUndef | JNull => false
  | JBool b => b
  | JNum (Fin q) => negb (Qeq_bool q 0)
  | JNum NaN => false
  | JNum (Inf _) => true
  | JStr s => negb (String.eqb s EmptyString)
  | JArr _ | JObj _ => true
  end.

Definition isArray (v : jsval) : bool :=
  match v with
  | JArr _ => true
  | _ => false
  end.

(** [a ?? b] *)
Definition nullish (a b : jsval) : jsval :=
  match a with
  | JUndef | JNull => b
  | _ => a
  end.

(** [o[k]] as far as the values of records go: an absent key reads as
    [undefined].  Under a name that objects inherit from [Object.prototype]
    the read yields a built-in instead (see [readProp]); [prop] is used where
    only a value of a record makes a difference. *)
Definition prop (o : gmap string jsval) (k : string) : jsval :=
  default JUndef (o !! k).

(** The properties every object inherits from [Object.prototype]. *)
Definition objectPrototypeNames : list string :=
  ["constructor"; "__defineGetter__"; "__defineSetter__"; "hasOwnProperty";
   "__lookupGetter__"; "__lookupSetter__"; "isPrototypeOf";
   "propertyIsEnumerable"; "toString"; "valueOf"; "__proto__";
   "toLocaleString"].

Definition inherited (k : string) : bool :=
  existsb (String.eqb k) objectPrototypeNames.

(** [Object.prototype.hasOwnProperty.call(o, k)] *)
Definition hasOwn (o : gmap string jsval) (k : string) : bool :=
  bool_decide (is_Some (o !! k)).

(** What [o[k]] yields on a plain object [o]: the value of an own property,
    else the member of [Object.prototype] of that name, else [undefined].
    A built-in member is a function, except [Object.prototype] itself, which
    is read under [__proto__]; of a built-in a program can only test the type
    and the identity. *)
Inductive reading :=
| Value (v : jsval)
| Builtin (name : string).

Definition readProp (o : gmap string jsval) (k : string) : reading :=
  match o !! k with
  | Some v => Value v
  | None => if inherited k then Builtin k else Value JUndef
  end.

(** [k in o] for a plain object [o]: an own property, or a name inherited
    from [Object.prototype]. *)
Definition has (o : gmap string jsval) (k : string) : bool :=
  hasOwn o k || inherited k.

(** [o[k] = v] on a plain object [o].  Under [__proto__], unless that is an
    own property of [o], the assignment goes to the accessor of
    [Object.prototype] and creates no property. *)
Definition assign (k : string) (v : jsval) (o : gmap string jsval)
    : gmap string jsval :=
  if String.eqb k "__proto__" && negb (hasOwn o k) then o else <[k := v]> o.

(** The own enumerable properties of a value of type "object": those of the
    object, or the elements of an array under their indices. *)
Definition index_props (l : list jsval) : gmap string jsval :=
  list_to_map (imap (fun i v => (pretty i, v)) l).

Definition own_props (v : jsval) : option (gmap string jsval) :=
  match v with
  | JObj m => Some m
  | JArr l => Some (index_props l)
  | _ => None
  end.

(** The conversions between Numbers and Strings that the model leaves open:
    [StringToNumber] on a string that is not a plain run of decimal digits
    (the rest of the StringNumericLiteral grammar) and the decimal rendering
    of a Number that is not a small integer.  Every statement below holds for
    any choice of the two. *)
Class Conversions := {
  OtherStringToNumber : string -> number;
  FractionToString : Q -> string
}.

(** The value of a string of decimal digits. *)
Fixpoint parseDigits (s : string) (acc : N) : option N :=
  match s with
  | EmptyString => Some acc
  | String c s' =>
      let n := N_of_ascii c in
      if N.leb 48 n && N.leb n 57
      then parseDigits s' (acc * 10 + (n - 48))%N
      else None
  end.

Section Coercions.
Context `{Conversions}.

(** Number::toString, radix 10.  An integer below 10^21 in absolute value
    is printed as its decimal digits. *)
Definition NumberToString (n : number) : string :=
  match n with
  | NaN => "NaN"
  | Inf false => "Infinity"
  | Inf true => "-Infinity"
  | Fin q =>
      let r := Qred q in
      if Pos.eqb (Qden r) 1 && Z.ltb (Z.abs (Qnum r)) (10 ^ 21)
      then pretty (Qnum r)
      else FractionToString q
  end.

(** StringToNumber: the empty string is 0 and a run of decimal digits is
    the integer it denotes. *)
Definition StringToNumber (s : string) : number :=
  match parseDigits s 0 with
  | Some n => Fin (inject_Z (Z.of_N n))
  | None => OtherStringToNumber s
  end.

(** ToString.  [Array.prototype.join] renders [null] and [undefined]
    elements as the empty string. *)
Fixpoint ToString (v : jsval) : string :=
  match v with
  | JUndef => "undefined"
  | JNull => "null"
  | JBool true => "true"
  | JBool false => "false"
  | JNum n => NumberToString n
  | JStr s => s
  | JObj _ => "[object Object]"
  | JArr l =>
      (fix join (l : list jsval) : string :=
         match l with
         | [] => EmptyString
         | x :: rest =>
             let e := match x with
                      | JUndef | JNull => EmptyString
                      | _ => ToString x
                      end in
             match rest with
             | [] => e
             | _ => e +:+ "," +:+ join rest
             end
         end) l
  end.

(** ToPrimitive of a plain object or array goes through [toString]. *)
Definition ToPrimitive (v : jsval) : jsval :=
  match v with
  | JObj _ | JArr _ => JStr (ToString v)
  | _ => v
  end.

(** ToNumber *)
Definition ToNumber (v : jsval) : number :=
  match ToPrimitive v with
  | JUndef => NaN
  | JNull => Fin 0
  | JBool true => Fin 1
  | JBool false => Fin 0
  | JNum n => n
  | JStr s => StringToNumber s
  | _ => NaN
  end.

(** [a + b] *)
Definition js_add (a b : jsval) : jsval :=
  match ToPrimitive a, ToPrimitive b with
  | JStr s, pb => JStr (s +:+ ToString pb)
  | pa, JStr s => JStr (ToString pa +:+ s)
  | pa, pb => JNum (num_add (ToNumber pa) (ToNumber pb))
  end.

(** [a - b], [a * b], [a / b] *)
Definition js_sub (a b : jsval) : number := num_sub (ToNumber a) (ToNumber b).
Definition js_mul (a b : jsval) : number := num_mul (ToNumber a) (ToNumber b).
Definition js_div (a b : jsval) : number := num_div (ToNumber a) (ToNumber b).

(** [a < b]: two strings compare by code units, anything else as Numbers. *)
Definition js_lt (a b : jsval) : bool :=
  match ToPrimitive a, ToPrimitive b with
  | JStr s, JStr s' => String.ltb s s'
  | pa, pb => num_ltb (ToNumber pa) (ToNumber pb)
  end.

(** [a <= b] *)
Definition js_le (a b : jsval) : bool :=
  match ToPrimitive a, ToPrimitive b with
  | JStr s, JStr s' => String.leb s s'
  | pa, pb => num_leb (ToNumber pa) (ToNumber pb)
  end.

(** [a > b] and [a >= b] *)
Definition js_gt (a b : jsval) : bool := js_lt b a.
Definition js_ge (a b : jsval) : bool := js_le b a.
End Coercions.

End JS.

Import JS.

(** A record as module code sees it once [normalizeObject] has run: [obj.meta]
    and [obj.data] are both of type "object".  A meta or data that is an array
    appears under its own enumerable properties; its [length] and what it
    inherits from [Array.prototype] are not part of this view, so that the
    [in] tests and the reads of inherited names below are those of a meta and
    a data that are plain objects. *)
Record record := Rec {
  meta : gmap string jsval;
  data : gmap string jsval
}.

(** The object literal [{ meta, data }]. *)
Definition to_js (r : record) : jsval :=
  JObj (<["meta" := JObj (meta r)]> (<["data" := JObj (data r)]> ∅)).

(* ========================================================================= *)
(** ** lib/pipeline-core.js *)
(* ========================================================================= *)

Module Core.

(** [normalizeObject(value)].  The result is the pair of [obj.meta] and
    [obj.data] after the four repairs of the source, in their order. *)
Definition normalizeObject (value : jsval) : record :=
  let obj :=
    match value with
    | JObj m => m
    | JArr l => index_props l
    | _ => <["meta" := JObj ∅]> (<["data" := JObj (<["value" := value]> ∅)]> ∅)
    end in
  let meta0 := default ∅ (own_props (prop obj "meta")) in
  let data0 := default ∅ (own_props (prop obj "data")) in
  let meta1 :=
    if isArray (prop meta0 "pipeline") then meta0
    else <["pipeline" := JArr []]> meta0 in
  Rec meta1 data0.

Section Tagging.
(** [tagEnabled()]: whether [cli.get("param.do-tag") === true]. *)
Variable tagEnabled : bool.

(** [createMeta(tag)], with [Date.now()] passed in. *)
Definition createMeta (now : Q) (tag : string) : gmap string jsval :=
  <["timestamp" := JNum (Fin now)]>
    (<["pipeline" := JArr (if tagEnabled then [JStr tag] else [])]> ∅).

(** [appendTag(meta, tag)] on a meta that is an object. *)
Definition appendTag (m : gmap string jsval) (tag : string) : gmap string jsval :=
  if negb tagEnabled then m
  else
    let pipeline :=
      match prop m "pipeline" with
      | JArr l => l
      | _ => []
      end in
    <["pipeline" := JArr (pipeline ++ [JStr tag])]> m.
End Tagging.

End Core.

(* ========================================================================= *)
(** ** lib/pipeline-stream.js *)
(* ========================================================================= *)

Module Stream.

Inductive direction := Read | Write.

(** The [fdOrStream] argument of [safeRead] and [safeWrite]. *)
Inductive target :=
| TUndefined
| TNull
| TStdin            (* process.stdin *)
| TStdout           (* process.stdout *)
| TStderr           (* process.stderr *)
| TFd (fd : Z)
| TPath (p : string)
| TStream.          (* any other stream object *)

(** The [options] argument; a missing field reads as [JUndef]. *)
Record options := Options {
  optChannelId : jsval;
  optExitOnClose : jsval;
  optRetry : jsval;
  optLinger : jsval
}.

Definition noOptions : options := Options JUndef JUndef JUndef JUndef.

Record policy := Policy {
  channelId : option string;
  exitOnClose : bool;
  retry : bool
}.

Definition isStdoutLike (t : target) : bool :=
  match t with
  | TUndefined | TNull | TStdout => true
  | TFd fd => Z.eqb fd 1
  | _ => false
  end.

Definition isStderrLike (t : target) : bool :=
  match t with
  | TStderr => true
  | TFd fd => Z.eqb fd 2
  | _ => false
  end.

Definition isStdinLike (t : target) : bool :=
  match t with
  | TUndefined | TNull | TStdin => true
  | TFd fd => Z.eqb fd 0
  | _ => false
  end.

Definition inferChannelId (fdOrStream : target) (explicitChannelId : jsval)
    (d : direction) : option string :=
  match explicitChannelId with
  | JStr (String c s) => Some (String c s)
  | _ =>
      match d with
      | Read => if isStdinLike fdOrStream then Some "stdin" else None
      | Write =>
          if isStdoutLike fdOrStream then Some "stdout"
          else if isStderrLike fdOrStream then Some "stderr"
          else None
      end
  end.

Definition channel_is (c : option string) (name : string) : bool :=
  match c with
  | Some s => String.eqb s name
  | None => false
  end.

(** The built-in default of [exitOnClose] for a channel. *)
Definition defaultExitOnClose (d : direction) (c : option string) : bool :=
  match d with
  | Read => channel_is c "stdin"
  | Write => channel_is c "stdout" || channel_is c "stderr"
  end.

(** A global override applies when [channelId] is truthy and the map has it. *)
Definition overrideFor (overrides : gmap string bool) (c : option string)
    : option bool :=
  match c with
  | Some (String a s) => overrides !! String a s
  | _ => None
  end.

Section Policies.
(** The two maps filled by [parseChannelPoliciesOnce] from
    [--exit-on-close] and [--retry]. *)
Variable channelExitOnCloseOverrides : gmap string bool.
Variable channelRetryOverrides : gmap string bool.

Definition resolveChannelPolicies (d : direction) (fdOrStream : target)
    (o : options) : policy :=
  let channelId := inferChannelId fdOrStream (optChannelId o) d in
  (* Default exitOnClose / retry *)
  let exitOnClose := defaultExitOnClose d channelId in
  let retry := false in
  (* Module-level overrides *)
  let exitOnClose :=
    match optExitOnClose o with
    | JBool b => b
    | _ =>
        match optLinger o with
        | JBool l => negb l
        | _ => exitOnClose
        end
    end in
  let retry :=
    match optRetry o with
    | JBool b => b
    | _ => retry
    end in
  (* Global per-channel overrides (highest precedence) *)
  let exitOnClose :=
    match overrideFor channelExitOnCloseOverrides channelId with
    | Some b => b
    | None => exitOnClose
    end in
  let retry :=
    match overrideFor channelRetryOverrides channelId with
    | Some b => b
    | None => retry
    end in
  Policy channelId exitOnClose retry.
End Policies.

(** [safeWrite(obj, ...)]: the canonical object handed to the encoder, that
    is [normalizeObject(obj)]. *)
Definition safeWrite (obj : record) : record :=
  Core.normalizeObject (to_js obj).

(** [JSON.stringify(v)], as the value that a reader parses from the text:
    a Number that is not finite is written as [null], and so is [undefined]
    in an array; a property whose value is [undefined] is left out. *)
Fixpoint stringify (v : jsval) : jsval :=
  match v with
  | JUndef => JNull
  | JNum (Fin _) => v
  | JNum _ => JNull
  | JArr l => JArr (map stringify l)
  | JObj m =>
      JObj (omap (fun x => match x with
                           | JUndef => None
                           | _ => Some (stringify x)
                           end) m)
  | _ => v
  end.

(** What is written for a property of an object. *)
Definition stringifyProp (v : jsval) : option jsval :=
  match v with
  | JUndef => None
  | _ => Some (stringify v)
  end.

(** The record on the line [JSON.stringify(canonical)] that [safeWrite]
    writes under the NDJSON output protocol, for a meta and a data that are
    plain objects. *)
Definition ndjsonLine (canonical : record) : record :=
  Rec (omap stringifyProp (meta canonical)) (omap stringifyProp (data canonical)).

End Stream.

(* ========================================================================= *)
(** ** lib/pipeline-config.js *)
(* ========================================================================= *)

Module Config.

(** An entry of [paramRegistry], as [registerParam] normalizes it.  The
    normalized object always has an own property [default], whose value is
    [undefined] when the caller gave none. *)
Record paramSpec := ParamSpec {
  longname : string;
  longnameLower : string;
  shortname : option string;
  envname : option string;
  default_ : jsval;
  expectsValue : bool;
  generateNegative : bool;
  required : bool;
  mutable : bool
}.

(** An entry of [positionalsSchema]. *)
Record posSpec := PosSpec {
  posName : string;
  posRequired : bool;
  posVarargs : bool
}.

Record cliStatus := CliStatus {
  isDirty : bool;
  isError : bool;
  showHelp : bool
}.

Record cliBase := CliBase {
  params : gmap string jsval;
  positionals : list jsval;
  namedPositionals : gmap string jsval
}.

Record cliState := CliState {
  base : cliBase;
  status : cliStatus
}.

Definition initialState : cliState :=
  CliState (CliBase ∅ [] ∅) (CliStatus true false false).

(** [cliStatus.showHelp = true; cliStatus.isError = true] *)
Definition usageError (s : cliStatus) : cliStatus :=
  CliStatus (isDirty s) true true.

Definition is_undefined (v : jsval) : bool :=
  match v with
  | JUndef => true
  | _ => false
  end.

Definition is_true (v : jsval) : bool :=
  match v with
  | JBool true => true
  | _ => false
  end.

(** The body of the loop of [applyPositionalsSchema]: [rest] is
    [positionalsArr.slice(idx)]. *)
Fixpoint applySlots (schema : list posSpec) (rest : list jsval)
    (named : gmap string jsval) (s : cliStatus)
    : gmap string jsval * cliStatus :=
  match schema with
  | [] => (named, s)
  | spec :: more =>
      if posVarargs spec then
        let named := <[posName spec := JArr rest]> named in
        let s := if posRequired spec && Nat.eqb (length rest) 0
                 then usageError s else s in
        (named, s)
      else
        let value := match rest with
                     | v :: _ => v
                     | [] => JUndef
                     end in
        let named := <[posName spec := value]> named in
        let s := if posRequired spec && is_undefined value
                 then usageError s else s in
        applySlots more (tail rest) named s
  end.

Definition applyPositionalsSchema (positionalsSchema : option (list posSpec))
    (positionalsArr : list jsval) (s : cliStatus)
    : gmap string jsval * cliStatus :=
  match positionalsSchema with
  | None | Some [] => (∅, s)
  | Some schema => applySlots schema positionalsArr ∅ s
  end.

(** The options [parseCLIOnce] builds for minimist from the registry. *)
Record minimistOptions := MinimistOptions {
  boolean : list string;
  string_ : list string;
  alias : list (string * string)
}.

Definition buildOptions (paramRegistry : list paramSpec) : minimistOptions :=
  fold_left
    (fun o p =>
       let o :=
         if expectsValue p
         then MinimistOptions (boolean o) (string_ o ++ [longname p]) (alias o)
         else
           let b := boolean o ++ [longname p] in
           let b := if generateNegative p
                    then b ++ ["no-" +:+ longname p] else b in
           MinimistOptions b (string_ o) (alias o) in
       match shortname p with
       | Some (String c sh) =>
           MinimistOptions (boolean o) (string_ o)
             (alias o ++ [(longname p, String c sh)])
       | _ => o
       end)
    paramRegistry
    (MinimistOptions ["help"] [] [("help", "h")]).

(** minimist is an npm dependency and not part of the repository.  This is
    the object it returns for an empty argument list: it first sets every key
    listed under [boolean], and every alias of such a key, to [false], and
    then finds no argument to parse; [_] and, with the option ["--"], [--]
    are empty arrays.  A key listed under [string] is not preset. *)
Definition minimist_no_arguments (o : minimistOptions) : gmap string jsval :=
  let preset (acc : gmap string jsval) (key : string) :=
    let acc := <[key := JBool false]> acc in
    fold_left
      (fun acc '(k, a) =>
         if String.eqb k key then <[a := JBool false]> acc
         else if String.eqb a key then <[k := JBool false]> acc
         else acc)
      (alias o) acc in
  <["--" := JArr []]>
    (fold_left preset (boolean o) (<["_" := JArr []]> ∅)).

Section Parse.
(** The object returned by [minimist(process.argv.slice(2), ...)] and
    [process.env]. *)
Variable parsedArgs : gmap string jsval.
Variable env : gmap string string.

(** Step 3 of [parseCLIOnce] for one registry entry: the resolved value and
    the status flags. *)
Definition resolveParam (p : paramSpec) (s : cliStatus) : jsval * cliStatus :=
  let value := JUndef in
  let hasCliValue := false in
  (* 3.1 CLI long / short *)
  let '(value, hasCliValue) :=
    match parsedArgs !! longname p with
    | Some v => (v, true)
    | None => (value, hasCliValue)
    end in
  (* 3.2 CLI negative *)
  let '(value, hasCliValue) :=
    if negb (expectsValue p) && generateNegative p
    then (if is_true (prop parsedArgs ("no-" +:+ longname p))
          then (JBool false, true) else (value, hasCliValue))
    else (value, hasCliValue) in
  (* 3.3 STRICT expectsValue enforcement *)
  let s :=
    if hasCliValue && expectsValue p
    then (if is_true value || is_undefined value then usageError s else s)
    else s in
  (* 3.4 ENV *)
  let value :=
    if negb hasCliValue
    then match envname p with
         | Some (String c e) =>
             match env !! String c e with
             | Some v => JStr v
             | None => value
             end
         | _ => value
         end
    else value in
  (* 3.5 Default *)
  let value := if is_undefined value then default_ p else value in
  (* 3.6 Required *)
  let s := if required p && is_undefined value then usageError s else s in
  (value, s).

Definition resolveParams (paramRegistry : list paramSpec)
    (ps : gmap string jsval) (s : cliStatus) : gmap string jsval * cliStatus :=
  fold_left
    (fun '(ps, s) p =>
       let '(value, s) := resolveParam p s in
       (<[longnameLower p := value]> ps, s))
    paramRegistry (ps, s).

Definition parseCLIOnce (paramRegistry : list paramSpec)
    (positionalsSchema : option (list posSpec)) (st : cliState) : cliState :=
  if negb (isDirty (status st)) then st
  else
    let s := CliStatus false (isError (status st)) (showHelp (status st)) in
    let '(ps, s) := resolveParams paramRegistry (params (base st)) s in
    let pos := match prop parsedArgs "_" with
               | JArr l => l
               | _ => []
               end in
    let '(named, s) := applyPositionalsSchema positionalsSchema pos s in
    let s := if truthy (prop parsedArgs "help")
             then CliStatus (isDirty s) (isError s) true else s in
    CliState (CliBase ps pos named) s.

(** [loadCLI()]: either the accessor over the parsed state, or
    [process.exit(code)] after the help text. *)
Inductive loaded :=
| Accessor (st : cliState)
| Exit (code : Z).

Definition loadCLI (paramRegistry : list paramSpec)
    (positionalsSchema : option (list posSpec)) (st : cliState) : loaded :=
  let st := parseCLIOnce paramRegistry positionalsSchema st in
  if showHelp (status st)
  then Exit (if isError (status st) then -1 else 0)
  else Accessor st.
End Parse.

(** [cli.get("param.<key>")] for a key already in lower case, and
    [cli.get("positionals.<idx>")], both without runtime override. *)
Definition getParam (st : cliState) (keyLower : string) : jsval :=
  prop (params (base st)) keyLower.

Definition getPositional (st : cliState) (idx : nat) : jsval :=
  default JUndef (positionals (base st) !! idx).

End Config.

(* ========================================================================= *)
(** ** tmcp-control-minrate.js *)
(* ========================================================================= *)

Module MinRate.

Definition TAG : string := "minr".

Record state := State {
  lastMessage : option record;   (* last fully emitted message *)
  lastLogicalTs : jsval;         (* logical timestamp *)
  lastEmitWall : Q               (* wall-clock timestamp of last emission *)
}.

Definition initial : state := State None JNull 0.

(** [v !== undefined && v !== null] *)
Definition have (v : jsval) : bool :=
  match v with
  | JUndef | JNull => false
  | _ => true
  end.

(** What the module reacts to: a record from [safeRead], with the two values
    [Date.now()] returns in the handler, or a firing of the watchdog timer,
    with the value of [Date.now()] in the timer and the two in [emitClone]. *)
Inductive event :=
| Input (obj : record) (nowTs nowWall : Q)
| Tick (now nowTs nowWall : Q).

Section Module_.
Context `{Conversions}.
Variable tagEnabled : bool.

(** The resolution of [intervalMs] from [cli.get("param.interval-ms")] and
    [cli.get("param.rate")]; [None] is [process.exit(1)]. *)
Definition resolveIntervalMs (intervalFromOverride rateFromOverride : jsval)
    : option jsval :=
  let haveInterval := have intervalFromOverride in
  let haveRate := have rateFromOverride in
  if haveInterval && haveRate then None
  else if haveInterval then Some intervalFromOverride
  else if haveRate then Some (JNum (js_div (JNum (Fin 1000)) rateFromOverride))
  else None.

Variable intervalMs : jsval.

Definition emitClone (st : state) (nowTs nowWall : Q) : state * list record :=
  match lastMessage st with
  | None => (st, [])
  | Some lastMsg =>
      let ts := if isFinite (lastLogicalTs st) then lastLogicalTs st
                else JNum (Fin nowTs) in
      let ts := js_add ts intervalMs in
      let srcMeta := meta lastMsg in
      let pipeline :=
        match prop srcMeta "pipeline" with
        | JArr l => JArr l
        | _ => JArr [JStr TAG]
        end in
      let m := <["timestamp" := ts]> (<["pipeline" := pipeline]> srcMeta) in
      let cloned := Rec m (data lastMsg) in
      (State (Some lastMsg) ts nowWall, [Stream.safeWrite cloned])
  end.

(** The callback of [setInterval]. *)
Definition watchdog (st : state) (now nowTs nowWall : Q) : state * list record :=
  match lastMessage st with
  | None => (st, [])
  | Some _ =>
      if js_ge (JNum (Fin (now - lastEmitWall st))) intervalMs
      then emitClone st nowTs nowWall
      else (st, [])
  end.

(** The callback of [safeRead].  [safeWrite] normalizes [out] in place, so
    [lastMessage] holds the normalized record. *)
Definition onRecord (st : state) (obj : record) (nowTs nowWall : Q)
    : state * list record :=
  let metaIn := meta obj in
  let dataIn := data obj in
  let ts := if String.eqb (typeof (prop metaIn "timestamp")) "number"
               && isFinite (prop metaIn "timestamp")
            then prop metaIn "timestamp"
            else JNum (Fin nowTs) in
  let outMeta := <["timestamp" := ts]> metaIn in
  let outMeta := Core.appendTag tagEnabled outMeta TAG in
  let out := Stream.safeWrite (Rec outMeta dataIn) in
  (State (Some out) ts nowWall, [out]).

Definition step (st : state) (e : event) : state * list record :=
  match e with
  | Input obj nowTs nowWall => onRecord st obj nowTs nowWall
  | Tick now nowTs nowWall => watchdog st now nowTs nowWall
  end.

Fixpoint run (st : state) (es : list event) : state * list record :=
  match es with
  | [] => (st, [])
  | e :: es =>
      let '(st, out) := step st e in
      let '(st, outs) := run st es in
      (st, out ++ outs)
  end.
End Module_.

End MinRate.

(* ========================================================================= *)
(** ** tmcp-control-merge-streams.js *)
(* ========================================================================= *)

Module Merge.

Definition MODULE_TAG : string := "mrg".

Record state := State {
  mainBuffer : list record;
  sideBuffers : list (list record);
  sideLastUnbounded : list (option record)
}.

(** [obj.meta?.timestamp] *)
Definition timestamp (r : record) : jsval := prop (meta r) "timestamp".

Definition orElse {A} (a b : option A) : option A :=
  match a with
  | Some _ => a
  | None => b
  end.

Section Module_.
Context `{Conversions}.
Variable tagEnabled : bool.
(** [mergeCfg.matchToleranceMs ?? 100] and [mergeCfg.maxBufferMs ?? 2000],
    taken to be Numbers. *)
Variable MATCH_TOLERANCE_MS : number.
Variable MAX_BUFFER_MS : number.
Variable postfixes : list jsval.
Variable allowUnbounded : list bool.

(** [(o.meta?.timestamp ?? 0)] *)
Definition tsOr0 (o : record) : jsval := nullish (timestamp o) (JNum (Fin 0)).

(** [while (buf.length && (buf[0].meta?.timestamp ?? 0) < cutoff) buf.shift()] *)
Fixpoint trim (cutoff : number) (buf : list record) : list record :=
  match buf with
  | [] => []
  | o :: rest =>
      if js_lt (tsOr0 o) (JNum cutoff) then trim cutoff rest else buf
  end.

Definition pushMain (st : state) (obj : record) (now : Q) : state :=
  let cutoff := num_sub (Fin now) MAX_BUFFER_MS in
  State (trim cutoff (mainBuffer st ++ [obj]))
        (sideBuffers st) (sideLastUnbounded st).

Definition pushSide (st : state) (idx : nat) (obj : record) (now : Q) : state :=
  let ts := timestamp obj in
  let isNumberTs := String.eqb (typeof ts) "number" in
  if default false (allowUnbounded !! idx) then
    let lastU := if isNumberTs
                 then <[idx := Some obj]> (sideLastUnbounded st)
                 else sideLastUnbounded st in
    State (mainBuffer st)
          (alter (fun b => b ++ [obj]) idx (sideBuffers st)) lastU
  else if isNumberTs then
    let cutoff := num_sub (Fin now) MAX_BUFFER_MS in
    State (mainBuffer st)
          (alter (fun b => trim cutoff (b ++ [obj])) idx (sideBuffers st))
          (sideLastUnbounded st)
  else st.

(** [Math.abs(ts - (rec.meta?.timestamp ?? 0))] *)
Definition diff (ts : number) (rec : record) : number :=
  num_abs (fl_sub (ToNumber (JNum ts)) (ToNumber (tsOr0 rec))).

Definition closer (ts : number) (acc : record * number) (rec : record)
    : record * number :=
  let d := diff ts rec in
  if num_ltb d (snd acc) then (rec, d) else acc.

Definition findClosest (buf : list record) (ts : number) : option record :=
  match buf with
  | [] => None
  | b0 :: _ =>
      let '(best, bestDiff) := fold_left (closer ts) buf (b0, diff ts b0) in
      if num_ltb MATCH_TOLERANCE_MS bestDiff then None else Some best
  end.

(** The value written to [out.data[k]] for the entry [k, v1] of
    [before.data], with [v2 = after.data?.[k]]. *)
Definition interpolateValue (ratio : number) (v1 v2 : jsval) : jsval :=
  match v1, v2 with
  | JNum n1, JNum n2 => JNum (fl_add n1 (fl_mul (fl_sub n2 n1) ratio))
  | _, _ => v1
  end.

Definition interpolateBounded (buf : list record) (ts : number) : option record :=
  match findClosest buf ts with
  | Some nearest => Some nearest
  | None =>
      let before := last (List.filter (fun o => js_le (tsOr0 o) (JNum ts)) buf) in
      let after := List.find (fun o => js_gt (tsOr0 o) (JNum ts)) buf in
      match before, after with
      | Some b, Some a =>
          let t1 := timestamp b in
          let t2 := timestamp a in
          if js_le t2 t1 then Some b
          else
            let ratio :=
              fl_div (fl_sub (ToNumber (JNum ts)) (ToNumber t1))
                     (fl_sub (ToNumber t2) (ToNumber t1)) in
            let outData :=
              map_imap (fun k v1 =>
                          Some (interpolateValue ratio v1 (prop (data a) k)))
                       (data b) in
            Some (Rec (<["timestamp" := JNum ts]> (meta b)) outData)
      | _, _ => orElse before after
      end
  end.

Definition interpolateSide (st : state) (idx : nat) (ts : number) : option record :=
  if default false (allowUnbounded !! idx)
  then default None (sideLastUnbounded st !! idx)
  else interpolateBounded (default [] (sideBuffers st !! idx)) ts.

(** [postfixes[i] ?? `_${i + 1}`], as it is spliced into the key. *)
Definition postfixOf (i : nat) : string :=
  ToString (nullish (default JUndef (postfixes !! i))
                    (JStr ("_" +:+ pretty (i + 1)%nat))).

(** [for (const [key, val] of Object.entries(rec.data))
       merged.data[`${key}${postfix}`] = val;] *)
Definition mergeSide (mergedData recData : gmap string jsval) (postfix : string)
    : gmap string jsval :=
  map_fold (fun key val acc => assign (key +:+ postfix) val acc) mergedData recData.

Definition mergeSides (st : state) (ts : number) (mergedData : gmap string jsval)
    : gmap string jsval :=
  fold_left
    (fun acc i =>
       match interpolateSide st i ts with
       | None => acc
       | Some rec => mergeSide acc (data rec) (postfixOf i)
       end)
    (seq 0 (length (sideBuffers st))) mergedData.

Definition emitPassthrough (mainObj : record) : record :=
  Stream.safeWrite
    (Rec (Core.appendTag tagEnabled (meta mainObj) MODULE_TAG) (data mainObj)).

Definition tryEmit (st : state) : list record :=
  match last (mainBuffer st) with
  | None => []
  | Some mainObj =>
      match timestamp mainObj with
      | JNum ts =>
          let m := <["timestamp" := JNum ts]> (meta mainObj) in
          let d := mergeSides st ts (data mainObj) in
          [Stream.safeWrite (Rec (Core.appendTag tagEnabled m MODULE_TAG) d)]
      | _ => [emitPassthrough mainObj]
      end
  end.

(** The callback of [safeRead] on stdin. *)
Definition onMain (st : state) (obj : record) (now : Q) : state * list record :=
  let st := pushMain st obj now in
  (st, tryEmit st).
End Module_.

End Merge.

(* ========================================================================= *)
(** ** tmcp-control-delay.js *)
(* ========================================================================= *)

Module Delay.

Definition TAG : string := "dly".

(** A queue element [{ outTs, obj }]. *)
Record item := Item {
  outTs : number;
  obj : record
}.

Record state := State {
  queue : list item;
  inputClosed : bool;
  watermarkTs : number;
  exited : bool                (* [process.exit(0)] was called *)
}.

Definition initial : state := State [] false (Inf true) false.

(** What the process reacts to: a record from [safeRead], with the value of
    [Date.now()], or the end of stdin. *)
Inductive event :=
| Input (o : record) (now : Q)
| Eof.

(** The loop of [insertSorted]; it needs at most [hi - lo] iterations. *)
Fixpoint search (fuel : nat) (q : list item) (x : number) (lo hi : nat) : nat :=
  match fuel with
  | O => lo
  | S fuel =>
      if Nat.ltb lo hi then
        let mid := Nat.shiftr (lo + hi) 1 in
        match q !! mid with
        | Some e =>
            if num_leb (outTs e) x
            then search fuel q x (mid + 1) hi
            else search fuel q x lo mid
        | None => lo
        end
      else lo
  end.

(** [queue.splice(lo, 0, item)] at the position the loop ends on. *)
Definition insertSorted (it : item) (q : list item) : list item :=
  let lo := search (length q) q (outTs it) 0 (length q) in
  take lo q ++ it :: drop lo q.

Section Module_.
Variable tagEnabled : bool.
Variable delayMs : number.

Definition emitItem (it : item) : record :=
  let out := obj it in
  let metaIn := meta out in
  let pipelineIn :=
    match prop metaIn "pipeline" with
    | JArr l => l
    | _ => []
    end in
  let m := <["timestamp" := JNum (outTs it)]>
             (<["pipeline" := JArr pipelineIn]> metaIn) in
  Stream.safeWrite (Rec (Core.appendTag tagEnabled m TAG) (data out)).

(** [flushReady]: the items shifted off the head of the queue, and the rest. *)
Fixpoint takeReady (watermark : number) (q : list item) : list item * list item :=
  match q with
  | [] => ([], [])
  | it :: rest =>
      if num_leb (outTs it) watermark
      then let '(ready, rest) := takeReady watermark rest in (it :: ready, rest)
      else ([], q)
  end.

Definition flushReady (st : state) : state * list record :=
  let '(ready, rest) := takeReady (watermarkTs st) (queue st) in
  (State rest (inputClosed st) (watermarkTs st) (exited st), map emitItem ready).

Definition flushAll (st : state) : state * list record :=
  (State [] (inputClosed st) (watermarkTs st) (exited st),
   map emitItem (queue st)).

Definition maybeExit (st : state) : state :=
  if inputClosed st && Nat.eqb (length (queue st)) 0
  then State (queue st) (inputClosed st) (watermarkTs st) true
  else st.

(** The logical input timestamp [tsIn]. *)
Definition tsInOf (o : record) (now : Q) : number :=
  match prop (meta o) "timestamp" with
  | JNum (Fin t) => Fin t
  | _ => Fin now
  end.

(** The callback of [safeRead]. *)
Definition onRecord (st : state) (o : record) (now : Q) : state * list record :=
  let tsIn := tsInOf o now in
  let watermark := if num_ltb (watermarkTs st) tsIn then tsIn
                   else watermarkTs st in
  let it := Item (num_add tsIn delayMs) o in
  flushReady (State (insertSorted it (queue st)) (inputClosed st) watermark
                    (exited st)).

(** The listeners of ["end"] and ["close"] on stdin. *)
Definition onEof (st : state) : state * list record :=
  let st := State (queue st) true (watermarkTs st) (exited st) in
  let '(st, out) := flushAll st in
  (maybeExit st, out).

(** Nothing runs after [process.exit]. *)
Definition step (st : state) (e : event) : state * list record :=
  if exited st then (st, [])
  else match e with
       | Input o now => onRecord st o now
       | Eof => onEof st
       end.

Fixpoint run (st : state) (es : list event) : state * list record :=
  match es with
  | [] => (st, [])
  | e :: es =>
      let '(st, out) := step st e in
      let '(st, outs) := run st es in
      (st, out ++ outs)
  end.
End Module_.

End Delay.

(* ========================================================================= *)
(** ** tmcp-control-dedup.js *)
(* ========================================================================= *)

Module Dedup.

Record state := State {
  lastData : option (gmap string jsval);
  haveLast : bool
}.

Definition initial : state := State None false.

(** [a === b] when [a] and [b] come from two disjoint object graphs, as the
    incoming record and the clone kept in [lastData] do: two objects are then
    never the same reference. *)
Definition strictEq (a b : jsval) : bool :=
  match a, b with
  | JUndef, JUndef => true
  | JNull, JNull => true
  | JBool x, JBool y => Bool.eqb x y
  | JNum x, JNum y => num_eqb x y
  | JStr x, JStr y => String.eqb x y
  | _, _ => false
  end.

(** [a === b] on what two property reads yield: two reads give the
    identical built-in exactly when they are reads of the same name, and a
    built-in is no value of a record. *)
Definition identical (a b : reading) : bool :=
  match a, b with
  | Value x, Value y => strictEq x y
  | Builtin k, Builtin k' => String.eqb k k'
  | _, _ => false
  end.

(** [typeof v !== "object" || v === null] *)
Definition primitive (r : reading) : bool :=
  match r with
  | Value (JObj _) | Value (JArr _) => false
  | Value _ => true
  | Builtin k => negb (String.eqb k "__proto__")
  end.

(** [Object.keys(v)], with the values: [Object.prototype] has no enumerable
    property. *)
Definition keysOf (r : reading) : gmap string jsval :=
  match r with
  | Value v => default ∅ (own_props v)
  | Builtin _ => ∅
  end.

(** [v[sub]] for [v] of type "object", when [sub in v] holds and the member
    is a value of the kind a record holds rather than a built-in: an own
    property, the [length] of an array, or the [null] that
    [Object.prototype] has under [__proto__]. *)
Definition member (r : reading) (sub : string) : option jsval :=
  match r with
  | Value (JObj m) => m !! sub
  | Value (JArr l) =>
      match index_props l !! sub with
      | Some v => Some v
      | None =>
          if String.eqb sub "length"
          then Some (JNum (Fin (inject_Z (Z.of_nat (length l)))))
          else None
      end
  | Value _ => None
  | Builtin _ => if String.eqb sub "__proto__" then Some JNull else None
  end.

Section Module_.
Variable tagEnabled : bool.
(** [dedupCfg.ignore_fields] and [dedupCfg.check_fields] as lists of
    strings, and [NUM_TOL], a finite Number. *)
Variable IGNORE_FIELDS : list string.
Variable CHECK_FIELDS : option (list string).
Variable NUM_TOL : Q.

Definition includes (l : list string) (k : string) : bool :=
  existsb (String.eqb k) l.

Definition computeComparisonFields (curr : gmap string jsval) : list string :=
  let base := match CHECK_FIELDS with
              | Some fields => fields
              | None => map fst (map_to_list curr)
              end in
  List.filter (fun k => negb (includes IGNORE_FIELDS k)) base.

Definition isEqualWithTolerance (a b : reading) : bool :=
  match a, b with
  | Value (JNum x), Value (JNum y) =>
      num_leb (num_abs (fl_sub x y)) (Fin NUM_TOL)
  | _, _ => identical a b
  end.

(** The body of the second loop for one field: [true] when the field
    shows a change.  In the inner loop [sub] is an own key of [vCurr], so
    [vCurr[sub]] is a value of the record; the loop goes on only when
    [vPrev[sub]] is such a value too and equals it, and returns [true]
    otherwise, be it at the [in] test or at the comparison with a
    built-in. *)
Definition fieldChanged (curr last : gmap string jsval) (k : string) : bool :=
  let vCurr := readProp curr k in
  let vPrev := readProp last k in
  if negb (has last k) then true
  else if primitive vCurr || primitive vPrev
  then negb (isEqualWithTolerance vCurr vPrev)
  else
    let keysC := keysOf vCurr in
    let keysP := keysOf vPrev in
    if negb (Nat.eqb (size keysC) (size keysP)) then true
    else existsb
           (fun sub =>
              match member vPrev sub with
              | Some w => negb (isEqualWithTolerance (Value (prop keysC sub))
                                                     (Value w))
              | None => true
              end)
           (map fst (map_to_list keysC)).

Definition hasMeaningfulChange (st : state) (curr : gmap string jsval) : bool :=
  if negb (haveLast st) then true
  else
    match lastData st with
    | None => true
    | Some last =>
        let fields := computeComparisonFields curr in
        if existsb (fun k => negb (has last k)) fields then true
        else existsb (fieldChanged curr last) fields
    end.

(** The callback of [safeRead]. *)
Definition onRecord (st : state) (o : record) : state * list record :=
  let curr := data o in
  if negb (hasMeaningfulChange st curr) then (st, [])
  else
    let out := Stream.safeWrite (Rec (Core.appendTag tagEnabled (meta o) "dup") curr) in
    (State (Some curr) true, [out]).
End Module_.

End Dedup.

(* ========================================================================= *)
(** ** tmcp-transformer-reduce.js *)
(* ========================================================================= *)

Module Reduce.

Definition tag : string := "red".

Record state := State {
  retained : gmap string jsval;
  startWallTime : option Q
}.

Definition initial : state := State ∅ None.

(** [s.includes(sub)] *)
Fixpoint includes (sub s : string) : bool :=
  String.prefix sub s ||
  match s with
  | EmptyString => false
  | String _ s' => includes sub s'
  end.

(** [rule && typeof rule === "object"] *)
Definition isRule (rule : jsval) : bool :=
  match rule with
  | JObj _ | JArr _ => true
  | _ => false
  end.

(** [rule && rule.<flag> === true] *)
Definition ruleFlag (rule : jsval) (flag : string) : bool :=
  match own_props rule with
  | Some m => Config.is_true (prop m flag)
  | None => false
  end.

Record props := Props {
  temp : bool;
  retain : bool
}.

(** The table [fieldProps] filled at start-up from the entries of [rules]. *)
Definition buildFieldProps (rules : list (string * jsval)) : gmap string props :=
  fold_left
    (fun fp '(name, rule) =>
       let p := default (Props false false) (fp !! name) in
       let p := if ruleFlag rule "temp" then Props true (retain p) else p in
       let p := if ruleFlag rule "retain" then Props (temp p) true else p in
       <[name := p]> fp)
    rules ∅.

(** The working map at the start of the handler: [{ ...retained, ...input }]
    with [__timestamp], [__now] and [__start] set, [start] being
    [startWallTime] once the handler has initialized it. *)
Definition seedWorkingData (st : state) (o : record) (now : Q) : gmap string jsval :=
  let input := data o in
  let start := default now (startWallTime st) in
  let workingData := input ∪ retained st in
  let workingData :=
    <["__timestamp" := nullish (prop (meta o) "timestamp") JNull]> workingData in
  let workingData := <["__now" := JNum (Fin now)]> workingData in
  <["__start" := JNum (Fin start)]> workingData.

Section Module_.
Variable tagEnabled : bool.
(** [Object.entries(rules)], the settings read from the configuration, and
    [computeOutput], whose expression rules are evaluated by the [vm] module. *)
Variable rules : list (string * jsval).
Variable passes : nat.
Variable missingMode : string.
Variable forwardPolicy : string.
Variable computeOutput : string -> jsval -> gmap string jsval -> string -> jsval.

Definition fieldProps : gmap string props := buildFieldProps rules.

Definition ensurePrevInitialized (name : string) (workingData : gmap string jsval)
    : gmap string jsval :=
  let prevKey := name +:+ "__prev" in
  match workingData !! prevKey with
  | Some _ => workingData
  | None =>
      match workingData !! name with
      | Some v => <[prevKey := v]> workingData
      | None =>
          if String.eqb missingMode "zero"
          then <[prevKey := JNum (Fin 0)]> workingData
          else workingData
      end
  end.

Definition is_null (v : jsval) : bool :=
  match v with
  | JNull => true
  | _ => false
  end.

(** One sweep over the rule list.  [None] is the early [return] that drops
    the record; what was written to [retained] before it stays. *)
Fixpoint sweep (rs : list (string * jsval))
    (workingData retained : gmap string jsval)
    : option (gmap string jsval) * gmap string jsval :=
  match rs with
  | [] => (Some workingData, retained)
  | (name, rule) :: rs =>
      if negb (isRule rule) then sweep rs workingData retained
      else
        let value := computeOutput name rule workingData missingMode in
        if is_null value && String.eqb missingMode "fail"
        then (None, retained)
        else
          let workingData := <[name := value]> workingData in
          if ruleFlag rule "retain"
          then sweep rs (ensurePrevInitialized name workingData)
                     (<[name +:+ "__prev" := value]> retained)
          else sweep rs workingData retained
  end.

Fixpoint sweeps (n : nat) (workingData retained : gmap string jsval)
    : option (gmap string jsval) * gmap string jsval :=
  match n with
  | O => (Some workingData, retained)
  | S n =>
      match sweep rules workingData retained with
      | (Some workingData, retained) => sweeps n workingData retained
      | (None, retained) => (None, retained)
      end
  end.

(** The filter that removes temp fields and internals. *)
Definition kept (key : string) : bool :=
  negb (includes "__" key)
  && negb (match fieldProps !! key with
           | Some p => temp p
           | None => false
           end).

Definition known (key : string) : bool :=
  existsb (String.eqb key) (map fst rules).

Definition forward (workingData : gmap string jsval) : gmap string jsval :=
  let entries := filter (fun kv => kept (fst kv) = true) workingData in
  if String.eqb forwardPolicy "known"
  then filter (fun kv => known (fst kv) = true) entries
  else entries.

(** The callback of [safeRead]. *)
Definition onRecord (st : state) (o : record) (now : Q) : state * list record :=
  let start := default now (startWallTime st) in
  let workingData := seedWorkingData st o now in
  match sweeps passes workingData (retained st) with
  | (None, retained) => (State retained (Some start), [])
  | (Some workingData, retained) =>
      let out := Rec (Core.appendTag tagEnabled (meta o) tag) (forward workingData) in
      (State retained (Some start), [Stream.safeWrite out])
  end.
End Module_.

End Reduce.

(* ========================================================================= *)
(** ** lib/pipeline-stream.js: write errors *)
(* ========================================================================= *)

Module StreamErrors.

(** The [policy] argument of [handleWriteError]. *)
Record writePolicy := WritePolicy {
  channelLabel : string;
  exitOnClose : bool;
  retry : bool;
  isFD : bool;
  sync : bool
}.

(** How [handleWriteError] ends. *)
Inductive outcome :=
| Terminated     (* terminateProcess(channelLabel, code) *)
| Suppressed     (* logInfo or logWarn, then return *)
| Rethrown       (* throw err *)
| Logged.        (* logError, then return *)

(** [code === s] for [code = err && err.code]. *)
Definition code_is (code : jsval) (s : string) : bool :=
  match code with
  | JStr c => String.eqb c s
  | _ => false
  end.

Definition handleWriteError (code : jsval) (policy : writePolicy) : outcome :=
  if exitOnClose policy
     && (code_is code "EPIPE" || code_is code "ERR_STREAM_DESTROYED")
     && (String.eqb (channelLabel policy) "stdout"
         || String.eqb (channelLabel policy) "stderr")
  then Terminated
  else if isFD policy && retry policy
          && (code_is code "EPIPE" || code_is code "EAGAIN" || code_is code "ENXIO")
  then Suppressed
  else if negb (exitOnClose policy)
          && (code_is code "EPIPE" || code_is code "ERR_STREAM_DESTROYED")
  then Suppressed
  else if sync policy then Rethrown else Logged.

(** [channelId || inferChannelId(fdOrStream, undefined, "write") || "?"] *)
Definition channelLabelOf (channelId : option string) (fdOrStream : Stream.target)
    : string :=
  match channelId with
  | Some (String c s) => String c s
  | _ =>
      match Stream.inferChannelId fdOrStream JUndef Stream.Write with
      | Some (String c s) => String c s
      | _ => "?"
      end
  end.

(** [typeof fdOrStream === "number"] *)
Definition isNumber (fdOrStream : Stream.target) : bool :=
  match fdOrStream with
  | Stream.TFd _ => true
  | _ => false
  end.

Section Policies.
Variable channelExitOnCloseOverrides : gmap string bool.
Variable channelRetryOverrides : gmap string bool.

(** The policy [safeWrite] hands to [writeRaw] and to its own [catch]. *)
Definition writePolicyOf (fdOrStream : Stream.target) (o : Stream.options)
    (sync : bool) : writePolicy :=
  let p := Stream.resolveChannelPolicies channelExitOnCloseOverrides
             channelRetryOverrides Stream.Write fdOrStream o in
  WritePolicy (channelLabelOf (Stream.channelId p) fdOrStream)
              (Stream.exitOnClose p) (Stream.retry p) (isNumber fdOrStream) sync.

(** The [catch] of [safeWrite]: an error with code [code] thrown while the
    record is encoded or written. *)
Definition safeWriteCatch (fdOrStream : Stream.target) (o : Stream.options)
    (code : jsval) : outcome :=
  handleWriteError code (writePolicyOf fdOrStream o true).

(** The ['error'] listener [attachStreamErrorHandler] installs on a stream
    target, for the policy [writeRaw] stored at the first write. *)
Definition onStreamError (fdOrStream : Stream.target) (o : Stream.options)
    (code : jsval) : outcome :=
  let stored := writePolicyOf fdOrStream o true in
  handleWriteError code
    (WritePolicy (channelLabel stored) (exitOnClose stored) (retry stored)
                 false false).
End Policies.

End StreamErrors.

(* ========================================================================= *)
(** ** tmcp-control-gate.js *)
(* ========================================================================= *)

Module Gate.

Definition TAG : string := "gat".

(** An element of [normalizedBlocks]. *)
Record block := Block {
  mustHave : list jsval;
  minValues : gmap string jsval;
  boolEqual : gmap string jsval;
  strEqual : gmap string jsval;
  maxAgeMs : option number;
  timeoutMs : number
}.

(** [x && typeof x === "object" ? x : {}], read through its own properties. *)
Definition objectOrEmpty (x : jsval) : gmap string jsval :=
  default ∅ (own_props x).

(** The callback of [gateBlocks.map]; [None] is the TypeError of reading a
    property of [null] or [undefined]. *)
Definition normalizeBlock (b : jsval) : option block :=
  match b with
  | JUndef | JNull => None
  | _ =>
      let o := default ∅ (own_props b) in
      Some (Block
              (match prop o "must_have" with
               | JArr l => l
               | _ => []
               end)
              (objectOrEmpty (prop o "min_values"))
              (objectOrEmpty (prop o "bool_equal"))
              (objectOrEmpty (prop o "str_equal"))
              (match prop o "max_age_ms" with
               | JNum (Fin q) => Some (Fin q)
               | _ => None
               end)
              (match prop o "timeout_ms" with
               | JNum (Fin q) => Fin q
               | _ => Fin 2000
               end))
  end.

(** [Array.isArray(rawCfg.gate) ? rawCfg.gate : rawCfg.gate ? [rawCfg.gate] : []] *)
Definition gateBlocks (gate : jsval) : list jsval :=
  match gate with
  | JArr l => l
  | _ => if truthy gate then [gate] else []
  end.

Record state := State {
  activated : bool
}.

Definition initial : state := State false.

Section Module_.
Context `{Conversions}.
Variable tagEnabled : bool.
Variable normalizedBlocks : list block.

Definition booleanCheck (data boolMap : gmap string jsval) : bool :=
  map_fold
    (fun field target acc =>
       acc &&
       match target with
       | JBool true =>
           hasOwn data field && Dedup.strictEq (prop data field) (JBool true)
       | JBool false =>
           negb (hasOwn data field
                 && negb (Dedup.strictEq (prop data field) (JBool false)))
       | _ => true
       end)
    true boolMap.

Definition stringEqualCheck (data strMap : gmap string jsval) : bool :=
  map_fold
    (fun field expected acc =>
       acc && (hasOwn data field && Dedup.strictEq (prop data field) expected))
    true strMap.

(** [blockSatisfied(block, obj)], with the value [Date.now()] returns in it.
    Under [min_values] only an own property can be a Number: what a plain
    object inherits is not. *)
Definition blockSatisfied (b : block) (obj : record) (now : Q) : bool :=
  let data := data obj in
  forallb
    (fun k =>
       let key := ToString k in
       has data key &&
       negb (match readProp data key with
             | Value JNull | Value JUndef => true
             | _ => false
             end))
    (mustHave b)
  && map_fold
       (fun k minV acc =>
          acc &&
          negb (negb (String.eqb (typeof (prop data k)) "number")
                || js_lt (prop data k) minV))
       true (minValues b)
  && booleanCheck data (boolEqual b)
  && stringEqualCheck data (strEqual b)
  && match maxAgeMs b with
     | None => true
     | Some maxAge =>
         match prop (meta obj) "timestamp" with
         | JNum ts => negb (num_ltb maxAge (fl_sub (Fin now) ts))
         | _ => false
         end
     end.

(** [allBlocksSatisfied(obj)]; [nows i] is the value of [Date.now()] while
    block [i] is evaluated. *)
Definition allBlocksSatisfied (obj : record) (nows : nat -> Q) : bool :=
  forallb (fun '(i, b) => blockSatisfied b obj (nows i))
          (imap (fun i b => (i, b)) normalizedBlocks).

(** The callback of [safeRead]. *)
Definition onRecord (st : state) (obj : record) (nows : nat -> Q)
    : state * list record :=
  if negb (activated st) then
    if allBlocksSatisfied obj nows
    then (State true,
          [Stream.safeWrite (Rec (Core.appendTag tagEnabled (meta obj) TAG) (data obj))])
    else (st, [])
  else
    (st, [Stream.safeWrite (Rec (Core.appendTag tagEnabled (meta obj) TAG) (data obj))]).

Fixpoint run (st : state) (inputs : list (record * (nat -> Q)))
    : state * list record :=
  match inputs with
  | [] => (st, [])
  | (obj, nows) :: inputs =>
      let '(st, out) := onRecord st obj nows in
      let '(st, outs) := run st inputs in
      (st, out ++ outs)
  end.
End Module_.

End Gate.

(* ========================================================================= *)
(** ** lib/pipeline-config.js: registration *)
(* ========================================================================= *)

Module Registry.

(** [String(s).replace(/^-+/, "")] *)
Fixpoint normalizeNameToken (s : string) : string :=
  match s with
  | String "-" s' => normalizeNameToken s'
  | _ => s
  end.

(** [paramRegistry], as the list of its values in insertion order, and
    [shortParamsRegistry]. *)
Record registries := Registries {
  paramRegistry : list Config.paramSpec;
  shortParamsRegistry : gmap string string
}.

Definition empty : registries := Registries [] ∅.

(** The callback of [schema.map] in [registerPositionals]; [None] is a
    [throw]. *)
Definition registerEntry (len idx : nat) (entry : jsval) : option Config.posSpec :=
  match own_props entry with
  | None => None
  | Some m =>
      match prop m "name" with
      | JStr name =>
          if truthy (prop m "varargs") && negb (Nat.eqb idx (len - 1)) then None
          else Some (Config.PosSpec name (truthy (prop m "required"))
                                    (truthy (prop m "varargs")))
      | _ => None
      end
  end.

(** [registerPositionals(schema)]: the new value of [positionalsSchema], or
    [None] for a [throw]. *)
Definition registerPositionals (positionalsSchema : option (list Config.posSpec))
    (schema : jsval) : option (list Config.posSpec) :=
  match schema with
  | JArr l =>
      match positionalsSchema with
      | Some _ => None
      | None => mapM (fun '(idx, entry) => registerEntry (length l) idx entry)
                     (imap (fun idx entry => (idx, entry)) l)
      end
  | _ => None
  end.

Section Registration.
Context `{Conversions}.
(** [String.prototype.trim] and [String.prototype.toLowerCase]. *)
Variable trim : string -> string.
Variable toLowerCase : string -> string.

Definition normalizeKey (s : string) : string := toLowerCase (trim s).

(** The checks on [spec.shortname]: [None] is a [throw], [Some None] no
    short name. *)
Definition resolveShortname (r : registries) (keyLower : string) (shortname : jsval)
    : option (option string) :=
  match shortname with
  | JUndef => Some None
  | JStr s =>
      if negb (Nat.eqb (String.length s) 1) then None
      else
        let s := toLowerCase s in
        if String.eqb s "h" && negb (String.eqb keyLower "help") then None
        else if bool_decide (is_Some (shortParamsRegistry r !! s)) then None
        else Some (Some s)
  | _ => None
  end.

(** [registerParam(spec)]: the registries after the call, or [None] for a
    [throw]. *)
Definition registerParam (r : registries) (spec : jsval) : option registries :=
  match own_props spec with
  | None => None
  | Some m =>
      match prop m "longname" with
      | JStr (String c l) =>
          let longname := normalizeNameToken (String c l) in
          let keyLower := normalizeKey longname in
          if existsb (String.eqb keyLower)
                     (map Config.longnameLower (paramRegistry r))
          then None
          else
            match resolveShortname r keyLower (prop m "shortname") with
            | None => None
            | Some shortname =>
                let expectsValue := Config.is_true (prop m "expectsValue") in
                let generateNegative :=
                  match prop m "generateNegative" with
                  | JUndef => negb expectsValue
                  | v => truthy v
                  end in
                let normalized :=
                  Config.ParamSpec longname keyLower shortname
                    (if truthy (prop m "envname")
                     then Some (ToString (prop m "envname")) else None)
                    (prop m "default")
                    expectsValue generateNegative
                    (Config.is_true (prop m "required"))
                    (match prop m "mutable" with
                     | JUndef => true
                     | v => truthy v
                     end) in
                Some (Registries
                        (paramRegistry r ++ [normalized])
                        (match shortname with
                         | Some (String a s) =>
                             <[String a s := keyLower]> (shortParamsRegistry r)
                         | _ => shortParamsRegistry r
                         end))
            end
      | _ => None
      end
  end.

(** A module's calls of [registerParam], none of which throws. *)
Fixpoint registerParams (r : registries) (specs : list jsval) : option registries :=
  match specs with
  | [] => Some r
  | spec :: specs =>
      match registerParam r spec with
      | Some r => registerParams r specs
      | None => None
      end
  end.
End Registration.

End Registry.

(* ========================================================================= *)
(** ** lib/pipeline-config.js: the accessor layers *)
(* ========================================================================= *)

Module Layers.

(** [s.split(sep)] for a separator of one character. *)
Fixpoint split (sep : ascii) (s : string) : list string :=
  match s with
  | EmptyString => [EmptyString]
  | String c s' =>
      if Ascii.eqb c sep then EmptyString :: split sep s'
      else match split sep s' with
           | h :: t => String c h :: t
           | [] => [String c EmptyString]
           end
  end.

(** [parts.join(sep)] *)
Fixpoint join (sep : string) (parts : list string) : string :=
  match parts with
  | [] => EmptyString
  | [p] => p
  | p :: rest => p +:+ sep +:+ join sep rest
  end.

(** [/^[0-9]+$/.test(s)] together with [Number(s)]. *)
Definition index (s : string) : option N :=
  match s with
  | EmptyString => None
  | _ => parseDigits s 0
  end.

Section Layers_.
(** [String.prototype.trim] and [String.prototype.toLowerCase]. *)
Variable trim : string -> string.
Variable toLowerCase : string -> string.

#[local] Abbreviation normalizeKey := (Registry.normalizeKey trim toLowerCase).

Definition isParamHead (head : string) : bool :=
  String.eqb head "param" || String.eqb head "override" || String.eqb head "flag".

(** [get] of [createCliBaseLayer]; [namedKeys] is
    [Object.keys(cliBase.namedPositionals)]. *)
Definition cliBaseGet (b : Config.cliBase) (namedKeys : list string)
    (pathStr : string) : jsval :=
  match split "." pathStr with
  | [] => JUndef
  | part0 :: rest =>
      let head := normalizeKey part0 in
      if isParamHead head then
        match rest with
        | [] => JUndef
        | _ => prop (Config.params b) (normalizeKey (join "." rest))
        end
      else if String.eqb head "positionals" then
        match rest with
        | [] => JArr (Config.positionals b)
        | tail :: _ =>
            match index tail with
            | Some idx => default JUndef (Config.positionals b !! N.to_nat idx)
            | None =>
                let wantedLower := normalizeKey tail in
                match List.find (fun k => String.eqb (normalizeKey k) wantedLower)
                                namedKeys with
                | Some k => prop (Config.namedPositionals b) k
                | None => JUndef
                end
            end
        end
      else JUndef
  end.

(** [spec] of [createCliBaseLayer], and the [mutable] of what it returns. *)
Definition cliBaseSpec (paramRegistry : list Config.paramSpec) (pathStr : string)
    : option Config.paramSpec :=
  match split "." pathStr with
  | part0 :: rest =>
      match rest with
      | [] => None
      | _ =>
          if isParamHead (normalizeKey part0) then
            let keyLower := normalizeKey (join "." rest) in
            List.find (fun p => String.eqb (Config.longnameLower p) keyLower)
                      paramRegistry
          else None
      end
  | [] => None
  end.

Definition cliBaseMutable (paramRegistry : list Config.paramSpec) (pathStr : string)
    : option jsval :=
  (fun p => JBool (Config.mutable p)) <$> cliBaseSpec paramRegistry pathStr.

(** The base layer handed to [createRuntimeLayer]: its [get], and for a path
    the own property [mutable] of [baseLayer.spec(path)], when there is
    one. *)
Variable baseGet : string -> jsval.
Variable baseMutable : string -> option jsval.

(** [!(s && hasOwnProperty(s, "mutable") && s.mutable === false)] *)
Definition canMutate (path : string) : bool :=
  match baseMutable path with
  | Some (JBool false) => false
  | _ => true
  end.

(** [get(path, { original })] over the map [overrides]. *)
Definition get (overrides : gmap string jsval) (path : string) (original : bool)
    : jsval :=
  if negb original then
    match overrides !! normalizeKey path with
    | Some v => v
    | None => baseGet path
    end
  else baseGet path.

(** [overrideValue(path, value)]; [None] is [process.exit(1)]. *)
Definition overrideValue (overrides : gmap string jsval) (path : string)
    (value : jsval) : option (gmap string jsval) :=
  if negb (canMutate path) then None
  else Some (<[normalizeKey path := value]> overrides).

Definition clearOverride (overrides : gmap string jsval) (path : string)
    : gmap string jsval :=
  delete (normalizeKey path) overrides.
End Layers_.

End Layers.

(* ========================================================================= *)
(** ** lib/pipeline-stream.js: the NDJSON reader of [safeRead] *)
(* ========================================================================= *)

Module Ndjson.

(** [buffer.indexOf("\n")], [None] standing for [-1]. *)
Fixpoint indexOfNewline (s : string) : option nat :=
  match s with
  | EmptyString => None
  | String c s' =>
      if Ascii.eqb c "010" then Some 0 else S <$> indexOfNewline s'
  end.

(** [s.slice(0, n)] and [s.slice(n)] *)
Fixpoint sliceTo (n : nat) (s : string) : string :=
  match n, s with
  | S n, String c s' => String c (sliceTo n s')
  | _, _ => EmptyString
  end.

Fixpoint sliceFrom (n : nat) (s : string) : string :=
  match n, s with
  | S n, String _ s' => sliceFrom n s'
  | _, _ => s
  end.

Section Reader.
(** [JSON.parse], [None] when it throws, and [String.prototype.trim]. *)
Variable JSONparse : string -> option jsval.
Variable trim : string -> string.

(** [parseLine(line)]: [None] is the [null] of a line that does not parse. *)
Definition parseLine (line : string) : option record :=
  Core.normalizeObject <$> JSONparse line.

(** The loop of the ['data'] listener: the records handed to [onRecord] and
    what is left in [buffer].  Every iteration removes a line terminator, so
    the loop runs at most [buffer.length] times. *)
Fixpoint drain (fuel : nat) (buffer : string) : list record * string :=
  match fuel with
  | O => ([], buffer)
  | S fuel =>
      match indexOfNewline buffer with
      | None => ([], buffer)
      | Some idx =>
          let line := sliceTo idx buffer in
          let buffer := sliceFrom (idx + 1) buffer in
          let '(records, buffer) := drain fuel buffer in
          (match parseLine line with
           | Some obj => obj :: records
           | None => records
           end, buffer)
      end
  end.

(** The ['data'] listener. *)
Definition onData (buffer chunk : string) : list record * string :=
  let buffer := buffer +:+ chunk in
  drain (String.length buffer) buffer.

(** The ['end'] listener, up to [handleEOF]. *)
Definition onEnd (buffer : string) : list record :=
  let tail := trim buffer in
  if Nat.ltb 0 (String.length tail)
  then match parseLine tail with
       | Some obj => [obj]
       | None => []
       end
  else [].

(** A stream that delivers [chunks] and ends. *)
Fixpoint read (buffer : string) (chunks : list string) : list record :=
  match chunks with
  | [] => onEnd buffer
  | chunk :: chunks =>
      let '(records, buffer) := onData buffer chunk in
      records ++ read buffer chunks
  end.
End Reader.

End Ndjson.

(* ========================================================================= *)
(** ** lib/pipeline-stream.js: [--exit-on-close] and [--retry] *)
(* ========================================================================= *)

Module PolicySpec.

Section Parse.
Context `{Conversions}.
(** [String.prototype.trim] and [String.prototype.toLowerCase]. *)
Variable trim : string -> string.
Variable toLowerCase : string -> string.

(** [parseBooleanLike(raw)]; [None] is [undefined]. *)
Definition parseBooleanLike (raw : jsval) : option bool :=
  match raw with
  | JBool b => Some b
  | JUndef | JNull => None
  | _ =>
      let v := toLowerCase (ToString raw) in
      if String.eqb v "true" || String.eqb v "1" || String.eqb v "yes"
         || String.eqb v "on"
      then Some true
      else if String.eqb v "false" || String.eqb v "0" || String.eqb v "no"
              || String.eqb v "off"
      then Some false
      else None
  end.

(** The body of the loop of [parseSpec] for one element of
    [spec.split(",")]. *)
Definition parsePart (targetMap : gmap string bool) (part : string)
    : gmap string bool :=
  let trimmed := trim part in
  if String.eqb trimmed EmptyString then targetMap
  else
    match Layers.split "=" trimmed with
    | [] => targetMap
    | rawName :: rest =>
        let name := if String.eqb rawName EmptyString then rawName
                    else trim rawName in
        if String.eqb name EmptyString then targetMap
        else
          let parsedBool :=
            match rest with
            | [] => Some true
            | rawVal :: _ => parseBooleanLike (JStr (trim rawVal))
            end in
          match parsedBool with
          | None => targetMap
          | Some b => <[name := b]> targetMap
          end
    end.

(** [parseSpec(spec, targetMap, label)] *)
Definition parseSpec (spec : jsval) (targetMap : gmap string bool)
    : gmap string bool :=
  match spec with
  | JStr (String c s) =>
      fold_left parsePart (Layers.split "," (String c s)) targetMap
  | _ => targetMap
  end.
End Parse.

End PolicySpec.

(* ========================================================================= *)
(** ** tmcp-transformer-reduce.js: the rules *)
(* ========================================================================= *)

Module ReduceRules.

(** [Math.max] and [Math.min] of two Numbers. *)
Definition num_max (a b : number) : number :=
  match a, b with
  | NaN, _ | _, NaN => NaN
  | _, _ => if num_ltb a b then b else a
  end.

Definition num_min (a b : number) : number :=
  match a, b with
  | NaN, _ | _, NaN => NaN
  | _, _ => if num_ltb b a then b else a
  end.

(** [Math.max(...v)] and [Math.min(...v)] *)
Definition max_of (v : list number) : number := fold_left num_max v (Inf true).
Definition min_of (v : list number) : number := fold_left num_min v (Inf false).

Definition op_sum (v : list number) : number := fold_left num_add v (Fin 0).

Definition op_sub (v : list number) : number :=
  match v with
  | [] => Fin 0
  | v0 :: rest => fold_left num_sub rest v0
  end.

Definition op_avg (v : list number) : number :=
  match v with
  | [] => Fin 0
  | _ => num_div (fold_left num_add v (Fin 0)) (Fin (inject_Z (Z.of_nat (length v))))
  end.

Definition op_max (v : list number) : number :=
  match v with
  | [] => Fin 0
  | _ => max_of v
  end.

Definition op_min (v : list number) : number :=
  match v with
  | [] => Fin 0
  | _ => min_of v
  end.

Definition op_range (v : list number) : number :=
  match v with
  | [] => Fin 0
  | _ => num_sub (max_of v) (min_of v)
  end.

(** [op === s] *)
Definition op_is (op : jsval) (s : string) : bool :=
  match op with
  | JStr o => String.eqb o s
  | _ => false
  end.

(** The [switch] at the end of [computeOutput]. *)
Definition aggregate (op : jsval) (values : list number) : jsval :=
  match op with
  | JStr "sum" => JNum (op_sum values)
  | JStr "sub" => JNum (op_sub values)
  | JStr "avg" => JNum (op_avg values)
  | JStr "max" => JNum (op_max values)
  | JStr "min" => JNum (op_min values)
  | JStr "range" => JNum (op_range values)
  | _ => JNull
  end.

Section Rules.
Context `{Conversions}.
(** The branch of [computeOutput] for [inputs] that is an object and not an
    array: it walks [Object.entries(inputs)] in property order and evaluates
    the expression rules with the [vm] module. *)
Variable objectInputs : string -> jsval -> gmap string jsval -> string -> jsval.

(** The loop over an array [inputs]: the values collected, or [None] for the
    early [return null]. *)
Fixpoint collect (inputs : list jsval) (data : gmap string jsval)
    (missingMode : string) : option (list number) :=
  match inputs with
  | [] => Some []
  | name :: inputs =>
      match prop data (ToString name) with
      | JNum n => cons n <$> collect inputs data missingMode
      | _ =>
          if String.eqb missingMode "zero"
          then cons (Fin 0) <$> collect inputs data missingMode
          else if String.eqb missingMode "fail" then None
          else collect inputs data missingMode
      end
  end.

(** [computeOutput(ruleName, rule, data, missingMode)] for a rule that is an
    object; [None] is the TypeError of reading [inputs.src] on [null]. *)
Definition computeOutput (ruleName : string) (rule : jsval)
    (data : gmap string jsval) (missingMode : string) : option jsval :=
  let r := default ∅ (own_props rule) in
  let op := prop r "op" in
  let inputs := prop r "inputs" in
  if negb (truthy op) then Some JNull
  else
    let copy :=
      if op_is op "copy" then
        match inputs with
        | JNull => Some None
        | JObj _ | JArr _ =>
            let src := prop (default ∅ (own_props inputs)) "src" in
            if truthy src then
              Some (Some (match data !! ToString src with
                          | Some JUndef | None =>
                              if String.eqb missingMode "zero" then JNum (Fin 0)
                              else JNull
                          | Some v => v
                          end))
            else None
        | _ => None
        end
      else None in
    match copy with
    | Some result => result
    | None =>
        match inputs with
        | JArr l =>
            match collect l data missingMode with
            | Some values => Some (aggregate op values)
            | None => Some JNull
            end
        | JObj _ => Some (objectInputs ruleName rule data missingMode)
        | _ => Some (aggregate op [])
        end
    end.
End Rules.

End ReduceRules.

(* ========================================================================= *)
(** * Notions of the specification and worked inputs *)
(* ========================================================================= *)

(** The conversions used to close the worked examples: a string that is not
    a run of digits converts to NaN, and a Number that is not a small integer
    is rendered as the empty string; neither case occurs in them. *)
Definition exampleConversions : Conversions :=
  {| OtherStringToNumber := fun _ => NaN; FractionToString := fun _ => EmptyString |}.

(** Resolution "in order": each layer that is set replaces the value of
    the layers before it. *)
Definition resolve_in_order (dflt : bool) (layers : list (option bool)) : bool :=
  fold_left (fun acc layer => default acc layer) layers dflt.

(** A layer is set when the option is a boolean. *)
Definition as_boolean (v : jsval) : option bool :=
  match v with
  | JBool b => Some b
  | _ => None
  end.

(** The legacy alias [exitOnClose = !linger]. *)
Definition lingerAlias (o : Stream.options) : option bool :=
  negb <$> as_boolean (Stream.optLinger o).

(** The registration of [--do-tag] in lib/pipeline-core.js. *)
Definition doTagSpec : Config.paramSpec :=
  Config.ParamSpec "do-tag" "do-tag" None (Some "TMCP_DO_TAG") (JBool true)
    false true false true.

(** The registration of [--interval-ms] in tmcp-control-minrate.js. *)
Definition intervalMsSpec : Config.paramSpec :=
  Config.ParamSpec "interval-ms" "interval-ms" None (Some "TMCP_INTERVAL_MS")
    JUndef true false false true.

(** The schema of tmcp-transformer-reduce.js: one required slot. *)
Definition reducerSchema : list Config.posSpec :=
  [Config.PosSpec "config_file" true false].

(** The record of the scenario: [{meta:{timestamp:1000, pipeline:[]}, data:{x:7}}]. *)
Definition minrateInput : record :=
  Rec (<["timestamp" := JNum (Fin 1000)]> (<["pipeline" := JArr []]> ∅))
      (<["x" := JNum (Fin 7)]> ∅).

(** The watchdog fires every [max(5, floor(100 / 4)) = 25] ms; these are its
    firings up to 350 ms after the input, which arrived at wall-clock 0. *)
Definition minrateEvents : list MinRate.event :=
  MinRate.Input minrateInput 0 0 ::
  map (fun k => let now := inject_Z (25 * Z.of_nat k) in MinRate.Tick now now now)
      (seq 1 14).

(** The state of the merge at start-up, with [sides] side channels. *)
Definition mergeInitial (sides : nat) : Merge.state :=
  Merge.State [] (replicate sides []) (replicate sides None).

(** [meta.timestamp] of an emitted record. *)
Definition timestampOf (r : record) : jsval := prop (meta r) "timestamp".

(** Scenario 4 of the specification: tolerance 10, a main record at 1000
    with [{x:1}], and one bounded side holding [{y:10}] at 980 and [{y:20}]
    at 1020. *)
Definition sideRecord (ts y : Q) : record :=
  Rec (<["timestamp" := JNum (Fin ts)]> (<["pipeline" := JArr []]> ∅))
      (<["y" := JNum (Fin y)]> ∅).

Definition mergeScenario : Merge.state :=
  Merge.State
    [Rec (<["timestamp" := JNum (Fin 1000)]> (<["pipeline" := JArr []]> ∅))
         (<["x" := JNum (Fin 1)]> ∅)]
    [[sideRecord 980 10; sideRecord 1020 20]]
    [None].

(** The linear interpolation [v1 + (v2 - v1) * ((t - t1) / (t2 - t1))] as
    it is evaluated on doubles: each of the five operations rounds its exact
    result. *)
Definition lerp (v1 v2 t t1 t2 : number) : number :=
  fl_add v1 (fl_mul (fl_sub v2 v1) (fl_div (fl_sub t t1) (fl_sub t2 t1))).

(** The same expression over the rationals. *)
Definition lerpExact (v1 v2 t t1 t2 : Q) : Q :=
  v1 + (v2 - v1) * ((t - t1) / (t2 - t1)).

(** Two bounded sides that are both given the postfix ["_s"]: the first holds
    [{y:10}] at 980 and [{y:20}] at 1020, the second [{y:99}] at 1000, and
    the main record is at 1000. *)
Definition mergeClash : Merge.state :=
  Merge.State
    [Rec (<["timestamp" := JNum (Fin 1000)]> (<["pipeline" := JArr []]> ∅))
         (<["x" := JNum (Fin 1)]> ∅)]
    [[sideRecord 980 10; sideRecord 1020 20]; [sideRecord 1000 99]]
    [None; None].

(** One bounded side holding [{y:0}] at 0 and [{y:1}] at 3, and a main record
    at 1. *)
Definition mergeThirds : Merge.state :=
  Merge.State
    [Rec (<["timestamp" := JNum (Fin 1)]> (<["pipeline" := JArr []]> ∅)) ∅]
    [[sideRecord 0 0; sideRecord 3 1]]
    [None].

(** No side after [i] writes the key that side [i] writes for [k]. *)
Definition notOverwritten `{Conversions} (tolerance : number)
    (postfixes : list jsval) (allowUnbounded : list bool)
    (st : Merge.state) (ts : number) (i : nat) (k : string) : Prop :=
  forall j rec k',
    i < j < length (Merge.sideBuffers st) ->
    Merge.interpolateSide tolerance allowUnbounded st j ts = Some rec ->
    is_Some (data rec !! k') ->
    k' +:+ Merge.postfixOf postfixes j ≠ k +:+ Merge.postfixOf postfixes i.

(** The order the queue is kept in, and the items whose output timestamp is
    a finite Number. *)
Definition leTs (a b : Delay.item) : Prop :=
  num_leb (Delay.outTs a) (Delay.outTs b) = true.

Definition finiteItem (it : Delay.item) : Prop :=
  isFinite (JNum (Delay.outTs it)) = true.

Definition ordered (q : list Delay.item) : Prop := StronglySorted leTs q.

Definition wellFormed (st : Delay.state) : Prop :=
  ordered (Delay.queue st) /\ Forall finiteItem (Delay.queue st).

(** An input record whose [meta.timestamp] is the finite Number [t]. *)
Definition stamped (t : Q) (o : record) : record :=
  Rec (<["timestamp" := JNum (Fin t)]> (meta o)) (data o).




(** Two values are tolerance-equal when they are two Numbers that differ by
    at most the tolerance, the difference being that of two doubles, or two
    identical primitives or, for two objects (or arrays), when they have the
    same keys and under each key two values that are tolerance-equal in the
    former sense. *)
Definition toleranceEqual (tol : Q) (a b : jsval) : bool :=
  match own_props a, own_props b with
  | Some pa, Some pb =>
      bool_decide (dom pa = dom pb) &&
      forallb (fun sub => Dedup.isEqualWithTolerance tol (Value (prop pa sub))
                                                     (Value (prop pb sub)))
              (elements (dom pa))
  | _, _ => Dedup.isEqualWithTolerance tol (Value a) (Value b)
  end.

(** A parsed line whose [data] is not an array: the record that
    [normalizeObject] makes of it has a plain object as its data. *)
Definition plainData (raw : jsval) : bool :=
  negb (isArray (prop (default ∅ (own_props raw)) "data")).

(** A name is marked temp when an entry of [rules] under that name has
    [temp === true]. *)
Definition markedTemp (rules : list (string * jsval)) (k : string) : bool :=
  existsb (fun '(name, rule) => String.eqb name k && Reduce.ruleFlag rule "temp")
          rules.

(* ========================================================================= *)
(** ** Runs, invariants and readings used by the further properties *)
(* ========================================================================= *)

(** What the merge reacts to: a record on stdin, or a record on the side
    channel [idx], each with the value of [Date.now()] in its handler. *)
Inductive mergeEvent :=
| MainRecord (o : record) (now : Q)
| SideRecord (idx : nat) (o : record) (now : Q).

Definition mergeStep `{Conversions} (tagEnabled : bool)
    (tolerance maxBuffer : number) (postfixes : list jsval)
    (allowUnbounded : list bool) (st : Merge.state) (e : mergeEvent)
    : Merge.state * list record :=
  match e with
  | MainRecord o now =>
      Merge.onMain tagEnabled tolerance maxBuffer postfixes allowUnbounded st o now
  | SideRecord idx o now =>
      (Merge.pushSide maxBuffer allowUnbounded st idx o now, [])
  end.

Fixpoint mergeRun `{Conversions} (tagEnabled : bool)
    (tolerance maxBuffer : number) (postfixes : list jsval)
    (allowUnbounded : list bool) (st : Merge.state) (es : list mergeEvent)
    : Merge.state * list record :=
  match es with
  | [] => (st, [])
  | e :: es =>
      let '(st, out) :=
        mergeStep tagEnabled tolerance maxBuffer postfixes allowUnbounded st e in
      let '(st, outs) :=
        mergeRun tagEnabled tolerance maxBuffer postfixes allowUnbounded st es in
      (st, out ++ outs)
  end.

(** The records received on side channel [idx], in their order. *)
Definition receivedOn (idx : nat) (es : list mergeEvent) : list record :=
  omap (fun e => match e with
                 | SideRecord i o _ => if Nat.eqb i idx then Some o else None
                 | MainRecord _ _ => None
                 end) es.

(** [typeof o.meta?.timestamp === "number"] *)
Definition numericTs (r : record) : bool :=
  String.eqb (typeof (Merge.timestamp r)) "number".

(** The invariant of the side buffers: a bounded buffer only holds records
    whose timestamp is a Number. *)
Definition sidesNumeric (allowUnbounded : list bool) (st : Merge.state) : Prop :=
  forall idx buf,
    default false (allowUnbounded !! idx) = false ->
    Merge.sideBuffers st !! idx = Some buf ->
    Forall (fun r => numericTs r = true) buf.




(** The queue element [onRecord] builds for an input, and the input as an
    event. *)
Definition delayedItem (d : Q) (r : record * Q) : Delay.item :=
  Delay.Item (num_add (Delay.tsInOf (fst r) (snd r)) (Fin d)) (fst r).


(** The dedup handler run over a sequence of records. *)
Fixpoint dedupRun (tagEnabled : bool) (IGNORE_FIELDS : list string)
    (CHECK_FIELDS : option (list string)) (NUM_TOL : Q)
    (st : Dedup.state) (os : list record) : Dedup.state * list record :=
  match os with
  | [] => (st, [])
  | o :: os =>
      let '(st, out) :=
        Dedup.onRecord tagEnabled IGNORE_FIELDS CHECK_FIELDS NUM_TOL st o in
      let '(st, outs) :=
        dedupRun tagEnabled IGNORE_FIELDS CHECK_FIELDS NUM_TOL st os in
      (st, out ++ outs)
  end.

(** The reducer handler run over a sequence of records, each with the value
    of [Date.now()] in the handler. *)
Fixpoint reduceRun (tagEnabled : bool) (rules : list (string * jsval))
    (passes : nat) (missingMode forwardPolicy : string)
    (computeOutput : string -> jsval -> gmap string jsval -> string -> jsval)
    (st : Reduce.state) (inputs : list (record * Q))
    : Reduce.state * list record :=
  match inputs with
  | [] => (st, [])
  | (o, now) :: inputs =>
      let '(st, out) :=
        Reduce.onRecord tagEnabled rules passes missingMode forwardPolicy
          computeOutput st o now in
      let '(st, outs) :=
        reduceRun tagEnabled rules passes missingMode forwardPolicy
          computeOutput st inputs in
      (st, out ++ outs)
  end.

(** A map all of whose keys are internal names (they contain ["__"]). *)
Definition internalKeys (m : gmap string jsval) : Prop :=
  forall k, is_Some (m !! k) -> Reduce.includes "__" k = true.

(** The value [parseCLIOnce] resolves for a registry entry, and whether the
    entry raises a usage error. *)
Definition paramValue (parsedArgs : gmap string jsval) (env : gmap string string)
    (p : Config.paramSpec) : jsval :=
  fst (Config.resolveParam parsedArgs env p (Config.CliStatus false false false)).

Definition paramError (parsedArgs : gmap string jsval) (env : gmap string string)
    (p : Config.paramSpec) : bool :=
  Config.isError
    (snd (Config.resolveParam parsedArgs env p (Config.CliStatus false false false))).

(** The slot [i] of the schema is required and not filled by [ps]. *)
Definition slotMissing (ps : list jsval) (i : nat) (spec : Config.posSpec) : bool :=
  Config.posRequired spec &&
  (if Config.posVarargs spec then Nat.leb (length ps) i
   else Config.is_undefined (default JUndef (ps !! i))).

(** The value bound to the name of slot [i]. *)
Definition slotValue (ps : list jsval) (i : nat) (spec : Config.posSpec) : jsval :=
  if Config.posVarargs spec then JArr (drop i ps) else default JUndef (ps !! i).

(** A schema as [registerPositionals] accepts it: only the last slot may be
    a varargs slot. *)
Definition varargsLast (schema : list Config.posSpec) : Prop :=
  forall i spec,
    schema !! i = Some spec -> Config.posVarargs spec = true -> S i = length schema.

(** [parsedArgs._], when it is an array. *)
Definition positionalArgs (parsedArgs : gmap string jsval) : list jsval :=
  match prop parsedArgs "_" with
  | JArr l => l
  | _ => []
  end.

(** Some slot of the schema, counted from [i], is required and not filled. *)
Fixpoint slotsMissing (ps : list jsval) (i : nat) (schema : list Config.posSpec)
    : bool :=
  match schema with
  | [] => false
  | spec :: schema => slotMissing ps i spec || slotsMissing ps (S i) schema
  end.

(** What the gate writes for an input it lets through. *)
Definition gateForwarded (tagEnabled : bool) (r : record * (nat -> Q)) : record :=
  Stream.safeWrite
    (Rec (Core.appendTag tagEnabled (meta (fst r)) Gate.TAG) (data (fst r))).

(** The invariant of the two registries of lib/pipeline-config.js: the keys
    of [paramRegistry] are distinct, the short name [h] belongs to [help],
    and [shortParamsRegistry] maps each short name to its parameter. *)
Definition registered (r : Registry.registries) : Prop :=
  NoDup (map Config.longnameLower (Registry.paramRegistry r)) /\
  (forall p, p ∈ Registry.paramRegistry r -> Config.shortname p = Some "h" ->
             Config.longnameLower p = "help") /\
  (forall p c s, p ∈ Registry.paramRegistry r ->
                 Config.shortname p = Some (String c s) ->
                 Registry.shortParamsRegistry r !! String c s =
                 Some (Config.longnameLower p)).

(** The ASCII part of [String.prototype.toLowerCase] and of
    [String.prototype.trim], used to close the worked examples. *)
Definition asciiLowerChar (c : ascii) : ascii :=
  let n := nat_of_ascii c in
  if Nat.leb 65 n && Nat.leb n 90 then ascii_of_nat (n + 32) else c.

Fixpoint asciiLower (s : string) : string :=
  match s with
  | EmptyString => EmptyString
  | String c s => String (asciiLowerChar c) (asciiLower s)
  end.

Definition asciiSpace (c : ascii) : bool :=
  let n := nat_of_ascii c in
  Nat.eqb n 32 || (Nat.leb 9 n && Nat.leb n 13).

Fixpoint asciiTrimStart (s : string) : string :=
  match s with
  | String c s' => if asciiSpace c then asciiTrimStart s' else s
  | EmptyString => EmptyString
  end.

Fixpoint asciiTrimEnd (s : string) : string :=
  match s with
  | EmptyString => EmptyString
  | String c s' =>
      match asciiTrimEnd s' with
      | EmptyString => if asciiSpace c then EmptyString else String c EmptyString
      | rest => String c rest
      end
  end.

Definition asciiTrim (s : string) : string := asciiTrimEnd (asciiTrimStart s).




(* ========================================================================= *)
(** * Properties *)
(* ========================================================================= *)

(** ** Record core and [safeWrite] *)

Section CoreFacts.
Import Core Stream.

Lemma prop_insert_eq (m : gmap string jsval) k v : prop (<[k := v]> m) k = v.
Proof. unfold prop. by rewrite lookup_insert_eq. Qed.

Lemma prop_insert_ne (m : gmap string jsval) k k' v :
  k ≠ k' -> prop (<[k := v]> m) k' = prop m k'.
Proof. intros Hne. unfold prop. by rewrite lookup_insert_ne. Qed.

(** Writing a record repairs a missing pipeline and nothing else. *)
Lemma safeWrite_spec (r : record) :
  safeWrite r =
  Rec (if isArray (prop (meta r) "pipeline") then meta r
       else <["pipeline" := JArr []]> (meta r))
      (data r).
Proof.
  unfold safeWrite, normalizeObject, to_js.
  rewrite prop_insert_eq, prop_insert_ne by done.
  rewrite prop_insert_eq. reflexivity.
Qed.

Lemma normalizeObject_pipeline (v : jsval) :
  isArray (prop (meta (normalizeObject v)) "pipeline") = true.
Proof.
  unfold normalizeObject. cbv zeta. cbn [meta].
  match goal with
  | |- context [if isArray ?x then _ else _] => destruct (isArray x) eqn:E
  end; [done|].
  by rewrite prop_insert_eq.
Qed.

(** [normalizeObject] is idempotent on what it returns. *)
Lemma safeWrite_normalized (v : jsval) :
  safeWrite (normalizeObject v) = normalizeObject v.
Proof.
  rewrite safeWrite_spec, normalizeObject_pipeline.
  by destruct (normalizeObject v).
Qed.

Lemma appendTag_disabled (m : gmap string jsval) tag : appendTag false m tag = m.
Proof. done. Qed.

Lemma appendTag_enabled_pipeline (m : gmap string jsval) tag :
  isArray (prop (appendTag true m tag) "pipeline") = true.
Proof. unfold appendTag. cbn [negb]. by rewrite prop_insert_eq. Qed.
End CoreFacts.

(** C4, as the code has it.  With tagging disabled [appendTag] returns the
    meta untouched and never creates [pipeline].  [createMeta] does create
    [pipeline], as the empty array.  [safeWrite] keeps a [meta.pipeline] that
    is an array as it is and sets any other to the empty array, leaving the
    rest of meta and all of data alone; so a record read through
    [normalizeObject], tagged and written comes out exactly as it was read. *)
Theorem C4_tagging_disabled :
  (forall (m : gmap string jsval) tag, Core.appendTag false m tag = m) /\
  (forall now tag,
     Core.createMeta false now tag =
     <["timestamp" := JNum (Fin now)]> (<["pipeline" := JArr []]> ∅)) /\
  (forall r : record,
     Stream.safeWrite r =
     Rec (if isArray (prop (meta r) "pipeline") then meta r
          else <["pipeline" := JArr []]> (meta r))
         (data r)) /\
  (forall (v : jsval) tag,
     let r := Core.normalizeObject v in
     Stream.safeWrite (Rec (Core.appendTag false (meta r) tag) (data r)) = r).
Proof.
  split; [done|]. split; [done|]. split; [apply safeWrite_spec|].
  intros v tag r. rewrite appendTag_disabled.
  replace (Rec (meta r) (data r)) with r by (by destruct r).
  apply safeWrite_normalized.
Qed.

(** C4 as stated fails: with tagging disabled [createMeta] returns a meta
    whose [pipeline] is the empty array, and writing a record that has no
    [meta.pipeline] emits one whose [meta.pipeline] is the empty array. *)
Lemma C4_counterexample :
  Core.createMeta false 0 "src" !! "pipeline" = Some (JArr []) /\
  meta (Rec ∅ ∅) !! "pipeline" = None /\
  meta (Stream.safeWrite (Rec ∅ ∅)) !! "pipeline" = Some (JArr []).
Proof. repeat split. Qed.

(** ** Channel policies *)

(** C5, as the code has it: the effective [exitOnClose] is the built-in
    default, replaced by the legacy alias [!linger] when [linger] is a
    boolean, replaced by the module's [exitOnClose] option when that is a
    boolean, replaced by the global [--exit-on-close] entry of the channel
    when there is one. *)
Theorem C5_exitOnClose_resolution_order
    (exitOverrides retryOverrides : gmap string bool)
    (d : Stream.direction) (t : Stream.target) (o : Stream.options) :
  let c := Stream.inferChannelId t (Stream.optChannelId o) d in
  Stream.exitOnClose
    (Stream.resolveChannelPolicies exitOverrides retryOverrides d t o) =
  resolve_in_order (Stream.defaultExitOnClose d c)
    [lingerAlias o;
     as_boolean (Stream.optExitOnClose o);
     Stream.overrideFor exitOverrides c].
Proof.
  intros c. unfold Stream.resolveChannelPolicies, resolve_in_order,
    lingerAlias. cbn [Stream.exitOnClose fold_left]. fold c.
  destruct (Stream.overrideFor exitOverrides c); cbn; [done|].
  destruct (Stream.optExitOnClose o); cbn; try done;
    destruct (Stream.optLinger o); done.
Qed.

(** C5 as stated fails: a write to stdout with both [exitOnClose: true] and
    [linger: true] and no global override resolves to [exitOnClose = true],
    where the order of the claim (option first, alias after it) gives
    [!linger = false]. *)
Lemma C5_counterexample :
  let o := Stream.Options JUndef (JBool true) JUndef (JBool true) in
  let c := Stream.inferChannelId Stream.TUndefined (Stream.optChannelId o)
             Stream.Write in
  Stream.exitOnClose
    (Stream.resolveChannelPolicies ∅ ∅ Stream.Write Stream.TUndefined o) = true /\
  resolve_in_order (Stream.defaultExitOnClose Stream.Write c)
    [as_boolean (Stream.optExitOnClose o);
     lingerAlias o;
     Stream.overrideFor ∅ c] = false.
Proof. split; reflexivity. Qed.

(** ** Parameters and positionals *)

Section ConfigFacts.
Import Config.

(** When the parsed arguments carry no form of the parameter, the value is
    the environment variable when it is set and the default otherwise. *)
Lemma resolveParam_without_cli (parsedArgs : gmap string jsval)
    (env : gmap string string) (p : paramSpec) (s : cliStatus) :
  parsedArgs !! longname p = None ->
  is_true (prop parsedArgs ("no-" +:+ longname p)) = false ->
  fst (resolveParam parsedArgs env p s) =
  match envname p with
  | Some (String c e) =>
      match env !! String c e with
      | Some v => JStr v
      | None => default_ p
      end
  | _ => default_ p
  end.
Proof.
  intros Hcli Hneg. unfold resolveParam. rewrite Hcli, Hneg.
  destruct (negb (expectsValue p) && generateNegative p);
    cbn [andb negb]; cbv zeta beta iota;
    destruct (envname p) as [[|c e]|]; cbn;
    try destruct (env !! String c e); cbn;
    destruct (required p), (default_ p); reflexivity.
Qed.

(** A boolean flag that the parsed arguments hold as [false] resolves to
    [false], whatever the environment and the default. *)
Lemma resolveParam_preset_false (parsedArgs : gmap string jsval)
    (env : gmap string string) (p : paramSpec) (s : cliStatus) :
  parsedArgs !! longname p = Some (JBool false) ->
  fst (resolveParam parsedArgs env p s) = JBool false.
Proof.
  intros Hcli. unfold resolveParam. rewrite Hcli.
  destruct (negb (expectsValue p) && generateNegative p);
    [destruct (is_true _)|]; cbn;
    destruct (expectsValue p), (required p); reflexivity.
Qed.

Lemma insert_false_keeps (acc : gmap string jsval) (key k : string) :
  acc !! key = Some (JBool false) ->
  <[k := JBool false]> acc !! key = Some (JBool false).
Proof.
  intros Hacc. destruct (decide (k = key)) as [->|Hne].
  - by rewrite lookup_insert_eq.
  - by rewrite lookup_insert_ne.
Qed.

Lemma preset_aliases_keeps (aliases : list (string * string)) (key key' : string) :
  forall acc : gmap string jsval,
    acc !! key = Some (JBool false) ->
    fold_left
      (fun acc '(k, a) =>
         if String.eqb k key' then <[a := JBool false]> acc
         else if String.eqb a key' then <[k := JBool false]> acc
         else acc)
      aliases acc !! key = Some (JBool false).
Proof.
  induction aliases as [|[k a] aliases IH]; intros acc Hacc; cbn [fold_left];
    [done|].
  apply IH. destruct (String.eqb k key'); [by apply insert_false_keeps|].
  destruct (String.eqb a key'); [by apply insert_false_keeps | done].
Qed.

(** Every key listed under [boolean] is preset to [false] in what minimist
    returns for an empty argument list. *)
Lemma minimist_presets_booleans (o : minimistOptions) (key : string) :
  key ∈ boolean o -> key ≠ "--" ->
  minimist_no_arguments o !! key = Some (JBool false).
Proof.
  intros Hin Hne. unfold minimist_no_arguments.
  rewrite lookup_insert_ne by done.
  generalize (<["_" := JArr []]> (∅ : gmap string jsval)).
  induction (boolean o) as [|b bs IH]; intros acc; [by apply elem_of_nil in Hin|].
  cbn [fold_left]. apply elem_of_cons in Hin as [<-|Hin]; [|by apply IH].
  assert (Hkeep : forall (l : list string) (acc : gmap string jsval),
             acc !! key = Some (JBool false) ->
             fold_left
               (fun acc key' =>
                  let acc := <[key' := JBool false]> acc in
                  fold_left
                    (fun acc '(k, a) =>
                       if String.eqb k key' then <[a := JBool false]> acc
                       else if String.eqb a key' then <[k := JBool false]> acc
                       else acc)
                    (alias o) acc)
               l acc !! key = Some (JBool false)).
  { clear. induction l as [|b l IHl]; intros acc Hacc; cbn [fold_left]; [done|].
    apply IHl. cbv zeta. by apply preset_aliases_keeps, insert_false_keeps. }
  apply Hkeep. cbv zeta. apply preset_aliases_keeps. by rewrite lookup_insert_eq.
Qed.

Lemma buildOptions_boolean (registry : list paramSpec) (p : paramSpec) :
  p ∈ registry -> expectsValue p = false ->
  longname p ∈ boolean (buildOptions registry).
Proof.
  intros Hin Hflag. unfold buildOptions.
  generalize (MinimistOptions ["help"] [] [("help", "h")]).
  assert (Hkeep : forall (l : list paramSpec) (o : minimistOptions),
             longname p ∈ boolean o ->
             longname p ∈ boolean
               (fold_left
                  (fun o q =>
                     let o :=
                       if expectsValue q
                       then MinimistOptions (boolean o) (string_ o ++ [longname q]) (alias o)
                       else
                         let b := boolean o ++ [longname q] in
                         let b := if generateNegative q
                                  then b ++ ["no-" +:+ longname q] else b in
                         MinimistOptions b (string_ o) (alias o) in
                     match shortname q with
                     | Some (String c sh) =>
                         MinimistOptions (boolean o) (string_ o)
                           (alias o ++ [(longname q, String c sh)])
                     | _ => o
                     end)
                  l o)).
  { clear. induction l as [|q l IHl]; intros o Ho; cbn [fold_left]; [done|].
    apply IHl. cbv zeta.
    destruct (expectsValue q), (generateNegative q), (shortname q) as [[|c sh]|];
      cbn [boolean]; set_solver. }
  induction registry as [|q registry IH]; intros o; [by apply elem_of_nil in Hin|].
  cbn [fold_left]. apply elem_of_cons in Hin as [<-|Hin]; [|by apply IH].
  apply Hkeep. cbv zeta. rewrite Hflag.
  destruct (generateNegative p), (shortname p) as [[|c sh]|]; cbn [boolean];
    set_solver.
Qed.

(** So with an empty command line every registered boolean flag resolves to
    [false], whatever its environment variable and its default. *)
Lemma boolean_flag_without_arguments (registry : list paramSpec) (p : paramSpec)
    (env : gmap string string) (s : cliStatus) :
  p ∈ registry -> expectsValue p = false -> longname p ≠ "--" ->
  fst (resolveParam (minimist_no_arguments (buildOptions registry)) env p s) =
  JBool false.
Proof.
  intros Hin Hflag Hne. apply resolveParam_preset_false.
  apply minimist_presets_booleans; [by apply buildOptions_boolean | done].
Qed.


End ConfigFacts.

(** C2 at the input where it fails: with [--do-tag] registered (environment
    variable TMCP_DO_TAG, default [true]) and an empty command line, minimist
    has preset the boolean key to [false], step 3.1 takes that for a value
    given on the command line, and [cli.get("param.do-tag")] is [false],
    whatever the environment holds; neither TMCP_DO_TAG nor the default is
    consulted. *)
Theorem C2_do_tag_without_arguments (env : gmap string string) :
  let registry := [doTagSpec] in
  let parsedArgs := Config.minimist_no_arguments (Config.buildOptions registry) in
  parsedArgs !! "do-tag" = Some (JBool false) /\
  Config.getParam
    (Config.parseCLIOnce parsedArgs env registry None Config.initialState)
    "do-tag" = JBool false.
Proof.
  intros registry parsedArgs.
  assert (Hpre : parsedArgs !! "do-tag" = Some (JBool false)) by reflexivity.
  split; [done|].
  pose proof (resolveParam_preset_false parsedArgs env doTagSpec
                (Config.CliStatus false false false) Hpre) as Hres.
  unfold Config.getParam, Config.parseCLIOnce, Config.resolveParams, registry.
  cbn [Config.initialState Config.status Config.isDirty negb fold_left
       Config.base Config.params Config.isError Config.showHelp].
  destruct (Config.resolveParam parsedArgs env doTagSpec _) as [value s'].
  cbn in Hres. subst value.
  destruct (Config.applyPositionalsSchema _ _ _) as [named s''].
  cbn. by rewrite prop_insert_eq.
Qed.

(** A value-expecting parameter does follow CLI > ENV > default: with
    [--interval-ms] absent from the command line, the value is
    TMCP_INTERVAL_MS when set and [undefined] (no default) otherwise. *)
Lemma interval_ms_without_arguments (env : gmap string string) :
  let registry := [intervalMsSpec] in
  let parsedArgs := Config.minimist_no_arguments (Config.buildOptions registry) in
  fst (Config.resolveParam parsedArgs env intervalMsSpec
         (Config.CliStatus false false false)) =
  match env !! "TMCP_INTERVAL_MS" with
  | Some v => JStr v
  | None => JUndef
  end.
Proof.
  intros registry parsedArgs.
  by rewrite resolveParam_without_cli by reflexivity.
Qed.




(** ** Minimum rate *)

Section MinRateFacts.
Context `{Conversions}.
Import MinRate.

(** With a numeric interval, as [--rate] gives, the clone advances the
    logical timestamp by exactly the interval and carries it. *)
Lemma emitClone_numeric_interval (i t : number)
    (lastMsg : record) (wall nowTs nowWall : Q) :
  isFinite (JNum t) = true ->
  let st := State (Some lastMsg) (JNum t) wall in
  let '(st', out) := emitClone (JNum i) st nowTs nowWall in
  lastLogicalTs st' = JNum (num_add t i) /\
  map (fun r => prop (meta r) "timestamp") out = [JNum (num_add t i)].
Proof.
  intros Hfin st. unfold emitClone. cbn [lastMessage st lastLogicalTs].
  rewrite Hfin. cbn [js_add ToPrimitive ToNumber lastLogicalTs map].
  split; [done|]. rewrite safeWrite_spec. cbn [meta]. f_equal.
  destruct (isArray _); [|rewrite prop_insert_ne by done];
    apply prop_insert_eq.
Qed.

(** With a string interval, as [--interval-ms] gives, [+=] concatenates:
    the clone carries a string, never a Number. *)
Lemma emitClone_string_interval (s : string) (t : number)
    (lastMsg : record) (wall nowTs nowWall : Q) :
  isFinite (JNum t) = true ->
  let st := State (Some lastMsg) (JNum t) wall in
  let '(st', out) := emitClone (JStr s) st nowTs nowWall in
  lastLogicalTs st' = JStr (NumberToString t +:+ s) /\
  map (fun r => prop (meta r) "timestamp") out = [JStr (NumberToString t +:+ s)].
Proof.
  intros Hfin st. unfold emitClone. cbn [lastMessage st lastLogicalTs].
  rewrite Hfin. cbn [js_add ToPrimitive ToString lastLogicalTs map].
  split; [done|]. rewrite safeWrite_spec. cbn [meta]. f_equal.
  destruct (isArray _); [|rewrite prop_insert_ne by done];
    apply prop_insert_eq.
Qed.
End MinRateFacts.

(** C1 at the input where it fails.  [--interval-ms 100] on the command
    line (a string option for minimist) and [TMCP_INTERVAL_MS=100] in the
    environment both resolve to the string ["100"], which
    [resolveIntervalMs] passes on unchanged.  On
    the scenario of the specification (a real record with timestamp 1000, then
    350 ms of silence) the module emits the real record and three clones; the
    clones carry the strings ["1000100"], ["200100"] and ["300100"] (the
    concatenation of the previous logical timestamp, or of [Date.now()] once
    that is no longer a finite Number, with ["100"]) where the claim says
    1100, 1200 and 1300. *)
Theorem C1_interval_ms_clones_concatenate `{Conversions} (tagEnabled : bool) :
  let registry := [intervalMsSpec] in
  let noArguments := Config.minimist_no_arguments (Config.buildOptions registry) in
  let fresh := Config.CliStatus false false false in
  fst (Config.resolveParam (<["interval-ms" := JStr "100"]> noArguments) ∅
         intervalMsSpec fresh) = JStr "100" /\
  fst (Config.resolveParam noArguments (<["TMCP_INTERVAL_MS" := "100"]> ∅)
         intervalMsSpec fresh) = JStr "100" /\
  MinRate.resolveIntervalMs (JStr "100") JUndef = Some (JStr "100") /\
  map (fun r => prop (meta r) "timestamp")
      (snd (MinRate.run tagEnabled (JStr "100") MinRate.initial minrateEvents)) =
  [JNum (Fin 1000); JStr "1000100"; JStr "200100"; JStr "300100"].
Proof.
  repeat split; try reflexivity.
  destruct tagEnabled; vm_compute; reflexivity.
Qed.

(** The same scenario with a numeric interval of 100, as [--rate 10] gives:
    the clones carry 1100, 1200 and 1300. *)
Lemma rate_clones_advance `{Conversions} (tagEnabled : bool) :
  MinRate.resolveIntervalMs JUndef (JStr "10") = Some (JNum (Fin (1000 / 10))) /\
  map (fun r => prop (meta r) "timestamp")
      (snd (MinRate.run tagEnabled (JNum (Fin 100)) MinRate.initial minrateEvents)) =
  [JNum (Fin 1000); JNum (Fin (1000 + 100)); JNum (Fin (1000 + 100 + 100));
   JNum (Fin (1000 + 100 + 100 + 100))].
Proof. split; [reflexivity|]. destruct tagEnabled; vm_compute; reflexivity. Qed.

(** ** Merge: the primary stream *)

Section MergeMainFacts.
Context `{Conversions}.
Variable tagEnabled : bool.
Variable MATCH_TOLERANCE_MS MAX_BUFFER_MS : number.
Variable postfixes : list jsval.
Variable allowUnbounded : list bool.
Import Merge.

(** A primary record that arrives on an empty main buffer with
    [(meta.timestamp ?? 0) < Date.now() - MAX_BUFFER_MS] is shifted out by
    the trimming loop of [pushMain] right after it was pushed, and
    [tryEmit] returns on the empty buffer without writing. *)
Lemma onMain_stale_dropped (st : state) (o : record) (now : Q) :
  mainBuffer st = [] ->
  js_lt (tsOr0 o) (JNum (num_sub (Fin now) MAX_BUFFER_MS)) = true ->
  snd (onMain tagEnabled MATCH_TOLERANCE_MS MAX_BUFFER_MS postfixes
         allowUnbounded st o now) = [].
Proof.
  intros Hempty Hstale. unfold onMain, pushMain, tryEmit.
  rewrite Hempty. cbn [app trim snd mainBuffer]. by rewrite Hstale.
Qed.

(** When the record stays in the buffer it is the one emitted, and a
    non-numeric timestamp takes the pass-through path. *)
Lemma onMain_passthrough (st : state) (o : record) (now : Q) :
  last (mainBuffer (pushMain MAX_BUFFER_MS st o now)) = Some o ->
  typeof (timestamp o) ≠ "number" ->
  snd (onMain tagEnabled MATCH_TOLERANCE_MS MAX_BUFFER_MS postfixes
         allowUnbounded st o now) =
  [Stream.safeWrite (Rec (Core.appendTag tagEnabled (meta o) MODULE_TAG) (data o))].
Proof.
  intros Hlast Hts. unfold onMain, tryEmit. cbn [snd]. rewrite Hlast.
  unfold emitPassthrough. by destruct (timestamp o).
Qed.
End MergeMainFacts.

(** C3 at the inputs where it fails, with [maxBufferMs = 2000] and
    [Date.now() = 1700000000000], on a merge that has just started with one
    side channel: a primary record without [meta.timestamp] produces no
    output at all (not even the pass-through of the degenerate case), and so
    does a primary record with the numeric timestamp 1000. *)
Theorem C3_stale_primary_record_not_emitted `{Conversions}
    (tagEnabled : bool) (tolerance : number) (postfixes : list jsval)
    (allowUnbounded : list bool) :
  let now := 1700000000000%Q in
  let absent := Rec (<["pipeline" := JArr []]> ∅) (<["x" := JNum (Fin 1)]> ∅) in
  let old := Rec (<["timestamp" := JNum (Fin 1000)]> (<["pipeline" := JArr []]> ∅))
                 (<["x" := JNum (Fin 1)]> ∅) in
  Merge.timestamp absent = JUndef /\
  snd (Merge.onMain tagEnabled tolerance (Fin 2000) postfixes allowUnbounded
         (mergeInitial 1) absent now) = [] /\
  snd (Merge.onMain tagEnabled tolerance (Fin 2000) postfixes allowUnbounded
         (mergeInitial 1) old now) = [].
Proof.
  intros now absent old. split; [reflexivity|].
  split; apply onMain_stale_dropped; reflexivity.
Qed.


(** ** Reducer: what is forwarded *)

Section ReduceFacts.
Variable tagEnabled : bool.
Variable rules : list (string * jsval).
Variable passes : nat.
Variable missingMode : string.
Variable forwardPolicy : string.
Variable computeOutput : string -> jsval -> gmap string jsval -> string -> jsval.
Import Reduce.

#[local] Abbreviation sweep := (sweep missingMode computeOutput).
#[local] Abbreviation sweeps := (sweeps rules missingMode computeOutput).
#[local] Abbreviation forward := (forward rules forwardPolicy).
#[local] Abbreviation onRecord :=
  (onRecord tagEnabled rules passes missingMode forwardPolicy computeOutput).

Lemma buildFieldProps_temp (rs : list (string * jsval)) (k : string) :
  forall fp : gmap string props,
    match fold_left
            (fun fp '(name, rule) =>
               let p := default (Props false false) (fp !! name) in
               let p := if ruleFlag rule "temp" then Props true (retain p) else p in
               let p := if ruleFlag rule "retain" then Props (temp p) true else p in
               <[name := p]> fp)
            rs fp !! k with
    | Some p => temp p
    | None => false
    end =
    match fp !! k with
    | Some p => temp p
    | None => false
    end || markedTemp rs k.
Proof.
  induction rs as [|[name rule] rs IH]; intros fp; cbn [fold_left markedTemp existsb].
  - by rewrite orb_false_r.
  - rewrite IH. fold (markedTemp rs k). rewrite orb_assoc. f_equal.
    destruct (String.eqb_spec name k) as [->|Hne].
    + rewrite lookup_insert_eq. cbn [andb].
      destruct (fp !! k) as [[t r]|]; cbn;
        destruct (ruleFlag rule "temp"), (ruleFlag rule "retain"); cbn;
        by rewrite ?orb_true_r, ?orb_false_r.
    + rewrite lookup_insert_ne by done. cbn [andb]. by rewrite orb_false_r.
Qed.

Lemma kept_spec (k : string) :
  kept rules k = negb (includes "__" k) && negb (markedTemp rules k).
Proof.
  unfold kept, fieldProps, buildFieldProps. f_equal. f_equal.
  rewrite buildFieldProps_temp. by rewrite lookup_empty.
Qed.

Lemma known_spec (k : string) : known rules k = true <-> k ∈ map fst rules.
Proof.
  unfold known. rewrite existsb_exists. split.
  - intros [x [Hin Heq]]. apply String.eqb_eq in Heq as ->.
    by apply list_elem_of_In.
  - intros Hin. exists k. split; [by apply list_elem_of_In | apply String.eqb_refl].
Qed.

(** The entries the forwarding filter lets through. *)
Lemma forward_lookup (workingData : gmap string jsval) (k : string) (v : jsval) :
  forward workingData !! k = Some v <->
  workingData !! k = Some v /\
  includes "__" k = false /\
  markedTemp rules k = false /\
  (forwardPolicy = "known" -> k ∈ map fst rules).
Proof using rules forwardPolicy.
  clear. unfold Reduce.forward.
  destruct (String.eqb_spec forwardPolicy "known") as [Hk|Hk].
  - rewrite !map_lookup_filter_Some. cbn [fst]. rewrite kept_spec, known_spec.
    rewrite andb_true_iff, !negb_true_iff. tauto.
  - rewrite map_lookup_filter_Some. cbn [fst]. rewrite kept_spec.
    rewrite andb_true_iff, !negb_true_iff. tauto.
Qed.




(** What the handler emits: nothing when a sweep dropped the record, and
    otherwise one record whose data is the forwarded part of the final
    working map. *)
Lemma onRecord_emits (st : state) (o : record) (now : Q) :
  snd (onRecord st o now) =
  match fst (sweeps passes (seedWorkingData st o now) (retained st)) with
  | None => []
  | Some wd =>
      [Stream.safeWrite (Rec (Core.appendTag tagEnabled (meta o) tag) (forward wd))]
  end.
Proof.
  unfold Reduce.onRecord. cbv zeta.
  by destruct (sweeps passes _ _) as [[wd|] ret].
Qed.
End ReduceFacts.




(** ** Dedup *)

Section DedupFacts.
Variable tagEnabled : bool.
Variable IGNORE_FIELDS : list string.
Variable NUM_TOL : Q.
Import Dedup.

Lemma existsb_false {A} (f : A -> bool) (l : list A) :
  existsb f l = false <-> forall x, x ∈ l -> f x = false.
Proof.
  induction l as [|a l IH]; cbn.
  - split; [intros _ x Hx; by apply elem_of_nil in Hx | done].
  - rewrite orb_false_iff, IH. split.
    + intros [Ha Hl] x Hx. apply elem_of_cons in Hx as [->|Hx]; auto.
    + intros Hall. split; [apply Hall; left | intros x Hx; apply Hall; by right].
Qed.

Lemma keys_elem_of (m : gmap string jsval) (k : string) :
  k ∈ map fst (map_to_list m) <-> is_Some (m !! k).
Proof.
  rewrite list_elem_of_fmap. split.
  - intros [[k' v] [-> Hin]]. apply elem_of_map_to_list in Hin. by exists v.
  - intros [v Hv]. exists (k, v). split; [done|]. by apply elem_of_map_to_list.
Qed.

Lemma hasOwn_spec (m : gmap string jsval) (k : string) :
  hasOwn m k = true <-> is_Some (m !! k).
Proof. unfold hasOwn. by rewrite bool_decide_eq_true. Qed.

Lemma has_own (m : gmap string jsval) (k : string) :
  is_Some (m !! k) -> has m k = true.
Proof. intros Hin. unfold has. apply hasOwn_spec in Hin. by rewrite Hin. Qed.

(** Apart from the inherited names, [in] tests the own properties. *)
Lemma has_spec (m : gmap string jsval) (k : string) :
  inherited k = false -> has m k = true <-> is_Some (m !! k).
Proof. intros Hk. unfold has. by rewrite Hk, orb_false_r, hasOwn_spec. Qed.

Lemma readProp_own (m : gmap string jsval) (k : string) :
  is_Some (m !! k) -> readProp m k = Value (prop m k).
Proof. intros [v Hv]. unfold readProp, prop. by rewrite Hv. Qed.

Lemma readProp_not_inherited (m : gmap string jsval) (k : string) :
  inherited k = false -> readProp m k = Value (prop m k).
Proof. intros Hk. unfold readProp, prop. destruct (m !! k); [done|]. by rewrite Hk. Qed.

Lemma primitive_own_props (v : jsval) :
  primitive (Value v) = true <-> own_props v = None.
Proof. by destruct v. Qed.

Lemma keysOf_own_props (v : jsval) (pc : gmap string jsval) :
  own_props v = Some pc -> keysOf (Value v) = pc.
Proof. unfold keysOf. by intros ->. Qed.

(** An own property is a member. *)
Lemma member_own (v : jsval) (pp : gmap string jsval) (sub : string) (w : jsval) :
  own_props v = Some pp -> pp !! sub = Some w -> member (Value v) sub = Some w.
Proof.
  destruct v as [| | | | |l|m]; try discriminate; cbn; intros [= <-] Hw.
  - by rewrite Hw.
  - exact Hw.
Qed.

(** A member is an own property, or the length of an array. *)
Lemma member_inv (v : jsval) (pp : gmap string jsval) (sub : string) (w : jsval) :
  own_props v = Some pp -> member (Value v) sub = Some w ->
  pp !! sub = Some w \/ sub = "length".
Proof.
  destruct v as [| | | | |l|m]; try discriminate; cbn; intros [= <-] Hw.
  - destruct (index_props l !! sub); [by left|].
    destruct (String.eqb_spec sub "length"); [by right|discriminate].
  - by left.
Qed.

(** A field whose two values are tolerance-equal shows no change. *)
Lemma fieldChanged_toleranceEqual (curr last : gmap string jsval) (k : string) :
  readProp curr k = Value (prop curr k) ->
  is_Some (last !! k) ->
  toleranceEqual NUM_TOL (prop curr k) (prop last k) = true ->
  fieldChanged NUM_TOL curr last k = false.
Proof.
  intros Hread Hin Heq. unfold fieldChanged. cbv zeta.
  rewrite (has_own _ _ Hin), Hread, (readProp_own _ _ Hin). cbn [negb].
  unfold toleranceEqual in Heq.
  destruct (own_props (prop curr k)) as [pc|] eqn:Hc.
  - destruct (own_props (prop last k)) as [pp|] eqn:Hp.
    + assert (primitive (Value (prop curr k)) = false) as ->
        by (apply not_true_iff_false; rewrite primitive_own_props; congruence).
      assert (primitive (Value (prop last k)) = false) as ->
        by (apply not_true_iff_false; rewrite primitive_own_props; congruence).
      cbn [orb]. rewrite (keysOf_own_props _ _ Hc), (keysOf_own_props _ _ Hp).
      apply andb_prop in Heq as [Hdom Hall].
      apply bool_decide_eq_true in Hdom.
      assert (size pc = size pp) as -> by (by rewrite <- !size_dom, Hdom).
      rewrite Nat.eqb_refl. cbn [negb].
      apply existsb_false. intros sub Hsub.
      apply keys_elem_of in Hsub.
      assert (sub ∈ dom pp) as Hpp by (rewrite <- Hdom; by apply elem_of_dom).
      apply elem_of_dom in Hpp as [w Hw].
      rewrite (member_own _ _ _ _ Hp Hw).
      rewrite forallb_forall in Hall. specialize (Hall sub).
      unfold prop at 2 in Hall. rewrite Hw in Hall.
      cbn [default from_option id] in Hall.
      rewrite Hall; [done|].
      apply list_elem_of_In, elem_of_elements. by apply elem_of_dom.
    + assert (primitive (Value (prop last k)) = true) as ->
        by (by apply primitive_own_props).
      by rewrite orb_true_r, Heq.
  - assert (primitive (Value (prop curr k)) = true) as ->
      by (by apply primitive_own_props).
    cbn [orb]. by rewrite Heq.
Qed.

(** No change is seen when every compared field of the current data is a
    field of the remembered data with a tolerance-equal value. *)
Lemma hasMeaningfulChange_false (last curr : gmap string jsval) :
  (forall k, is_Some (curr !! k) -> includes IGNORE_FIELDS k = false ->
             is_Some (last !! k) /\
             toleranceEqual NUM_TOL (prop curr k) (prop last k) = true) ->
  hasMeaningfulChange IGNORE_FIELDS None NUM_TOL (State (Some last) true) curr = false.
Proof.
  intros Hall. unfold hasMeaningfulChange, computeComparisonFields.
  cbn [haveLast lastData negb].
  assert (Hfields : forall k,
             k ∈ List.filter (fun k => negb (includes IGNORE_FIELDS k))
                             (map fst (map_to_list curr)) ->
             is_Some (last !! k) /\
             toleranceEqual NUM_TOL (prop curr k) (prop last k) = true).
  { intros k Hk. apply list_elem_of_In, filter_In in Hk as [Hin Hign].
    apply list_elem_of_In, keys_elem_of in Hin.
    apply negb_true_iff in Hign. by apply Hall. }
  assert (existsb (fun k => negb (has last k))
            (List.filter (fun k => negb (includes IGNORE_FIELDS k))
                         (map fst (map_to_list curr))) = false) as ->.
  { apply existsb_false. intros k Hk. apply Hfields in Hk as [Hin _].
    by rewrite (has_own _ _ Hin). }
  apply existsb_false. intros k Hk.
  assert (Hown : is_Some (curr !! k)).
  { apply list_elem_of_In, filter_In in Hk as [Hk _].
    by apply list_elem_of_In, keys_elem_of in Hk. }
  apply Hfields in Hk as [Hin Heq].
  apply fieldChanged_toleranceEqual; [by apply readProp_own|done|done].
Qed.
End DedupFacts.

(** C10.  With no [check_fields], a record is dropped (nothing is written
    and the state is unchanged) as soon as the keys of its data are among
    the keys of the remembered data and every key that is not ignored has a
    tolerance-equal value there; keys of the remembered data that the record
    lacks play no part.  And whatever the configuration, a handler call that
    writes nothing leaves the state as it was, while one that writes
    remembers the data of the record it wrote. *)
Theorem C10_dedup_drops_on_key_subset
    (tagEnabled : bool) (IGNORE_FIELDS : list string) (NUM_TOL : Q) :
  (forall (last : gmap string jsval) (o : record),
     dom (data o) ⊆ dom last ->
     (forall k v, data o !! k = Some v ->
                  Dedup.includes IGNORE_FIELDS k = false ->
                  toleranceEqual NUM_TOL v (prop last k) = true) ->
     Dedup.onRecord tagEnabled IGNORE_FIELDS None NUM_TOL
       (Dedup.State (Some last) true) o =
     (Dedup.State (Some last) true, [])) /\
  (forall (CHECK_FIELDS : option (list string)) (st : Dedup.state) (o : record),
     let '(st', out) :=
       Dedup.onRecord tagEnabled IGNORE_FIELDS CHECK_FIELDS NUM_TOL st o in
     (out = [] /\ st' = st) \/
     (length out = 1%nat /\ st' = Dedup.State (Some (data o)) true)).
Proof.
  split.
  - intros last o Hsub Heq. unfold Dedup.onRecord.
    rewrite hasMeaningfulChange_false; [done|].
    intros k [v Hv] Hign. split.
    + apply elem_of_dom, Hsub, elem_of_dom. by exists v.
    + unfold prop at 1. rewrite Hv. by apply Heq.
  - intros CHECK_FIELDS st o. unfold Dedup.onRecord.
    destruct (Dedup.hasMeaningfulChange _ _ _ _ _); cbn [negb]; [right|left]; done.
Qed.

(** After [{a:1, b:2}] was emitted, the record [{a:1}] is dropped. *)
Lemma C10_dedup_drops_on_key_subset_witness :
  let last : gmap string jsval :=
    <["a" := JNum (Fin 1)]> (<["b" := JNum (Fin 2)]> ∅) in
  let o := Rec (<["pipeline" := JArr []]> ∅) (<["a" := JNum (Fin 1)]> ∅) in
  Dedup.onRecord true [] None 0 (Dedup.State (Some last) true) o =
  (Dedup.State (Some last) true, []).
Proof.
  intros last o.
  apply (proj1 (C10_dedup_drops_on_key_subset true [] 0) last o).
  - cbn [data o last]. rewrite !dom_insert_L. set_solver.
  - intros k v Hv _. cbn [data o] in Hv.
    apply lookup_insert_Some in Hv as [[<- <-]|[_ Hv]]; [reflexivity|].
    by rewrite lookup_empty in Hv.
Defined.

(** ** Logical delay *)

Section DelaySearch.
Import Delay.

Lemma shiftr_half (lo hi : nat) :
  lo < hi -> lo <= Nat.shiftr (lo + hi) 1 < hi.
Proof.
  intros Hlt. rewrite Nat.shiftr_div_pow2. change (2 ^ 1)%nat with 2%nat.
  split.
  - apply Nat.div_le_lower_bound; lia.
  - apply Nat.Div0.div_lt_upper_bound; lia.
Qed.

(** On a queue made of items at or below [x] followed by items above [x],
    the loop of [insertSorted] ends on the boundary between the two. *)
Lemma search_boundary (x : number) (l1 l2 : list item) :
  Forall (fun e => num_leb (outTs e) x = true) l1 ->
  Forall (fun e => num_leb (outTs e) x = false) l2 ->
  forall fuel lo hi,
    hi - lo <= fuel ->
    lo <= length l1 <= hi ->
    hi <= length (l1 ++ l2) ->
    search fuel (l1 ++ l2) x lo hi = length l1.
Proof.
  intros Hl1 Hl2.
  induction fuel as [|fuel IH]; intros lo hi Hfuel Hlo Hhi; cbn [search].
  - lia.
  - destruct (Nat.ltb_spec lo hi) as [Hlt|Hge]; [|lia].
    pose proof (shiftr_half lo hi Hlt) as Hmid.
    set (mid := Nat.shiftr (lo + hi) 1) in *.
    destruct (lookup_lt_is_Some_2 (l1 ++ l2) mid ltac:(lia)) as [e He].
    rewrite He.
    destruct (num_leb (outTs e) x) eqn:Hle.
    + assert (mid < length l1).
      { destruct (Nat.lt_ge_cases mid (length l1)) as [|Hge]; [done|].
        rewrite lookup_app_r in He by done.
        rewrite Forall_forall in Hl2.
        assert (e ∈ l2) as Hin by (apply list_elem_of_lookup; eauto).
        apply Hl2 in Hin. congruence. }
      apply IH; lia.
    + assert (length l1 <= mid).
      { destruct (Nat.lt_ge_cases mid (length l1)) as [Hlt'|]; [|done].
        rewrite lookup_app_l in He by done.
        rewrite Forall_forall in Hl1.
        assert (e ∈ l1) as Hin by (apply list_elem_of_lookup; eauto).
        apply Hl1 in Hin. congruence. }
      apply IH; lia.
Qed.

Lemma insertSorted_boundary (it : item) (l1 l2 : list item) :
  Forall (fun e => num_leb (outTs e) (outTs it) = true) l1 ->
  Forall (fun e => num_leb (outTs e) (outTs it) = false) l2 ->
  insertSorted it (l1 ++ l2) = l1 ++ it :: l2.
Proof.
  intros Hl1 Hl2. unfold insertSorted.
  rewrite (search_boundary (outTs it) l1 l2 Hl1 Hl2); [|lia| |done].
  - by rewrite take_app_length, drop_app_length.
  - rewrite length_app. lia.
Qed.

Lemma num_leb_finite_trans (a b c : number) :
  num_leb a b = true -> num_leb b c = true -> num_leb a c = true.
Proof.
  destruct a as [x| |[]], b as [y| |[]], c as [z| |[]]; cbn; try done.
  rewrite !Qle_bool_iff. apply Qle_trans.
Qed.

Lemma num_leb_finite_total (a b : number) :
  isFinite (JNum a) = true -> isFinite (JNum b) = true ->
  num_leb a b = false -> num_leb b a = true.
Proof.
  destruct a as [x| |[]], b as [y| |[]]; cbn; try done.
  intros _ _ Hnle. apply Qle_bool_iff.
  apply not_true_iff_false in Hnle. rewrite Qle_bool_iff in Hnle.
  apply Qlt_le_weak. by apply Qnot_le_lt.
Qed.

(** An ordered queue splits at any [x] into the items at or below it and the
    items above it. *)
Lemma ordered_split (x : number) (q : list item) :
  ordered q ->
  exists l1 l2,
    q = l1 ++ l2 /\
    Forall (fun e => num_leb (outTs e) x = true) l1 /\
    Forall (fun e => num_leb (outTs e) x = false) l2.
Proof.
  induction q as [|a q IH]; intros Hord.
  - exists [], []. by repeat split.
  - apply StronglySorted_cons in Hord as [Ha Hq].
    destruct (num_leb (outTs a) x) eqn:Hle.
    + destruct (IH Hq) as (l1 & l2 & -> & H1 & H2).
      exists (a :: l1), l2. repeat split; [by constructor | done].
    + exists [], (a :: q). repeat split; [done|].
      constructor; [done|].
      rewrite Forall_forall in Ha |- *. intros e He.
      apply not_true_iff_false. intros Hex.
      apply not_true_iff_false in Hle. apply Hle.
      eapply num_leb_finite_trans; [|exact Hex]. by apply Ha.
Qed.

(** Inserting into an ordered queue of finite items keeps it ordered, keeps
    its items, and puts the new item after every item at or below it. *)
Lemma insertSorted_ordered (it : item) (q : list item) :
  ordered q -> Forall finiteItem q -> finiteItem it ->
  ordered (insertSorted it q) /\
  Forall finiteItem (insertSorted it q) /\
  Permutation (it :: q) (insertSorted it q).
Proof.
  intros Hord Hfin Hit.
  destruct (ordered_split (outTs it) q Hord) as (l1 & l2 & -> & H1 & H2).
  rewrite insertSorted_boundary by done.
  apply StronglySorted_app in Hord as (Hcross & Ho1 & Ho2).
  apply Forall_app in Hfin as [Hf1 Hf2].
  split; [|split].
  - apply StronglySorted_app_2; [|done|].
    + intros x1 x2 Hx1 Hx2. apply elem_of_cons in Hx2 as [->|Hx2]; [|by apply Hcross].
      rewrite Forall_forall in H1. by apply H1.
    + apply StronglySorted_cons. split; [|done].
      rewrite Forall_forall in H2, Hf2 |- *. intros e He.
      apply num_leb_finite_total; [by apply Hf2 | done | by apply H2].
  - apply Forall_app. split; [done | by constructor].
  - by rewrite Permutation_middle.
Qed.

End DelaySearch.

Section DelayFacts.
Variable tagEnabled : bool.
Variable d : Q.
Import Delay.

#[local] Abbreviation emitItem := (emitItem tagEnabled).
#[local] Abbreviation onRecord := (onRecord tagEnabled (Fin d)).
#[local] Abbreviation onEof := (onEof tagEnabled).
#[local] Abbreviation step := (step tagEnabled (Fin d)).
#[local] Abbreviation run := (run tagEnabled (Fin d)).



(** [flushReady] shifts a prefix of the queue: every item of the prefix is
    covered by the watermark, and the item left at the head is not. *)
Lemma takeReady_spec (w : number) (q : list item) :
  let '(ready, rest) := takeReady w q in
  q = ready ++ rest /\
  Forall (fun it => num_leb (outTs it) w = true) ready /\
  match rest with
  | [] => True
  | it :: _ => num_leb (outTs it) w = false
  end.
Proof.
  induction q as [|it q IH]; cbn; [done|].
  destruct (num_leb (outTs it) w) eqn:Hle; [|done].
  destruct (takeReady w q) as [ready rest].
  destruct IH as (-> & Hready & Hrest). by repeat split; [constructor|].
Qed.


Lemma tsInOf_finite (o : record) (now : Q) :
  isFinite (JNum (tsInOf o now)) = true.
Proof. unfold tsInOf. by destruct (prop (meta o) "timestamp") as [| | |[]| | |]. Qed.

Lemma outTs_finite (o : record) (now : Q) :
  isFinite (JNum (num_add (tsInOf o now) (Fin d))) = true.
Proof. unfold tsInOf. by destruct (prop (meta o) "timestamp") as [| | |[]| | |]. Qed.

(** One input: the record is queued under [tsIn + D], the watermark becomes
    the maximum of itself and [tsIn], and the items written are a prefix of
    the ordered queue, each covered by the watermark. *)
Lemma onRecord_spec (st : state) (o : record) (now : Q) :
  wellFormed st ->
  let tsIn := tsInOf o now in
  let '(st', out) := onRecord st o now in
  exists ready,
    out = map emitItem ready /\
    Permutation (Item (num_add tsIn (Fin d)) o :: queue st) (ready ++ queue st') /\
    ordered (ready ++ queue st') /\
    wellFormed st' /\
    watermarkTs st' = (if num_ltb (watermarkTs st) tsIn then tsIn
                       else watermarkTs st) /\
    Forall (fun it => num_leb (outTs it) (watermarkTs st') = true) ready /\
    inputClosed st' = inputClosed st /\ exited st' = exited st.
Proof.
  intros [Hord Hfin] tsIn. unfold Delay.onRecord, flushReady. fold tsIn.
  cbn [queue watermarkTs inputClosed exited].
  set (it := Item (num_add tsIn (Fin d)) o).
  set (w := if num_ltb (watermarkTs st) tsIn then tsIn else watermarkTs st).
  destruct (insertSorted_ordered it (queue st) Hord Hfin (outTs_finite o now))
    as (Hord' & Hfin' & Hperm).
  pose proof (takeReady_spec w (insertSorted it (queue st))) as Htake.
  destruct (takeReady w (insertSorted it (queue st))) as [ready rest].
  destruct Htake as (Heq & Hready & _).
  exists ready. cbn [queue watermarkTs inputClosed exited].
  rewrite <- Heq. repeat split; try done.
  - rewrite Heq in Hord'. by apply StronglySorted_app_1_r in Hord'.
  - rewrite Heq in Hfin'. by apply Forall_app in Hfin' as [_ ?].
Qed.

(** End of input: the whole queue is written in its order, and the process
    exits. *)
Lemma onEof_spec (st : state) :
  onEof st = (State [] true (watermarkTs st) true, map emitItem (queue st)).
Proof. done. Qed.


(** Every state reached from the initial one has an ordered queue of finite
    items. *)
Lemma step_wellFormed (st : state) (e : event) :
  wellFormed st -> wellFormed (fst (step st e)).
Proof.
  intros Hwf. unfold Delay.step. destruct (exited st); [done|].
  destruct e as [o now|].
  - pose proof (onRecord_spec st o now Hwf) as Hspec. cbv zeta in Hspec.
    destruct (onRecord st o now) as [st' out].
    by destruct Hspec as (ready & _ & _ & _ & Hwf' & _).
  - rewrite onEof_spec. split; constructor.
Qed.

Lemma run_wellFormed (es : list event) :
  forall st, wellFormed st -> wellFormed (fst (run st es)).
Proof.
  induction es as [|e es IH]; intros st Hwf; cbn [Delay.run]; [done|].
  pose proof (step_wellFormed st e Hwf) as Hstep.
  destruct (step st e) as [st1 out1]. specialize (IH st1 Hstep).
  by destruct (run st1 es).
Qed.


End DelayFacts.




(** ** Doubles *)

(** Equal rationals round to the same double. *)
Lemma round64_Qeq (x y : Q) : (x == y)%Q -> round64 x = round64 y.
Proof. intros Heq. unfold round64. by rewrite (Qred_complete x y Heq). Qed.

(** [round64] on a few rationals: one tenth; [2^53 + 1], a tie that goes to
    the even neighbour [2^53]; the largest double, which stays, and the first
    rational that rounds to infinity; half the smallest subnormal [2^-1074],
    a tie that goes to zero, and three halves of it, a tie that goes to
    [2^-1073]. *)
Example round64_values :
  round64 (1 # 10) = Fin (3602879701896397 # 36028797018963968) /\
  round64 (inject_Z (2 ^ 53 + 1)) = Fin (inject_Z (2 ^ 53)) /\
  round64 (inject_Z (2 ^ 1024 - 2 ^ 971)) = Fin (inject_Z (2 ^ 1024 - 2 ^ 971)) /\
  round64 (inject_Z (2 ^ 1024 - 2 ^ 970)) = Inf false /\
  round64 (1 # 2 ^ 1075) = Fin 0 /\
  round64 (3 # 2 ^ 1075) = Fin (1 # 2 ^ 1073).
Proof. repeat split; vm_compute; reflexivity. Qed.

(** The sum of the doubles nearest to 0.1 and 0.2 is not the double nearest
    to 0.3. *)
Example fl_add_rounds :
  fl_add (round64 (1 # 10)) (round64 (2 # 10)) <> round64 (3 # 10).
Proof. vm_compute. discriminate. Qed.

(** ** Merge: bounded matching *)

Section StringFacts.
Lemma string_length_app (s1 s2 : string) :
  String.length (s1 +:+ s2) = String.length s1 + String.length s2.
Proof.
  induction s1 as [|c s1 IH]; [done|].
  change (S (String.length (s1 +:+ s2)) = S (String.length s1 + String.length s2)).
  by rewrite IH.
Qed.

(** A postfix can be cancelled: distinct keys stay distinct under it. *)
Lemma append_postfix_inj (p k1 k2 : string) : k1 +:+ p = k2 +:+ p -> k1 = k2.
Proof.
  revert k2. induction k1 as [|c k1 IH]; intros [|c' k2] Heq.
  - done.
  - apply (f_equal String.length) in Heq.
    rewrite !string_length_app in Heq. cbn in Heq. lia.
  - apply (f_equal String.length) in Heq.
    rewrite !string_length_app in Heq. cbn in Heq. lia.
  - cbn in Heq. injection Heq as -> Heq. f_equal. by apply IH.
Qed.
End StringFacts.

Section MergeBoundedFacts.
Context `{Conversions}.
Variable tagEnabled : bool.
Variable MATCH_TOLERANCE_MS MAX_BUFFER_MS : number.
Variable postfixes : list jsval.
Variable allowUnbounded : list bool.
Import Merge.

#[local] Abbreviation findClosest := (findClosest MATCH_TOLERANCE_MS).
#[local] Abbreviation interpolateBounded := (interpolateBounded MATCH_TOLERANCE_MS).
#[local] Abbreviation interpolateSide :=
  (interpolateSide MATCH_TOLERANCE_MS allowUnbounded).
#[local] Abbreviation postfixOf := (postfixOf postfixes).
#[local] Abbreviation mergeSides :=
  (mergeSides MATCH_TOLERANCE_MS postfixes allowUnbounded).
#[local] Abbreviation tryEmit :=
  (tryEmit tagEnabled MATCH_TOLERANCE_MS postfixes allowUnbounded).

Lemma num_ltb_irrefl (a : number) : num_ltb a a = false.
Proof.
  destruct a as [q| |[]]; cbn; try done.
  unfold Qlt_bool. apply negb_false_iff, Qle_bool_iff, Qle_refl.
Qed.

(** Past the first nearest record the scan keeps it. *)
Lemma closer_keeps (ts : number) (best : record) (post : list record) :
  (forall r, r ∈ post -> num_ltb (diff ts r) (diff ts best) = false) ->
  fold_left (closer ts) post (best, diff ts best) = (best, diff ts best).
Proof.
  induction post as [|r post IH]; intros Hpost; cbn [fold_left]; [done|].
  unfold closer at 2. cbn [snd]. rewrite (Hpost r) by left.
  apply IH. intros r' Hr'. apply Hpost. by right.
Qed.

(** Before it, the scan holds a record that is strictly farther. *)
Lemma closer_before (ts : number) (best : record) (pre : list record) :
  forall a,
    num_ltb (diff ts best) (diff ts a) = true ->
    (forall r, r ∈ pre -> num_ltb (diff ts best) (diff ts r) = true) ->
    exists a',
      fold_left (closer ts) pre (a, diff ts a) = (a', diff ts a') /\
      num_ltb (diff ts best) (diff ts a') = true.
Proof.
  induction pre as [|r pre IH]; intros a Ha Hpre; cbn [fold_left].
  - by exists a.
  - unfold closer at 2. cbn [snd].
    destruct (num_ltb (diff ts r) (diff ts a)).
    + apply IH; [apply Hpre; left | intros r' Hr'; apply Hpre; by right].
    + apply IH; [done | intros r' Hr'; apply Hpre; by right].
Qed.

(** The scan of [findClosest] ends on the first record at minimal distance. *)
Lemma closest_scan (ts : number) (pre post : list record) (best b0 : record) :
  head (pre ++ best :: post) = Some b0 ->
  (forall r, r ∈ pre -> num_ltb (diff ts best) (diff ts r) = true) ->
  (forall r, r ∈ post -> num_ltb (diff ts r) (diff ts best) = false) ->
  fold_left (closer ts) (pre ++ best :: post) (b0, diff ts b0) =
  (best, diff ts best).
Proof.
  intros Hhead Hpre Hpost. destruct pre as [|a pre]; cbn in Hhead.
  - injection Hhead as <-. cbn [app fold_left]. unfold closer at 2. cbn [snd].
    rewrite num_ltb_irrefl. by apply closer_keeps.
  - injection Hhead as <-. rewrite fold_left_app.
    destruct (closer_before ts best (a :: pre) a) as (a' & -> & Ha');
      [apply Hpre; left | done |].
    cbn [fold_left]. unfold closer at 2. cbn [snd]. rewrite Ha'.
    by apply closer_keeps.
Qed.

Lemma findClosest_spec (ts : number) (pre post : list record) (best : record) :
  (forall r, r ∈ pre -> num_ltb (diff ts best) (diff ts r) = true) ->
  (forall r, r ∈ post -> num_ltb (diff ts r) (diff ts best) = false) ->
  findClosest (pre ++ best :: post) ts =
  if num_ltb MATCH_TOLERANCE_MS (diff ts best) then None else Some best.
Proof.
  intros Hpre Hpost. unfold Merge.findClosest.
  destruct (pre ++ best :: post) as [|b0 rest] eqn:Hbuf; [by destruct pre|].
  rewrite <- Hbuf, (closest_scan ts pre post best b0); [done| |done|done].
  by rewrite Hbuf.
Qed.

(** [buf.filter(p).at(-1)] is the last record that satisfies [p]. *)
Lemma last_filter (p : record -> bool) (pre post : list record) (b : record) :
  p b = true ->
  (forall r, r ∈ post -> p r = false) ->
  last (List.filter p (pre ++ b :: post)) = Some b.
Proof.
  intros Hb Hpost. rewrite List.filter_app. cbn [List.filter]. rewrite Hb.
  assert (List.filter p post = []) as ->.
  { induction post as [|r post IH]; cbn; [done|].
    rewrite (Hpost r) by left. apply IH. intros r' Hr'. apply Hpost. by right. }
  apply last_snoc.
Qed.

(** [buf.find(p)] is the first record that satisfies [p]. *)
Lemma find_first (p : record -> bool) (pre post : list record) (a : record) :
  p a = true ->
  (forall r, r ∈ pre -> p r = false) ->
  List.find p (pre ++ a :: post) = Some a.
Proof.
  intros Ha Hpre. induction pre as [|r pre IH]; cbn.
  - by rewrite Ha.
  - rewrite (Hpre r) by left. apply IH. intros r' Hr'. apply Hpre. by right.
Qed.
End MergeBoundedFacts.

Section MergeSideFacts.
Context `{Conversions}.
Variable tagEnabled : bool.
Variable MATCH_TOLERANCE_MS MAX_BUFFER_MS : number.
Variable postfixes : list jsval.
Variable allowUnbounded : list bool.
Import Merge.

#[local] Abbreviation interpolateBounded := (interpolateBounded MATCH_TOLERANCE_MS).
#[local] Abbreviation interpolateSide :=
  (interpolateSide MATCH_TOLERANCE_MS allowUnbounded).
#[local] Abbreviation postfixOf := (postfixOf postfixes).
#[local] Abbreviation mergeSides :=
  (mergeSides MATCH_TOLERANCE_MS postfixes allowUnbounded).
#[local] Abbreviation tryEmit :=
  (tryEmit tagEnabled MATCH_TOLERANCE_MS postfixes allowUnbounded).

(** [a <= b] excludes [b < a]. *)
Lemma num_leb_not_gt (a b : number) : num_leb a b = true -> num_ltb b a = false.
Proof.
  destruct a as [x| |[]], b as [y| |[]]; cbn; try done.
  unfold Qlt_bool. by intros ->.
Qed.

Lemma interpolateBounded_nearest (ts : number) (pre post : list record)
    (best : record) :
  (forall r, r ∈ pre -> num_ltb (diff ts best) (diff ts r) = true) ->
  (forall r, r ∈ post -> num_ltb (diff ts r) (diff ts best) = false) ->
  num_ltb MATCH_TOLERANCE_MS (diff ts best) = false ->
  interpolateBounded (pre ++ best :: post) ts = Some best.
Proof.
  intros Hpre Hpost Htol. unfold Merge.interpolateBounded.
  by rewrite (findClosest_spec _ ts pre post best Hpre Hpost), Htol.
Qed.

Lemma interpolateBounded_between (t t1 t2 : Q) (buf pre post pre1 post1 pre2 post2 : list record)
    (best before after : record) :
  buf = pre ++ best :: post ->
  (forall r, r ∈ pre -> num_ltb (diff (Fin t) best) (diff (Fin t) r) = true) ->
  (forall r, r ∈ post -> num_ltb (diff (Fin t) r) (diff (Fin t) best) = false) ->
  num_ltb MATCH_TOLERANCE_MS (diff (Fin t) best) = true ->
  buf = pre1 ++ before :: post1 ->
  js_le (tsOr0 before) (JNum (Fin t)) = true ->
  (forall r, r ∈ post1 -> js_le (tsOr0 r) (JNum (Fin t)) = false) ->
  buf = pre2 ++ after :: post2 ->
  js_gt (tsOr0 after) (JNum (Fin t)) = true ->
  (forall r, r ∈ pre2 -> js_gt (tsOr0 r) (JNum (Fin t)) = false) ->
  timestamp before = JNum (Fin t1) ->
  timestamp after = JNum (Fin t2) ->
  (t1 <= t /\ t < t2)%Q /\
  interpolateBounded buf (Fin t) =
  Some (Rec (<["timestamp" := JNum (Fin t)]> (meta before))
            (map_imap
               (fun k v1 =>
                  Some (interpolateValue
                          (fl_div (fl_sub (Fin t) (Fin t1))
                                  (fl_sub (Fin t2) (Fin t1)))
                          v1 (prop (data after) k)))
               (data before))).
Proof.
  intros Hbest Hpre Hpost Htol Hbefore Hle Hpost1 Hafter Hgt Hpre2 Ht1 Ht2.
  assert (Hord : (t1 <= t /\ t < t2)%Q).
  { unfold tsOr0 in Hle, Hgt. rewrite Ht1 in Hle. rewrite Ht2 in Hgt.
    cbn in Hle, Hgt. apply Qle_bool_iff in Hle.
    unfold Qlt_bool in Hgt. apply negb_true_iff, not_true_iff_false in Hgt.
    rewrite Qle_bool_iff in Hgt. split; [done | by apply Qnot_le_lt]. }
  split; [done|]. destruct Hord as [Hlo Hhi].
  unfold Merge.interpolateBounded.
  rewrite Hbest at 1.
  rewrite (findClosest_spec _ (Fin t) pre post best Hpre Hpost), Htol.
  rewrite Hbefore at 1. rewrite (last_filter _ pre1 post1 before Hle Hpost1).
  rewrite Hafter. rewrite (find_first _ pre2 post2 after Hgt Hpre2).
  rewrite Ht1, Ht2. cbn [js_le ToPrimitive ToNumber num_leb].
  assert (Qle_bool t2 t1 = false) as ->.
  { apply not_true_iff_false. rewrite Qle_bool_iff. lra. }
  reflexivity.
Qed.

(** An assignment leaves the other keys alone, and under a key other than
    [__proto__] it sets the property. *)
Lemma assign_lookup_ne (k k' : string) (v : jsval) (o : gmap string jsval) :
  k ≠ k' -> assign k v o !! k' = o !! k'.
Proof.
  intros Hne. unfold assign.
  destruct (String.eqb k "__proto__" && negb (hasOwn o k)); [reflexivity|].
  by apply lookup_insert_ne.
Qed.

Lemma assign_lookup_eq (k : string) (v : jsval) (o : gmap string jsval) :
  k ≠ "__proto__" -> assign k v o !! k = Some v.
Proof.
  intros Hne. unfold assign. apply String.eqb_neq in Hne. rewrite Hne.
  apply lookup_insert_eq.
Qed.

(** The keys that [mergeSide] writes and the keys it leaves alone. *)
Lemma mergeSide_lookup (acc recData : gmap string jsval) (postfix : string) :
  (forall k v, recData !! k = Some v -> k +:+ postfix ≠ "__proto__" ->
               mergeSide acc recData postfix !! (k +:+ postfix) = Some v) /\
  (forall key, (forall k, is_Some (recData !! k) -> k +:+ postfix ≠ key) ->
               mergeSide acc recData postfix !! key = acc !! key).
Proof.
  unfold mergeSide.
  apply (map_fold_weak_ind
           (fun r (m : gmap string jsval) =>
              (forall k v, m !! k = Some v -> k +:+ postfix ≠ "__proto__" ->
                           r !! (k +:+ postfix) = Some v) /\
              (forall key, (forall k, is_Some (m !! k) -> k +:+ postfix ≠ key) ->
                           r !! key = acc !! key))).
  - split; [intros k v Hk; by rewrite lookup_empty in Hk | done].
  - intros i x m r Hi [IH1 IH2]. split.
    + intros k v Hk Hproto. apply lookup_insert_Some in Hk as [[<- <-]|[Hne Hk]].
      * by apply assign_lookup_eq.
      * rewrite assign_lookup_ne; [by apply IH1|].
        intros Heq. by apply append_postfix_inj in Heq.
    + intros key Hkey. rewrite assign_lookup_ne.
      * apply IH2. intros k [v Hk]. apply Hkey.
        destruct (decide (i = k)) as [->|Hne]; [congruence|].
        rewrite lookup_insert_ne by done. by exists v.
      * apply Hkey. rewrite lookup_insert_eq. by eexists.
Qed.

(** Sides that do not write a key leave it as it was. *)
Lemma mergeSides_untouched (st : state) (ts : number) (key : string) (js : list nat) :
  forall acc,
    (forall j rec k', j ∈ js -> interpolateSide st j ts = Some rec ->
                      is_Some (data rec !! k') -> k' +:+ postfixOf j ≠ key) ->
    fold_left
      (fun acc i =>
         match interpolateSide st i ts with
         | None => acc
         | Some rec => mergeSide acc (data rec) (postfixOf i)
         end) js acc !! key = acc !! key.
Proof.
  induction js as [|j js IH]; intros acc Hjs; cbn [fold_left]; [done|].
  rewrite IH by (intros j' rec k' Hj'; apply Hjs; by right).
  destruct (interpolateSide st j ts) as [rec|] eqn:Hrec; [|done].
  apply mergeSide_lookup. intros k' Hk'. by eapply Hjs; [left|..].
Qed.

(** What side [i] contributes is in the merged data under the postfixed key,
    unless that key is [__proto__] or a later side writes that very key. *)
Lemma mergeSides_lookup (st : state) (ts : number) (i : nat) (rec : record)
    (k : string) (v : jsval) (acc : gmap string jsval) :
  i < length (sideBuffers st) ->
  interpolateSide st i ts = Some rec ->
  data rec !! k = Some v ->
  k +:+ postfixOf i ≠ "__proto__" ->
  notOverwritten MATCH_TOLERANCE_MS postfixes allowUnbounded st ts i k ->
  mergeSides st ts acc !! (k +:+ postfixOf i) = Some v.
Proof.
  intros Hi Hrec Hk Hproto Hlater. unfold Merge.mergeSides.
  replace (length (sideBuffers st)) with (i + S (length (sideBuffers st) - S i))
    by lia.
  rewrite seq_app, fold_left_app. cbn [seq fold_left Nat.add].
  rewrite mergeSides_untouched.
  - rewrite Hrec. by apply mergeSide_lookup.
  - intros j rec' k' Hj Hrec' Hk'. apply (Hlater j rec' k'); [|done|done].
    apply list_elem_of_In, in_seq in Hj. lia.
Qed.

(** [tryEmit] on a numeric main timestamp writes one record with that
    timestamp, whose data is the merge of the sides into the main data. *)
Lemma tryEmit_numeric (st : state) (mainObj : record) (ts : number) :
  last (mainBuffer st) = Some mainObj ->
  timestamp mainObj = JNum ts ->
  exists out,
    tryEmit st = [out] /\
    timestampOf out = JNum ts /\
    data out = mergeSides st ts (data mainObj).
Proof.
  intros Hlast Hts. unfold Merge.tryEmit. rewrite Hlast, Hts.
  eexists. split; [done|]. rewrite safeWrite_spec. cbn [data meta].
  split; [|done]. unfold timestampOf, Core.appendTag. cbn [meta].
  destruct tagEnabled; cbn [negb];
    destruct (isArray _); rewrite ?(prop_insert_ne _ "pipeline") by done;
    apply prop_insert_eq.
Qed.
End MergeSideFacts.

(** C6, as the code has it.  Side [i] is in bounded mode with buffer [buf],
    and the main record has the finite timestamp [t]; [tryEmit] then writes
    one record [out], stamped [t].  [best] is the first record of [buf] at
    minimal distance [|t - ts|].
    - If that distance is at most [matchToleranceMs], side [i] selects
      [best] itself, and every field [k] of its data is in the data of [out]
      under [k + postfix], unchanged.
    - Otherwise, with [before] the last record of [buf] with [ts <= t] and
      [after] the first with [ts > t], of timestamps [t1] and [t2] (then
      [t1 <= t < t2]), side [i] selects a record stamped [t] in which every
      key [k] that is a Number in both has the value of
      [before.data[k] + (after.data[k] - before.data[k]) * ((t - t1)/(t2 - t1))]
      in double arithmetic, each operation rounding its result, and the data
      of [out] has that value under [k + postfix].
    The data of [out] is read under the proviso that the postfixed key is
    not [__proto__], under which an assignment creates no property, and that
    no later side writes the same postfixed key.  [out] is the record handed
    to [safeWrite]; on the NDJSON line each key of its data carries what
    [JSON.stringify] makes of the value, [null] for a Number that is not
    finite. *)
Theorem C6_bounded_merge `{Conversions}
    (tagEnabled : bool) (tolerance : number) (postfixes : list jsval)
    (allowUnbounded : list bool)
    (st : Merge.state) (i : nat) (buf : list record) (mainObj : record) (t : Q)
    (pre post : list record) (best : record) :
  last (Merge.mainBuffer st) = Some mainObj ->
  Merge.timestamp mainObj = JNum (Fin t) ->
  default false (allowUnbounded !! i) = false ->
  Merge.sideBuffers st !! i = Some buf ->
  buf = pre ++ best :: post ->
  (forall r, r ∈ pre ->
     num_ltb (Merge.diff (Fin t) best) (Merge.diff (Fin t) r) = true) ->
  (forall r, r ∈ post ->
     num_ltb (Merge.diff (Fin t) r) (Merge.diff (Fin t) best) = false) ->
  exists out,
    Merge.tryEmit tagEnabled tolerance postfixes allowUnbounded st = [out] /\
    timestampOf out = JNum (Fin t) /\
    (num_leb (Merge.diff (Fin t) best) tolerance = true ->
     Merge.interpolateSide tolerance allowUnbounded st i (Fin t) = Some best /\
     forall k v,
       data best !! k = Some v ->
       k +:+ Merge.postfixOf postfixes i ≠ "__proto__" ->
       notOverwritten tolerance postfixes allowUnbounded st (Fin t) i k ->
       data out !! (k +:+ Merge.postfixOf postfixes i) = Some v) /\
    (num_ltb tolerance (Merge.diff (Fin t) best) = true ->
     forall (pre1 post1 pre2 post2 : list record) (before after : record)
            (t1 t2 : Q),
       buf = pre1 ++ before :: post1 ->
       js_le (Merge.tsOr0 before) (JNum (Fin t)) = true ->
       (forall r, r ∈ post1 -> js_le (Merge.tsOr0 r) (JNum (Fin t)) = false) ->
       buf = pre2 ++ after :: post2 ->
       js_gt (Merge.tsOr0 after) (JNum (Fin t)) = true ->
       (forall r, r ∈ pre2 -> js_gt (Merge.tsOr0 r) (JNum (Fin t)) = false) ->
       Merge.timestamp before = JNum (Fin t1) ->
       Merge.timestamp after = JNum (Fin t2) ->
       (t1 <= t /\ t < t2)%Q /\
       exists rec,
         Merge.interpolateSide tolerance allowUnbounded st i (Fin t) = Some rec /\
         Merge.timestamp rec = JNum (Fin t) /\
         forall k n1 n2,
           data before !! k = Some (JNum n1) ->
           data after !! k = Some (JNum n2) ->
           data rec !! k = Some (JNum (lerp n1 n2 (Fin t) (Fin t1) (Fin t2))) /\
           (k +:+ Merge.postfixOf postfixes i ≠ "__proto__" ->
            notOverwritten tolerance postfixes allowUnbounded st (Fin t) i k ->
            data out !! (k +:+ Merge.postfixOf postfixes i) =
            Some (JNum (lerp n1 n2 (Fin t) (Fin t1) (Fin t2))))) /\
    (forall key v,
       data out !! key = Some v ->
       data (Stream.ndjsonLine out) !! key = Stream.stringifyProp v).
Proof.
  intros Hlast Hts Hbounded Hbuf Hsplit Hpre Hpost.
  destruct (tryEmit_numeric tagEnabled tolerance postfixes allowUnbounded
              st mainObj (Fin t) Hlast Hts) as (out & Hout & Hstamp & Hdata).
  assert (Hi : i < length (Merge.sideBuffers st))
    by (apply lookup_lt_is_Some; by eexists).
  assert (Hside : Merge.interpolateSide tolerance allowUnbounded st i (Fin t) =
                  Merge.interpolateBounded tolerance buf (Fin t)).
  { unfold Merge.interpolateSide. by rewrite Hbounded, Hbuf. }
  exists out. split; [done|]. split; [done|].
  split; [|split];
    [| |intros key v Hv; unfold Stream.ndjsonLine; cbn [data];
        by rewrite lookup_omap, Hv].
  - intros Htol. apply num_leb_not_gt in Htol.
    assert (Hsel : Merge.interpolateSide tolerance allowUnbounded st i (Fin t) =
                   Some best).
    { rewrite Hside, Hsplit. by apply interpolateBounded_nearest. }
    split; [done|]. intros k v Hk Hproto Hlater. rewrite Hdata.
    by eapply mergeSides_lookup.
  - intros Htol pre1 post1 pre2 post2 before after t1 t2
           Hbefore Hle Hpost1 Hafter Hgt Hpre2 Ht1 Ht2.
    destruct (interpolateBounded_between tolerance t t1 t2 buf pre post
                pre1 post1 pre2 post2 best before after
                Hsplit Hpre Hpost Htol Hbefore Hle Hpost1 Hafter Hgt Hpre2 Ht1 Ht2)
      as [Hord Hsel].
    split; [done|]. eexists. split; [by rewrite Hside, Hsel|].
    split; [unfold Merge.timestamp; cbn [meta]; apply prop_insert_eq|].
    intros k n1 n2 Hk1 Hk2.
    assert (Hval : map_imap
                     (fun k v1 =>
                        Some (Merge.interpolateValue
                                (fl_div (fl_sub (Fin t) (Fin t1))
                                        (fl_sub (Fin t2) (Fin t1)))
                                v1 (prop (data after) k)))
                     (data before) !! k =
                   Some (JNum (lerp n1 n2 (Fin t) (Fin t1) (Fin t2)))).
    { rewrite map_lookup_imap, Hk1. cbn. unfold prop. by rewrite Hk2. }
    split; [done|]. intros Hproto Hlater. rewrite Hdata.
    eapply mergeSides_lookup; [done | by rewrite Hside, Hsel | done | done | done].
Qed.

(** The nearest side record is 20 ms away, beyond the tolerance, so [y] is
    interpolated between 980 and 1020 and emitted as [y_1]. *)
Lemma C6_bounded_merge_witness :
  exists out,
    Merge.tryEmit (H := exampleConversions) true (Fin 10) [] [false] mergeScenario =
    [out] /\
    timestampOf out = JNum (Fin 1000) /\
    data out !! "y_1" = Some (JNum (Fin 15)).
Proof.
  destruct (C6_bounded_merge (H := exampleConversions) true (Fin 10) [] [false]
              mergeScenario 0 [sideRecord 980 10; sideRecord 1020 20]
              (Rec (<["timestamp" := JNum (Fin 1000)]> (<["pipeline" := JArr []]> ∅))
                   (<["x" := JNum (Fin 1)]> ∅))
              1000 [] [sideRecord 1020 20] (sideRecord 980 10))
    as (out & Hout & Hstamp & _ & Hbetween & _).
  - reflexivity.
  - reflexivity.
  - reflexivity.
  - reflexivity.
  - reflexivity.
  - intros r Hr. by apply elem_of_nil in Hr.
  - intros r Hr. apply list_elem_of_singleton in Hr as ->. reflexivity.
  - exists out. split; [exact Hout|]. split; [exact Hstamp|].
    destruct (Hbetween eq_refl [] [sideRecord 1020 20] [sideRecord 980 10] []
                (sideRecord 980 10) (sideRecord 1020 20) 980%Q 1020%Q)
      as (_ & rec & _ & _ & Hvalue).
    + reflexivity.
    + reflexivity.
    + intros r Hr. apply list_elem_of_singleton in Hr as ->. reflexivity.
    + reflexivity.
    + reflexivity.
    + intros r Hr. apply list_elem_of_singleton in Hr as ->. reflexivity.
    + reflexivity.
    + reflexivity.
    + destruct (Hvalue "y" (Fin 10) (Fin 20) eq_refl eq_refl) as [_ Hemit].
      apply Hemit; [discriminate|]. intros j rec' k' Hj. cbn in Hj. lia.
Defined.

(** C6 as stated fails, in two ways.
    - With the postfix ["_s"] given to two sides, the first side meets the
      conditions of the claim (its nearest record is 20 ms away, beyond the
      tolerance of 10, and [y] is interpolated to 15 between 980 and 1020),
      but the record written has [y_s = 99], the value of the second side.
    - Between [{y:0}] at 0 and [{y:1}] at 3, the main timestamp 1 gives the
      double nearest to one third, which is not the rational
      [0 + (1 - 0) * ((1 - 0) / (3 - 0))]. *)
Lemma C6_counterexample :
  (Merge.findClosest (H := exampleConversions) (Fin 10)
     [sideRecord 980 10; sideRecord 1020 20] (Fin 1000) = None /\
   (data <$> Merge.interpolateSide (H := exampleConversions) (Fin 10)
               [false; false] mergeClash 0 (Fin 1000)) =
   Some (<["y" := JNum (Fin 15)]> ∅) /\
   Qeq_bool 15 (lerpExact 10 20 1000 980 1020) = true /\
   Merge.postfixOf (H := exampleConversions) [JStr "_s"; JStr "_s"] 0 = "_s" /\
   map (fun out => data out !! "y_s")
       (Merge.tryEmit (H := exampleConversions) true (Fin 10)
          [JStr "_s"; JStr "_s"] [false; false] mergeClash) =
   [Some (JNum (Fin 99))] /\
   Qeq_bool 99 (lerpExact 10 20 1000 980 1020) = false) /\
  (exists x,
     map (fun out => data out !! "y_1")
         (Merge.tryEmit (H := exampleConversions) true (Fin (1 # 2)) [] [false]
            mergeThirds) =
     [Some (JNum (Fin x))] /\
     Qeq_bool x (lerpExact 0 1 1 0 3) = false).
Proof.
  split.
  - repeat split; vm_compute; reflexivity.
  - eexists. split; vm_compute; reflexivity.
Qed.

(** ** Two scenarios of the specification, run on the model *)

(** Scenario 3 (dedup with [ignore_fields: ["t"]]): of the inputs
    [{t:1,a:1}], [{t:2,a:1}], [{t:3,a:2}] the first and the third are
    written, the second is dropped. *)
Example dedup_scenario :
  let input (t a : Q) :=
    Rec (<["pipeline" := JArr []]> ∅)
        (<["t" := JNum (Fin t)]> (<["a" := JNum (Fin a)]> ∅)) in
  let step st o := Dedup.onRecord true ["t"] None 0 st o in
  let '(st1, out1) := step Dedup.initial (input 1%Q 1%Q) in
  let '(st2, out2) := step st1 (input 2%Q 1%Q) in
  let '(st3, out3) := step st2 (input 3%Q 2%Q) in
  map data out1 = [data (input 1%Q 1%Q)] /\
  out2 = [] /\
  map data out3 = [data (input 3%Q 2%Q)].
Proof. vm_compute. repeat split. Qed.

(** Scenario 5 (unbounded merge): the side record [{z:42}] received once at
    timestamp 5 is merged into a main record that arrives at timestamp
    1000000. *)
Example unbounded_merge_scenario `{Conversions} :
  let side := Rec (<["timestamp" := JNum (Fin 5)]> (<["pipeline" := JArr []]> ∅))
                  (<["z" := JNum (Fin 42)]> ∅) in
  let main := Rec (<["timestamp" := JNum (Fin 1000000)]> (<["pipeline" := JArr []]> ∅))
                  (<["x" := JNum (Fin 1)]> ∅) in
  let st := Merge.pushSide (Fin 2000) [true] (mergeInitial 1) 0 side 1000000 in
  map data
      (snd (Merge.onMain true (Fin 100) (Fin 2000) [] [true] st main 1000000)) =
  [<["x" := JNum (Fin 1)]> (<["z_1" := JNum (Fin 42)]> ∅)] /\
  map timestampOf
      (snd (Merge.onMain true (Fin 100) (Fin 2000) [] [true] st main 1000000)) =
  [JNum (Fin 1000000)].
Proof. vm_compute. split; reflexivity. Qed.

(* ========================================================================= *)
(** * Further properties of the code *)
(* ========================================================================= *)

(** ** Record core and channel policies, continued *)

(** X1.  [normalizeObject] returns a record whose [meta.pipeline] is an
    array, it is idempotent (normalizing the object literal of its result gives
    the result back), and a value that is not of type "object" (or is [null])
    comes out as [{ meta: { pipeline: [] }, data: { value } }]. *)
Theorem normalizeObject_canonical (v : jsval) :
  let r := Core.normalizeObject v in
  isArray (prop (meta r) "pipeline") = true /\
  Core.normalizeObject (to_js r) = r /\
  match own_props v with
  | Some _ => True
  | None => r = Rec (<["pipeline" := JArr []]> ∅) (<["value" := v]> ∅)
  end.
Proof.
  cbv zeta. split; [apply normalizeObject_pipeline|].
  split; [apply (safeWrite_normalized v)|].
  destruct v; try exact I; reflexivity.
Qed.


(** X2.  With tagging enabled, a sequence of [appendTag] calls appends
    the tags at the end of [meta.pipeline], in call order and after the tags
    already there (a [pipeline] that is not an array counts as empty), and
    leaves every other key of [meta] as it is. *)
Theorem appendTag_enabled_appends (m : gmap string jsval) (tags : list string) :
  let pipeline0 := match prop m "pipeline" with
                   | JArr l => l
                   | _ => []
                   end in
  let m' := fold_left (Core.appendTag true) tags m in
  (match tags with
   | [] => m' = m
   | _ :: _ => prop m' "pipeline" = JArr (pipeline0 ++ map JStr tags)
   end) /\
  (forall k, k ≠ "pipeline" -> m' !! k = m !! k).
Proof.
  cbv zeta. revert m. induction tags as [|tag tags IH]; intros m.
  - split; [reflexivity|]. intros; reflexivity.
  - cbn [fold_left map].
    set (m1 := Core.appendTag true m tag).
    assert (H1 : prop m1 "pipeline" =
                 JArr (match prop m "pipeline" with JArr l => l | _ => [] end ++ [JStr tag])).
    { unfold m1, Core.appendTag. cbn [negb]. apply prop_insert_eq. }
    assert (H2 : forall k, k ≠ "pipeline" -> m1 !! k = m !! k).
    { intros k Hk. unfold m1, Core.appendTag. cbn [negb].
      by rewrite lookup_insert_ne. }
    destruct (IH m1) as [IHa IHb]. split.
    + destruct tags as [|tag' tags].
      * rewrite IHa. exact H1.
      * rewrite IHa, H1. by rewrite <- app_assoc.
    + intros k Hk. rewrite IHb by done. by apply H2.
Qed.


(** X3.  The channel id of the resolved policy is the one
    [inferChannelId] gives, and [retry] is resolved in increasing precedence:
    [false], then a boolean [retry] option of the call, then the global
    [--retry] entry of the channel. *)
Theorem retry_resolution_order
    (exitOverrides retryOverrides : gmap string bool)
    (d : Stream.direction) (t : Stream.target) (o : Stream.options) :
  let c := Stream.inferChannelId t (Stream.optChannelId o) d in
  Stream.channelId (Stream.resolveChannelPolicies exitOverrides retryOverrides d t o) = c /\
  Stream.retry (Stream.resolveChannelPolicies exitOverrides retryOverrides d t o) =
  resolve_in_order false
    [as_boolean (Stream.optRetry o); Stream.overrideFor retryOverrides c].
Proof.
  cbv zeta. split; [reflexivity|].
  unfold Stream.resolveChannelPolicies, resolve_in_order. cbn [Stream.retry fold_left].
  destruct (Stream.overrideFor retryOverrides _); cbn [default from_option id];
    [reflexivity|].
  destruct (Stream.optRetry o); reflexivity.
Qed.


(** X4.  When no channel id can be inferred (a path, a stream, or a
    descriptor that is not a standard one, and no [channelId] option), the
    global [--exit-on-close] and [--retry] maps are never consulted: the policy
    is [exitOnClose] from the options ([exitOnClose], else [!linger], else
    [false]) and [retry] from the options (else [false]). *)
Theorem unnamed_channel_ignores_global_overrides
    (exitOverrides retryOverrides : gmap string bool)
    (d : Stream.direction) (t : Stream.target) (o : Stream.options) :
  Stream.inferChannelId t (Stream.optChannelId o) d = None ->
  Stream.resolveChannelPolicies exitOverrides retryOverrides d t o =
  Stream.Policy None
    (match Stream.optExitOnClose o, Stream.optLinger o with
     | JBool b, _ => b
     | _, JBool l => negb l
     | _, _ => false
     end)
    (match Stream.optRetry o with
     | JBool b => b
     | _ => false
     end).
Proof.
  intros Hc. unfold Stream.resolveChannelPolicies. rewrite Hc.
  cbn [Stream.overrideFor].
  assert (Hd : Stream.defaultExitOnClose d None = false) by by destruct d.
  rewrite Hd. reflexivity.
Qed.

(** The statement above on a concrete input. *)
Lemma unnamed_channel_ignores_global_overrides_witness :
  Stream.resolveChannelPolicies
    (<["stdout" := false]> (<["side" := true]> ∅)) (<["side" := true]> ∅)
    Stream.Write (Stream.TPath "side.fifo")
    (Stream.Options JUndef JUndef JUndef (JBool false)) =
  Stream.Policy None true false.
Proof.
  apply (unnamed_channel_ignores_global_overrides
           (<["stdout" := false]> (<["side" := true]> ∅)) (<["side" := true]> ∅)
           Stream.Write (Stream.TPath "side.fifo")
           (Stream.Options JUndef JUndef JUndef (JBool false))).
  reflexivity.
Defined.


(** X5.  Without options and without global settings, a read of a
    stdin-like target gets channel [stdin] with [exitOnClose = true], a write
    to a stdout-like or stderr-like target gets [stdout] or [stderr] with
    [exitOnClose = true], and any other target gets no channel id and
    [exitOnClose = false]; [retry] is [false] in all cases. *)
Theorem default_channel_policies (d : Stream.direction) (t : Stream.target) :
  Stream.resolveChannelPolicies ∅ ∅ d t Stream.noOptions =
  match d with
  | Stream.Read =>
      if Stream.isStdinLike t then Stream.Policy (Some "stdin") true false
      else Stream.Policy None false false
  | Stream.Write =>
      if Stream.isStdoutLike t then Stream.Policy (Some "stdout") true false
      else if Stream.isStderrLike t then Stream.Policy (Some "stderr") true false
      else Stream.Policy None false false
  end.
Proof.
  unfold Stream.resolveChannelPolicies. cbn [Stream.noOptions Stream.optChannelId
    Stream.optExitOnClose Stream.optRetry Stream.optLinger Stream.inferChannelId].
  destruct d.
  - destruct (Stream.isStdinLike t); reflexivity.
  - destruct (Stream.isStdoutLike t); [reflexivity|].
    destruct (Stream.isStderrLike t); reflexivity.
Qed.

(** ** Write errors *)

(** X6.  What an [EPIPE] does.  In the [catch] of [safeWrite]: the
    process is terminated when [exitOnClose] holds and the channel label is
    [stdout] or [stderr]; with [exitOnClose] on any other label the error is
    suppressed for a descriptor with [retry] and rethrown otherwise; without
    [exitOnClose] it is suppressed.  In the ['error'] listener of a stream the
    same holds with "logged" in place of both "suppressed for retry" and
    "rethrown"; that listener never throws, whatever the error code. *)
Theorem broken_pipe_outcome (exitOverrides retryOverrides : gmap string bool)
    (t : Stream.target) (o : Stream.options) :
  let p := StreamErrors.writePolicyOf exitOverrides retryOverrides t o true in
  let standard := String.eqb (StreamErrors.channelLabel p) "stdout"
                  || String.eqb (StreamErrors.channelLabel p) "stderr" in
  StreamErrors.safeWriteCatch exitOverrides retryOverrides t o (JStr "EPIPE") =
  (if StreamErrors.exitOnClose p
   then (if standard then StreamErrors.Terminated
         else if StreamErrors.isFD p && StreamErrors.retry p
              then StreamErrors.Suppressed else StreamErrors.Rethrown)
   else StreamErrors.Suppressed) /\
  StreamErrors.onStreamError exitOverrides retryOverrides t o (JStr "EPIPE") =
  (if StreamErrors.exitOnClose p
   then (if standard then StreamErrors.Terminated else StreamErrors.Logged)
   else StreamErrors.Suppressed) /\
  (forall code,
     StreamErrors.onStreamError exitOverrides retryOverrides t o code
     ≠ StreamErrors.Rethrown).
Proof.
  cbv zeta. unfold StreamErrors.safeWriteCatch, StreamErrors.onStreamError.
  set (p := StreamErrors.writePolicyOf exitOverrides retryOverrides t o true).
  unfold StreamErrors.handleWriteError.
  cbn [StreamErrors.channelLabel StreamErrors.exitOnClose StreamErrors.retry
       StreamErrors.isFD StreamErrors.sync].
  assert (Hsync : StreamErrors.sync p = true) by reflexivity. rewrite Hsync.
  change (StreamErrors.code_is (JStr "EPIPE") "EPIPE") with true.
  change (StreamErrors.code_is (JStr "EPIPE") "ERR_STREAM_DESTROYED") with false.
  cbn [orb andb negb].
  split; [|split].
  - destruct (StreamErrors.exitOnClose p), (String.eqb _ "stdout" || String.eqb _ "stderr"),
      (StreamErrors.isFD p), (StreamErrors.retry p); reflexivity.
  - destruct (StreamErrors.exitOnClose p), (String.eqb _ "stdout" || String.eqb _ "stderr");
      reflexivity.
  - intros code.
    destruct (StreamErrors.exitOnClose p && _ && _); [discriminate|].
    destruct (negb (StreamErrors.exitOnClose p) && _); discriminate.
Qed.


(** X7.  A write error on a target that is neither stdout-like nor
    stderr-like, in a call whose [channelId] option is neither ["stdout"] nor
    ["stderr"], never terminates the process, whatever the error code, the
    options and the global settings. *)
Theorem side_channel_error_never_terminates
    (exitOverrides retryOverrides : gmap string bool)
    (t : Stream.target) (o : Stream.options) (code : jsval) :
  Stream.isStdoutLike t = false ->
  Stream.isStderrLike t = false ->
  Stream.optChannelId o ≠ JStr "stdout" ->
  Stream.optChannelId o ≠ JStr "stderr" ->
  StreamErrors.safeWriteCatch exitOverrides retryOverrides t o code
  ≠ StreamErrors.Terminated /\
  StreamErrors.onStreamError exitOverrides retryOverrides t o code
  ≠ StreamErrors.Terminated.
Proof.
  intros Hout Herr Hid1 Hid2.
  assert (Hlabel :
    String.eqb (StreamErrors.channelLabel
                  (StreamErrors.writePolicyOf exitOverrides retryOverrides t o true))
               "stdout"
    || String.eqb (StreamErrors.channelLabel
                     (StreamErrors.writePolicyOf exitOverrides retryOverrides t o true))
                  "stderr" = false).
  { unfold StreamErrors.writePolicyOf. cbn [StreamErrors.channelLabel].
    unfold Stream.resolveChannelPolicies. cbn [Stream.channelId].
    unfold StreamErrors.channelLabelOf, Stream.inferChannelId.
    rewrite Hout, Herr.
    destruct (Stream.optChannelId o) as [| | | |s| |]; try reflexivity.
    destruct s as [|c s]; [reflexivity|].
    apply orb_false_iff. split; apply String.eqb_neq; congruence. }
  unfold StreamErrors.safeWriteCatch, StreamErrors.onStreamError,
    StreamErrors.handleWriteError.
  cbn [StreamErrors.channelLabel StreamErrors.exitOnClose StreamErrors.retry
       StreamErrors.isFD StreamErrors.sync] in *.
  rewrite Hlabel. rewrite !andb_false_r.
  split.
  - destruct (_ && _ && _); [discriminate|].
    destruct (negb _ && _); [discriminate|]. by destruct (StreamErrors.sync _).
  - cbn [andb]. destruct (negb _ && _); discriminate.
Qed.

(** The statement above on a concrete input. *)
Lemma side_channel_error_never_terminates_witness :
  StreamErrors.safeWriteCatch (<["side" := true]> ∅) ∅ (Stream.TFd 7)
    (Stream.Options (JStr "side") (JBool true) JUndef JUndef) (JStr "EPIPE")
  ≠ StreamErrors.Terminated.
Proof.
  apply (side_channel_error_never_terminates (<["side" := true]> ∅) ∅ (Stream.TFd 7)
           (Stream.Options (JStr "side") (JBool true) JUndef JUndef) (JStr "EPIPE"));
    [reflexivity|reflexivity|discriminate|discriminate].
Defined.

(** ** Registration and the first parse *)

Section ParseFacts.
Variable parsedArgs : gmap string jsval.
Variable env : gmap string string.
Import Config.

Lemma usageError_idem (s : cliStatus) : usageError (usageError s) = usageError s.
Proof. reflexivity. Qed.

Lemma resolveParam_split (p : paramSpec) (s : cliStatus) :
  resolveParam parsedArgs env p s =
  (paramValue parsedArgs env p,
   if paramError parsedArgs env p then usageError s else s).
Proof.
  unfold paramValue, paramError, resolveParam. cbv zeta.
  repeat case_match; simplify_eq/=; try reflexivity.
Qed.

Lemma resolveParams_spec (registry : list paramSpec) :
  forall ps s,
    NoDup (map longnameLower registry) ->
    let '(ps', s') := resolveParams parsedArgs env registry ps s in
    (forall p, p ∈ registry ->
               ps' !! longnameLower p = Some (paramValue parsedArgs env p)) /\
    (forall k, k ∉ map longnameLower registry -> ps' !! k = ps !! k) /\
    s' = (if existsb (paramError parsedArgs env) registry then usageError s else s).
Proof.
  unfold resolveParams.
  induction registry as [|p registry IH]; intros ps s Hnd.
  - cbn. split; [intros p Hp; by apply elem_of_nil in Hp|]. by split.
  - cbn [map] in Hnd. apply NoDup_cons in Hnd as [Hfresh Hnd].
    cbn [fold_left existsb]. rewrite resolveParam_split.
    specialize (IH (<[longnameLower p := paramValue parsedArgs env p]> ps)
                   (if paramError parsedArgs env p then usageError s else s) Hnd).
    destruct (fold_left _ registry _) as [ps' s'].
    destruct IH as (Hval & Hframe & Hs). split; [|split].
    + intros q Hq. apply elem_of_cons in Hq as [->|Hq]; [|by apply Hval].
      rewrite Hframe by done. apply lookup_insert_eq.
    + intros k Hk. cbn [map] in Hk. apply not_elem_of_cons in Hk as [Hne Hk].
      rewrite Hframe by done. by rewrite lookup_insert_ne.
    + rewrite Hs. destruct (paramError parsedArgs env p);
        destruct (existsb _ registry); reflexivity.
Qed.

(** The indexed slots of a schema. *)
Lemma applySlots_spec (schema : list posSpec) :
  forall (ps : list jsval) (offset : nat) named s,
    (forall i spec, schema !! i = Some spec -> posVarargs spec = true ->
                    S i = length schema) ->
    NoDup (map posName schema) ->
    let '(named', s') := applySlots schema (drop offset ps) named s in
    (forall i spec, schema !! i = Some spec ->
                    named' !! posName spec = Some (slotValue ps (offset + i) spec)) /\
    (forall k, k ∉ map posName schema -> named' !! k = named !! k) /\
    s' = (if slotsMissing ps offset schema then usageError s else s).
Proof.
  induction schema as [|spec schema IH]; intros ps offset named s Hlast Hnd.
  - cbn. split; [intros i spec Hi; by rewrite lookup_nil in Hi|]. by split.
  - cbn [map] in Hnd. apply NoDup_cons in Hnd as [Hfresh Hnd].
    cbn [applySlots].
    destruct (posVarargs spec) eqn:Hvar.
    + assert (schema = []) as ->.
      { specialize (Hlast 0 spec eq_refl Hvar). cbn in Hlast.
        destruct schema; [reflexivity|discriminate]. }
      split; [|split].
      * intros i spec' Hi. destruct i as [|i]; [|by rewrite lookup_cons, lookup_nil in Hi].
        cbn in Hi. injection Hi as <-. rewrite lookup_insert_eq.
        unfold slotValue. rewrite Hvar. by rewrite Nat.add_0_r.
      * intros k Hk. cbn [map] in Hk. apply not_elem_of_cons in Hk as [Hne _].
        by rewrite lookup_insert_ne.
      * cbn [slotsMissing]. unfold slotMissing. rewrite Hvar, orb_false_r.
        rewrite length_drop.
        destruct (posRequired spec); cbn [andb]; [|reflexivity].
        destruct (Nat.eqb_spec (length ps - offset) 0) as [Hz|Hz];
          destruct (Nat.leb_spec (length ps) offset); try reflexivity; lia.
    + assert (Hhead : match drop offset ps with
                      | v :: _ => v
                      | [] => JUndef
                      end = default JUndef (ps !! offset)).
      { rewrite <- (Nat.add_0_r offset) at 2. rewrite <- lookup_drop.
        by destruct (drop offset ps). }
      rewrite Hhead.
      assert (Htail : tail (drop offset ps) = drop (S offset) ps).
      { rewrite <- Nat.add_1_r, <- drop_drop. by destruct (drop offset ps). }
      rewrite Htail.
      specialize (IH ps (S offset)
                     (<[posName spec := default JUndef (ps !! offset)]> named)
                     (if posRequired spec && is_undefined (default JUndef (ps !! offset))
                      then usageError s else s)).
      destruct (applySlots schema (drop (S offset) ps) _ _) as [named' s'].
      destruct IH as (Hval & Hframe & Hs).
      { intros i spec' Hi Hv. specialize (Hlast (S i) spec' Hi Hv).
        cbn [length] in Hlast. lia. }
      { exact Hnd. }
      split; [|split].
      * intros i spec' Hi. destruct i as [|i].
        -- cbn in Hi. injection Hi as <-. rewrite Hframe by done.
           rewrite lookup_insert_eq. unfold slotValue.
           by rewrite Hvar, Nat.add_0_r.
        -- cbn in Hi. rewrite (Hval i spec' Hi). f_equal. f_equal. lia.
      * intros k Hk. cbn [map] in Hk. apply not_elem_of_cons in Hk as [Hne Hk].
        rewrite Hframe by done. by rewrite lookup_insert_ne.
      * rewrite Hs. cbn [slotsMissing]. unfold slotMissing at 1. rewrite Hvar.
        destruct (posRequired spec && is_undefined (default JUndef (ps !! offset)));
          destruct (slotsMissing ps (S offset) schema); reflexivity.
Qed.
End ParseFacts.

Section LoadFacts.
Variable parsedArgs : gmap string jsval.
Variable env : gmap string string.
Import Config.

Lemma required_undefined_error (p : paramSpec) :
  required p = true -> paramValue parsedArgs env p = JUndef ->
  paramError parsedArgs env p = true.
Proof.
  unfold paramValue, paramError, resolveParam. cbv zeta. intros Hreq.
  rewrite Hreq. cbn [andb].
  repeat case_match; simplify_eq/=; intros Hv; rewrite ?Hv in *; try done.
  all: match goal with
       | H : Config.is_undefined ?v = false |- _ => try (rewrite Hv in H; discriminate)
       end.
Qed.

Lemma slotsMissing_false (ps : list jsval) (schema : list posSpec) :
  forall offset,
    slotsMissing ps offset schema = false ->
    forall i spec, schema !! i = Some spec -> slotMissing ps (offset + i) spec = false.
Proof.
  induction schema as [|spec0 schema IH]; intros offset Hno i spec Hi.
  - by rewrite lookup_nil in Hi.
  - cbn [slotsMissing] in Hno. apply orb_false_iff in Hno as [Hhere Hrest].
    destruct i as [|i].
    + cbn in Hi. injection Hi as <-. by rewrite Nat.add_0_r.
    + cbn in Hi. replace (offset + S i) with (S offset + i) by lia. by eapply IH.
Qed.

Lemma slot_filled (ps : list jsval) (i : nat) (spec : posSpec) :
  slotMissing ps i spec = false -> posRequired spec = true -> i < length ps.
Proof.
  unfold slotMissing. intros Hno Hreq. rewrite Hreq in Hno. cbn [andb] in Hno.
  destruct (posVarargs spec).
  - apply Nat.leb_gt in Hno. lia.
  - destruct (ps !! i) eqn:Hi; [by apply lookup_lt_Some in Hi|discriminate].
Qed.
End LoadFacts.


(** X12.  What [loadCLI] does on the first parse, for a registry with
    distinct keys and a schema with distinct names whose varargs slot, if any,
    is last.  It exits with -1 when a parameter raises a usage error or a
    required slot is not filled, with 0 when there is no error and [--help] is
    given, and returns the accessor otherwise.  In the accessor every
    registered parameter has the value resolved for it, a required parameter is
    not [undefined], every slot name is bound to its positional (the rest of
    the arguments for a varargs slot) and a required slot is filled. *)
Theorem loadCLI_exact (parsedArgs : gmap string jsval) (env : gmap string string)
    (registry : list Config.paramSpec)
    (positionalsSchema : option (list Config.posSpec)) :
  NoDup (map Config.longnameLower registry) ->
  varargsLast (default [] positionalsSchema) ->
  NoDup (map Config.posName (default [] positionalsSchema)) ->
  let ps := positionalArgs parsedArgs in
  let schema := default [] positionalsSchema in
  let errors := existsb (paramError parsedArgs env) registry
                || slotsMissing ps 0 schema in
  match Config.loadCLI parsedArgs env registry positionalsSchema Config.initialState with
  | Config.Exit code =>
      (errors = true \/ truthy (prop parsedArgs "help") = true) /\
      code = (if errors then -1 else 0)%Z
  | Config.Accessor st =>
      errors = false /\
      truthy (prop parsedArgs "help") = false /\
      Config.positionals (Config.base st) = ps /\
      (forall p, p ∈ registry ->
         Config.getParam st (Config.longnameLower p) = paramValue parsedArgs env p /\
         (Config.required p = true ->
          Config.getParam st (Config.longnameLower p) ≠ JUndef)) /\
      (forall i spec, schema !! i = Some spec ->
         Config.namedPositionals (Config.base st) !! Config.posName spec =
           Some (slotValue ps i spec) /\
         (Config.posRequired spec = true -> i < length ps))
  end.
Proof.
  intros Hnd Hlast Hnames. cbv zeta.
  unfold Config.loadCLI, Config.parseCLIOnce.
  cbn [Config.initialState Config.status Config.base Config.isDirty Config.isError
       Config.showHelp Config.params negb].
  pose proof (resolveParams_spec parsedArgs env registry ∅
                (Config.CliStatus false false false) Hnd) as Hparams.
  destruct (Config.resolveParams parsedArgs env registry ∅ _) as [params s1].
  destruct Hparams as (Hval & _ & Hs1).
  fold (positionalArgs parsedArgs).
  set (ps := positionalArgs parsedArgs) in *.
  assert (Hslots :
    let '(named, s2) := Config.applyPositionalsSchema positionalsSchema ps s1 in
    (forall i spec, default [] positionalsSchema !! i = Some spec ->
                    named !! Config.posName spec = Some (slotValue ps i spec)) /\
    s2 = (if slotsMissing ps 0 (default [] positionalsSchema)
          then Config.usageError s1 else s1)).
  { unfold Config.applyPositionalsSchema.
    destruct positionalsSchema as [[|spec schema]|]; cbn [default from_option id] in *;
      try (split; [intros i spec' Hi; by rewrite lookup_nil in Hi|reflexivity]).
    pose proof (applySlots_spec (spec :: schema) ps 0 ∅ s1 Hlast Hnames) as Hslots.
    rewrite drop_0 in Hslots.
    destruct (Config.applySlots (spec :: schema) ps ∅ s1) as [named s2].
    destruct Hslots as (Hv & _ & Hs). split; [exact Hv|exact Hs]. }
  destruct (Config.applyPositionalsSchema positionalsSchema ps s1) as [named s2].
  destruct Hslots as [Hnamed Hs2]. subst s1 s2.
  destruct (existsb (paramError parsedArgs env) registry) eqn:Hperr;
    destruct (slotsMissing ps 0 (default [] positionalsSchema)) eqn:Hserr;
    destruct (truthy (prop parsedArgs "help")) eqn:Hhelp;
    cbn [Config.usageError Config.isDirty Config.isError Config.showHelp orb];
    try (split; [auto|reflexivity]).
  split; [reflexivity|]. split; [reflexivity|]. split; [reflexivity|].
  cbn [Config.base Config.params Config.namedPositionals Config.getParam].
  split.
  - intros p Hp. unfold Config.getParam, prop. cbn [Config.base Config.params].
    rewrite (Hval p Hp). cbn [default from_option id]. split; [reflexivity|].
    intros Hreq Hundef.
    pose proof (required_undefined_error parsedArgs env p Hreq Hundef) as Herr.
    rewrite existsb_false in Hperr. rewrite (Hperr p Hp) in Herr. discriminate.
  - intros i spec Hi. split; [by apply Hnamed|].
    apply slot_filled.
    by apply (slotsMissing_false ps (default [] positionalsSchema) 0 Hserr i spec).
Qed.

(** The statement above on a concrete input. *)
Lemma loadCLI_exact_witness :
  let parsedArgs : gmap string jsval :=
    <["_" := JArr [JStr "conf.json"]]>
      (<["interval-ms" := JStr "100"]>
         (Config.minimist_no_arguments (Config.buildOptions [intervalMsSpec]))) in
  match Config.loadCLI parsedArgs ∅ [intervalMsSpec] (Some reducerSchema)
          Config.initialState with
  | Config.Exit _ => False
  | Config.Accessor st =>
      Config.getParam st "interval-ms" = JStr "100" /\
      Config.namedPositionals (Config.base st) !! "config_file" =
      Some (JStr "conf.json")
  end.
Proof.
  cbv zeta.
  set (parsedArgs := <["_" := JArr [JStr "conf.json"]]>
                       (<["interval-ms" := JStr "100"]>
                          (Config.minimist_no_arguments
                             (Config.buildOptions [intervalMsSpec])))).
  assert (Hnd : NoDup (map Config.longnameLower [intervalMsSpec]))
    by apply NoDup_singleton.
  assert (Hnames : NoDup (map Config.posName (default [] (Some reducerSchema))))
    by apply NoDup_singleton.
  assert (Hlast : varargsLast (default [] (Some reducerSchema))).
  { intros i spec Hi Hv. destruct i as [|i]; [reflexivity|].
    cbn in Hi. by destruct i. }
  pose proof (loadCLI_exact parsedArgs ∅ [intervalMsSpec] (Some reducerSchema)
                Hnd Hlast Hnames) as Hload.
  cbv zeta in Hload.
  destruct (Config.loadCLI parsedArgs ∅ [intervalMsSpec] (Some reducerSchema)
              Config.initialState) as [st|code].
  - destruct Hload as (_ & _ & _ & Hparams & Hslots). split.
    + destruct (Hparams intervalMsSpec) as [Hv _]; [apply list_elem_of_here|].
      exact Hv.
    + destruct (Hslots 0 (Config.PosSpec "config_file" true false) eq_refl)
        as [Hv _].
      exact Hv.
  - destruct Hload as [[Herr|Hhelp] _]; [vm_compute in Herr|vm_compute in Hhelp];
      discriminate.
Defined.

Section RegistrationFacts.
Context `{Conversions}.
Variable trim : string -> string.
Variable toLowerCase : string -> string.
Import Registry.

#[local] Abbreviation registerParam_ := (registerParam trim toLowerCase).
#[local] Abbreviation registerParams_ := (registerParams trim toLowerCase).

Lemma registerParam_registered (r r' : registries) (spec : jsval) :
  registered r -> registerParam_ r spec = Some r' ->
  registered r' /\ length (paramRegistry r') = S (length (paramRegistry r)).
Proof.
  intros (Hnd & Hh & Hshort) Hreg. unfold registerParam in Hreg.
  destruct (own_props spec) as [m|]; [|discriminate].
  destruct (prop m "longname") as [| | | |[|c l]| |]; try discriminate.
  cbv zeta in Hreg.
  set (keyLower := normalizeKey trim toLowerCase (normalizeNameToken (String c l))) in *.
  destruct (existsb _ _) eqn:Hdup; [discriminate|].
  destruct (resolveShortname toLowerCase r keyLower (prop m "shortname"))
    as [shortname|] eqn:Hs; [|discriminate].
  injection Hreg as <-. unfold registered. cbn [paramRegistry shortParamsRegistry].
  rewrite existsb_false in Hdup.
  assert (Hfresh : keyLower ∉ map Config.longnameLower (paramRegistry r)).
  { intros Hin. specialize (Hdup _ Hin). by rewrite String.eqb_refl in Hdup. }
  assert (Hsn : match shortname with
                | Some s => (s = "h" -> keyLower = "help") /\
                            shortParamsRegistry r !! s = None
                | None => True
                end).
  { unfold resolveShortname in Hs.
    destruct (prop m "shortname") as [| | | |s| |]; try discriminate.
    - by injection Hs as <-.
    - destruct (negb _); [discriminate|].
      destruct (String.eqb (toLowerCase s) "h" && _) eqn:Hres; [discriminate|].
      destruct (bool_decide _) eqn:Hdec; [discriminate|].
      injection Hs as <-. split.
      + intros Heq. rewrite Heq in Hres. cbn in Hres.
        apply negb_false_iff in Hres. by apply String.eqb_eq.
      + apply bool_decide_eq_false in Hdec. by apply eq_None_not_Some. }
  split; [|rewrite length_app; cbn; lia].
  split; [|split].
  - rewrite map_app. cbn [map]. apply NoDup_app. split; [exact Hnd|].
    split; [|apply NoDup_singleton].
    intros k Hk Hk'. apply list_elem_of_singleton in Hk' as ->. by destruct Hfresh.
  - intros p Hp Hsh. apply elem_of_app in Hp as [Hp|Hp]; [by apply Hh|].
    apply list_elem_of_singleton in Hp as ->. cbn in Hsh |- *.
    subst shortname. by apply Hsn.
  - intros p a s Hp Hsh. apply elem_of_app in Hp as [Hp|Hp].
    + specialize (Hshort p a s Hp Hsh).
      destruct shortname as [[|a' s']|]; try exact Hshort.
      destruct Hsn as [_ Hnone].
      rewrite lookup_insert_ne; [exact Hshort|]. intros Heq. congruence.
    + apply list_elem_of_singleton in Hp as ->. cbn in Hsh |- *.
      subst shortname. apply lookup_insert_eq.
Qed.

Lemma registerParams_registered (specs : list jsval) :
  forall r r',
    registered r -> registerParams_ r specs = Some r' ->
    registered r' /\
    length (paramRegistry r') = length (paramRegistry r) + length specs.
Proof.
  induction specs as [|spec specs IH]; intros r r' Hr Hreg.
  - cbn in Hreg. injection Hreg as <-. split; [exact Hr|cbn; lia].
  - cbn [registerParams] in Hreg.
    destruct (registerParam_ r spec) as [r1|] eqn:H1; [|discriminate].
    destruct (registerParam_registered r r1 spec Hr H1) as [Hr1 Hlen1].
    destruct (IH r1 r' Hr1 Hreg) as [Hr' Hlen]. split; [exact Hr'|].
    rewrite Hlen, Hlen1. cbn [length]. lia.
Qed.
End RegistrationFacts.


(** X10.  After any sequence of [registerParam] calls that do not
    throw, the registry holds one entry per call, no two entries have the same
    normalized long name, the short name [h] belongs to [help] only, and
    [shortParamsRegistry] maps every short name to its parameter. *)
Theorem registerParams_registered_from_empty `{Conversions}
    (trim toLowerCase : string -> string) (specs : list jsval)
    (r : Registry.registries) :
  Registry.registerParams trim toLowerCase Registry.empty specs = Some r ->
  registered r /\ length (Registry.paramRegistry r) = length specs.
Proof.
  intros Hreg.
  apply (registerParams_registered trim toLowerCase specs Registry.empty r);
    [|exact Hreg].
  split; [constructor|].
  split; [intros p Hp|intros p c s Hp]; by apply elem_of_nil in Hp.
Qed.

(** The statement above on a concrete input. *)
Lemma registerParams_registered_from_empty_witness :
  exists r,
    Registry.registerParams (H := exampleConversions) asciiTrim asciiLower
      Registry.empty
      [JObj (<["longname" := JStr "do-tag"]>
               (<["envname" := JStr "TMCP_DO_TAG"]> (<["default" := JBool true]> ∅)));
       JObj (<["longname" := JStr "--Interval-MS"]>
               (<["envname" := JStr "TMCP_INTERVAL_MS"]>
                  (<["expectsValue" := JBool true]> ∅)))] = Some r /\
    map Config.longnameLower (Registry.paramRegistry r) = ["do-tag"; "interval-ms"] /\
    registered r.
Proof.
  set (specs := [JObj (<["longname" := JStr "do-tag"]>
                         (<["envname" := JStr "TMCP_DO_TAG"]>
                            (<["default" := JBool true]> ∅)));
                 JObj (<["longname" := JStr "--Interval-MS"]>
                         (<["envname" := JStr "TMCP_INTERVAL_MS"]>
                            (<["expectsValue" := JBool true]> ∅)))]).
  destruct (Registry.registerParams (H := exampleConversions) asciiTrim asciiLower
              Registry.empty specs) as [r|] eqn:Hreg; [|vm_compute in Hreg; discriminate].
  exists r. split; [reflexivity|].
  split; [vm_compute in Hreg; by injection Hreg as <-|].
  by apply (registerParams_registered_from_empty (H := exampleConversions)
              asciiTrim asciiLower specs).
Defined.


(** X11.  When [registerPositionals] accepts a schema, the schema is
    an array, the registered schema has one slot per element, a varargs slot
    can only be the last one, and every later call of [registerPositionals]
    throws. *)
Theorem registerPositionals_accepts (schema : jsval) (sch : list Config.posSpec) :
  Registry.registerPositionals None schema = Some sch ->
  varargsLast sch /\
  (exists l, schema = JArr l /\ length sch = length l) /\
  (forall again, Registry.registerPositionals (Some sch) again = None).
Proof.
  intros Hreg. unfold Registry.registerPositionals in Hreg.
  destruct schema as [| | | | |l|]; try discriminate.
  apply mapM_Some in Hreg.
  assert (Hlen : length sch = length l).
  { apply Forall2_length in Hreg. by rewrite length_imap in Hreg. }
  split; [|split].
  - intros i spec Hi Hv.
    destruct (Forall2_lookup_r _ _ _ _ _ Hreg Hi) as ([idx entry] & Hentry & Hspec).
    apply list_lookup_imap_Some in Hentry as (entry' & Hl & Heq).
    injection Heq as -> ->.
    unfold Registry.registerEntry in Hspec.
    destruct (own_props entry') as [m|]; [|discriminate].
    destruct (prop m "name"); try discriminate.
    destruct (truthy (prop m "varargs") && _) eqn:Hcheck; [discriminate|].
    injection Hspec as <-. cbn in Hv. rewrite Hv in Hcheck. cbn in Hcheck.
    apply negb_false_iff, Nat.eqb_eq in Hcheck.
    apply lookup_lt_Some in Hl. lia.
  - by exists l.
  - intros again. unfold Registry.registerPositionals. by destruct again.
Qed.

(** The statement above on a concrete input. *)
Lemma registerPositionals_accepts_witness :
  exists sch,
    Registry.registerPositionals None
      (JArr [JObj (<["name" := JStr "config_file"]> (<["required" := JBool true]> ∅));
             JObj (<["name" := JStr "side_path"]>
                     (<["required" := JBool true]> (<["varargs" := JBool true]> ∅)))])
    = Some sch /\
    varargsLast sch /\
    Registry.registerPositionals None
      (JArr [JObj (<["name" := JStr "side_path"]> (<["varargs" := JBool true]> ∅));
             JObj (<["name" := JStr "config_file"]> ∅)]) = None.
Proof.
  set (schema := JArr [JObj (<["name" := JStr "config_file"]>
                               (<["required" := JBool true]> ∅));
                       JObj (<["name" := JStr "side_path"]>
                               (<["required" := JBool true]>
                                  (<["varargs" := JBool true]> ∅)))]).
  destruct (Registry.registerPositionals None schema) as [sch|] eqn:Hreg;
    [|vm_compute in Hreg; discriminate].
  exists sch. split; [reflexivity|]. split; [|reflexivity].
  by apply (registerPositionals_accepts schema sch).
Defined.

(** ** The accessor layers *)

Section LayerFacts.
Variable trim : string -> string.
Variable toLowerCase : string -> string.
Import Layers.

#[local] Abbreviation normalizeKey := (Registry.normalizeKey trim toLowerCase).

Lemma split_nonempty (sep : ascii) (s : string) : split sep s ≠ [].
Proof.
  destruct s as [|c s]; [discriminate|]. cbn [split].
  destruct (Ascii.eqb c sep); [discriminate|]. by destruct (split sep s).
Qed.

Lemma join_split (s : string) : join "." (split "." s) = s.
Proof.
  induction s as [|c s IH]; [reflexivity|]. cbn [split].
  destruct (Ascii.eqb_spec c ".") as [->|Hne].
  - pose proof (split_nonempty "." s) as Hs.
    destruct (split "." s) as [|h t]; [done|].
    change (join "." (EmptyString :: h :: t))
      with (EmptyString +:+ "." +:+ join "." (h :: t)).
    by rewrite IH.
  - pose proof (split_nonempty "." s) as Hs.
    destruct (split "." s) as [|h t]; [done|].
    destruct t as [|h' t]; cbn [join] in IH |- *; by rewrite <- IH.
Qed.

Lemma split_head (head rest : string) :
  split "." head = [head] ->
  split "." (head +:+ "." +:+ rest) = head :: split "." rest.
Proof.
  revert rest. induction head as [|c head IH]; intros rest Hhead.
  - reflexivity.
  - change (String c head +:+ "." +:+ rest) with (String c (head +:+ "." +:+ rest)).
    cbn [split] in Hhead |- *.
    destruct (Ascii.eqb c "."); [discriminate|].
    pose proof (split_nonempty "." head) as Hne.
    destruct (split "." head) as [|h t] eqn:Hs; [done|].
    injection Hhead as -> ->. by rewrite IH.
Qed.

(** [spec] reads the registry as [get] reads the parameters: under a
    parameter head, by the normalized rest of the path, dots included; a path
    of one segment has no spec. *)
Lemma cliBaseSpec_paths (paramRegistry : list Config.paramSpec) (head : string) :
  split "." head = [head] ->
  cliBaseSpec trim toLowerCase paramRegistry head = None /\
  forall name,
    cliBaseSpec trim toLowerCase paramRegistry (head +:+ "." +:+ name) =
    if isParamHead (normalizeKey head)
    then List.find (fun p => String.eqb (Config.longnameLower p) (normalizeKey name))
                   paramRegistry
    else None.
Proof.
  intros Hhead. unfold cliBaseSpec. rewrite Hhead. split; [reflexivity|].
  intros name. rewrite split_head by done.
  pose proof (split_nonempty "." name) as Hne.
  destruct (split "." name) as [|h t] eqn:Hs; [done|].
  rewrite <- Hs, join_split. reflexivity.
Qed.
End LayerFacts.

(** A parameter registered with [mutable: false] has its entry as the spec of
    [param.fixed], and the runtime layer over the CLI base layer refuses to
    override it. *)
Example immutable_param_spec :
  let fixed := Config.ParamSpec "fixed" "fixed" None None JUndef true false false
                 false in
  Layers.cliBaseSpec asciiTrim asciiLower [fixed] "param.fixed" = Some fixed /\
  Layers.overrideValue asciiTrim asciiLower
    (Layers.cliBaseMutable asciiTrim asciiLower [fixed]) ∅ "param.fixed"
    (JNum (Fin 1)) = None.
Proof. split; reflexivity. Qed.


(** X13.  The runtime layer.  [overrideValue] exits the process exactly
    when the base layer has a spec for the path whose [mutable] is [false].
    Otherwise, afterwards, [get] returns the new value for every path with the
    same normalized key, is unchanged for every path with another key, returns
    the value of the base layer under [{ original: true }], and returns the
    value of the base layer again once [clearOverride] has run. *)
Theorem runtime_layer_overrides (trim toLowerCase : string -> string)
    (baseGet : string -> jsval) (baseMutable : string -> option jsval)
    (overrides : gmap string jsval) (path : string) (value : jsval) :
  let key := Registry.normalizeKey trim toLowerCase in
  let get := Layers.get trim toLowerCase baseGet in
  match Layers.overrideValue trim toLowerCase baseMutable overrides path value with
  | None => baseMutable path = Some (JBool false)
  | Some overrides' =>
      baseMutable path ≠ Some (JBool false) /\
      (forall p, key p = key path -> get overrides' p false = value) /\
      (forall p, key p ≠ key path -> get overrides' p false = get overrides p false) /\
      (forall p, get overrides' p true = baseGet p) /\
      get (Layers.clearOverride trim toLowerCase overrides' path) path false =
      baseGet path
  end.
Proof.
  cbv zeta. unfold Layers.overrideValue, Layers.canMutate.
  destruct (baseMutable path) as [[| |[|]| | | |]|]; cbn [negb]; try reflexivity;
    (split; [discriminate|]);
    (split; [intros p Hp; unfold Layers.get; cbn [negb];
             by rewrite Hp, lookup_insert_eq|]);
    (split; [intros p Hp; unfold Layers.get; cbn [negb];
             by rewrite lookup_insert_ne|]);
    (split; [reflexivity|]);
    unfold Layers.get, Layers.clearOverride; cbn [negb];
    by rewrite lookup_delete_eq.
Qed.


(** X14.  The paths of the CLI base layer, for a first segment [head]
    without a dot.  Under [param], [override] or [flag] (in any case) the rest
    of the path, dots included, is normalized and looked up in the parameters,
    and the head alone gives [undefined].  Under [positionals] the head alone
    gives the whole array, a second segment of decimal digits gives the
    positional at that index (later segments are ignored), and any other
    second segment gives the value of the first named positional whose
    normalized name matches.  Every other head gives [undefined]. *)
Theorem cli_accessor_paths (trim toLowerCase : string -> string)
    (st : Config.cliState) (namedKeys : list string) (head : string) :
  let key := Registry.normalizeKey trim toLowerCase in
  let get := Layers.cliBaseGet trim toLowerCase (Config.base st) namedKeys in
  Layers.split "." head = [head] ->
  (Layers.isParamHead (key head) = true ->
   get head = JUndef /\
   forall name, get (head +:+ "." +:+ name) = Config.getParam st (key name)) /\
  (key head = "positionals" ->
   get head = JArr (Config.positionals (Config.base st)) /\
   (forall digits idx rest,
      Layers.split "." digits = [digits] ->
      Layers.index digits = Some idx ->
      get (head +:+ "." +:+ digits) = Config.getPositional st (N.to_nat idx) /\
      get (head +:+ "." +:+ digits +:+ "." +:+ rest) =
      Config.getPositional st (N.to_nat idx)) /\
   (forall name,
      Layers.split "." name = [name] ->
      Layers.index name = None ->
      get (head +:+ "." +:+ name) =
      match List.find (fun k => String.eqb (key k) (key name)) namedKeys with
      | Some k => prop (Config.namedPositionals (Config.base st)) k
      | None => JUndef
      end)) /\
  (Layers.isParamHead (key head) = false -> key head ≠ "positionals" ->
   forall rest, get head = JUndef /\ get (head +:+ "." +:+ rest) = JUndef).
Proof.
  cbv zeta. intros Hhead. unfold Layers.cliBaseGet.
  split; [|split].
  - intros Hp. rewrite Hhead, Hp. split; [reflexivity|]. intros name.
    rewrite split_head by done. rewrite Hp.
    pose proof (split_nonempty "." name) as Hne.
    destruct (Layers.split "." name) as [|h t] eqn:Hs; [done|].
    rewrite <- Hs, join_split. reflexivity.
  - intros Hpos.
    assert (Hnp : Layers.isParamHead (Registry.normalizeKey trim toLowerCase head)
                  = false) by by rewrite Hpos.
    rewrite Hhead, Hnp, Hpos, String.eqb_refl.
    split; [reflexivity|]. split.
    + intros digits idx rest Hd Hidx. split.
      * rewrite split_head by done. rewrite Hnp, Hpos, String.eqb_refl, Hd, Hidx.
        reflexivity.
      * rewrite split_head by done. rewrite Hnp, Hpos, String.eqb_refl.
        rewrite split_head by done. by rewrite Hidx.
    + intros name Hn Hidx.
      rewrite split_head by done. rewrite Hnp, Hpos, String.eqb_refl, Hn, Hidx.
      reflexivity.
  - intros Hnp Hnpos rest. apply String.eqb_neq in Hnpos.
    rewrite Hhead, Hnp, Hnpos. split; [reflexivity|].
    rewrite split_head by done. by rewrite Hnp, Hnpos.
Qed.

(** The statement above on a concrete input. *)
Lemma cli_accessor_paths_witness :
  let st := Config.CliState
              (Config.CliBase (<["interval-ms" := JStr "100"]> ∅)
                              [JStr "conf.json"] ∅)
              (Config.CliStatus false false false) in
  Layers.cliBaseGet asciiTrim asciiLower (Config.base st) [] "Param.Interval-MS" =
  JStr "100" /\
  Layers.cliBaseGet asciiTrim asciiLower (Config.base st) [] "positionals.0" =
  JStr "conf.json".
Proof.
  cbv zeta. split.
  - destruct (cli_accessor_paths asciiTrim asciiLower
                (Config.CliState
                   (Config.CliBase (<["interval-ms" := JStr "100"]> ∅)
                                   [JStr "conf.json"] ∅)
                   (Config.CliStatus false false false))
                [] "Param" eq_refl) as [Hparam _].
    destruct (Hparam eq_refl) as [_ Hname]. exact (Hname "Interval-MS").
  - destruct (cli_accessor_paths asciiTrim asciiLower
                (Config.CliState
                   (Config.CliBase (<["interval-ms" := JStr "100"]> ∅)
                                   [JStr "conf.json"] ∅)
                   (Config.CliStatus false false false))
                [] "positionals" eq_refl) as (_ & Hpos & _).
    destruct (Hpos eq_refl) as (_ & Hidx & _).
    destruct (Hidx "0" 0%N "" eq_refl eq_refl) as [Hget _]. exact Hget.
Defined.

(** ** The NDJSON reader *)

Section NdjsonFacts.
Variable JSONparse : string -> option jsval.
Variable trim : string -> string.
Import Ndjson.

#[local] Abbreviation drain_ := (drain JSONparse).
#[local] Abbreviation onData_ := (onData JSONparse).
#[local] Abbreviation read_ := (read JSONparse trim).

Lemma indexOfNewline_app_Some (a b : string) (idx : nat) :
  indexOfNewline a = Some idx ->
  indexOfNewline (a +:+ b) = Some idx /\
  sliceTo idx (a +:+ b) = sliceTo idx a /\
  sliceFrom (idx + 1) (a +:+ b) = sliceFrom (idx + 1) a +:+ b /\
  String.length (sliceFrom (idx + 1) a) < String.length a.
Proof.
  revert idx. induction a as [|c a IH]; intros idx Hidx; [discriminate|].
  change (String c a +:+ b) with (String c (a +:+ b)).
  cbn [indexOfNewline] in Hidx |- *.
  destruct (Ascii.eqb c "010").
  - injection Hidx as <-. cbn. repeat split. lia.
  - destruct (indexOfNewline a) as [i|] eqn:Ha; [|discriminate].
    cbn in Hidx. injection Hidx as <-.
    destruct (IH i eq_refl) as (H1 & H2 & H3 & H4).
    rewrite H1. cbn [fmap option_fmap option_map]. split; [reflexivity|].
    cbn [sliceTo sliceFrom Nat.add String.length]. rewrite H2.
    split; [reflexivity|]. split; [exact H3|]. lia.
Qed.

Lemma drain_no_newline (fuel : nat) (s : string) :
  indexOfNewline s = None -> drain_ fuel s = ([], s).
Proof. intros Hs. destruct fuel; [reflexivity|]. cbn [drain]. by rewrite Hs. Qed.

Lemma drain_rest (fuel : nat) :
  forall s, String.length s <= fuel -> indexOfNewline (snd (drain_ fuel s)) = None.
Proof.
  induction fuel as [|fuel IH]; intros s Hlen.
  - destruct s; [reflexivity|cbn in Hlen; lia].
  - cbn [drain]. destruct (indexOfNewline s) as [idx|] eqn:Hidx; [|exact Hidx].
    destruct (indexOfNewline_app_Some s EmptyString idx Hidx) as (_ & _ & _ & Hlt).
    specialize (IH (sliceFrom (idx + 1) s) ltac:(lia)).
    by destruct (drain_ fuel (sliceFrom (idx + 1) s)).
Qed.

Lemma drain_app (fuel : nat) :
  forall fuel' fuel'' a b,
    String.length (a +:+ b) <= fuel -> String.length a <= fuel' ->
    String.length (snd (drain_ fuel' a) +:+ b) <= fuel'' ->
    drain_ fuel (a +:+ b) =
    (fst (drain_ fuel' a) ++ fst (drain_ fuel'' (snd (drain_ fuel' a) +:+ b)),
     snd (drain_ fuel'' (snd (drain_ fuel' a) +:+ b))).
Proof.
  induction fuel as [fuel IH] using lt_wf_ind. intros fuel' fuel'' a b Hf Hf' Hf''.
  destruct (indexOfNewline a) as [idx|] eqn:Hidx.
  - destruct (indexOfNewline_app_Some a b idx Hidx) as (H1 & H2 & H3 & H4).
    assert (Hla : 0 < String.length a) by lia.
    destruct fuel as [|fuel]; [rewrite string_length_app in Hf; lia|].
    destruct fuel' as [|fuel']; [lia|].
    cbn [drain]. rewrite H1, Hidx, H2, H3.
    cbn [drain] in Hf''. rewrite Hidx in Hf''.
    assert (Hrec := IH fuel ltac:(lia) fuel' fuel'' (sliceFrom (idx + 1) a) b).
    destruct (drain_ fuel' (sliceFrom (idx + 1) a)) as [ra resta] eqn:Ha.
    cbn [fst snd] in Hrec, Hf'' |- *.
    rewrite Hrec; [| rewrite string_length_app in *; lia | lia | exact Hf''].
    cbn [fst snd]. by destruct (parseLine JSONparse (sliceTo idx a)).
  - rewrite (drain_no_newline fuel' a Hidx). cbn [fst snd app].
    rewrite (drain_no_newline fuel' a Hidx) in Hf''. cbn [snd] in Hf''.
    clear IH Hf'. revert fuel'' Hf'' Hf. generalize (a +:+ b). clear.
    intros s. revert s.
    induction fuel as [|fuel IH]; intros s fuel'' Hf'' Hf.
    + destruct s; [|cbn in Hf; lia]. by destruct fuel''.
    + destruct fuel'' as [|fuel''].
      * destruct s; [reflexivity|cbn in Hf''; lia].
      * cbn [drain]. destruct (indexOfNewline s) as [idx|] eqn:Hidx; [|reflexivity].
        destruct (indexOfNewline_app_Some s EmptyString idx Hidx) as (_ & _ & _ & Hlt).
        rewrite (IH (sliceFrom (idx + 1) s) fuel'') by lia.
        by destruct (drain_ fuel'' (sliceFrom (idx + 1) s)).
Qed.
End NdjsonFacts.

Section NdjsonReadFacts.
Variable JSONparse : string -> option jsval.
Variable trim : string -> string.
Import Ndjson.

#[local] Abbreviation drain_ := (drain JSONparse).
#[local] Abbreviation read_ := (read JSONparse trim).
#[local] Abbreviation onEnd_ := (onEnd JSONparse trim).

Lemma append_assoc (a b c : string) : (a +:+ b) +:+ c = a +:+ (b +:+ c).
Proof.
  induction a as [|x a IH]; [reflexivity|].
  change (String x ((a +:+ b) +:+ c) = String x (a +:+ (b +:+ c))). by rewrite IH.
Qed.

Lemma append_empty_r (a : string) : a +:+ EmptyString = a.
Proof.
  induction a as [|x a IH]; [reflexivity|].
  change (String x (a +:+ EmptyString) = String x a). by rewrite IH.
Qed.

Lemma read_whole (chunks : list string) :
  forall buffer,
    indexOfNewline buffer = None ->
    let whole := buffer +:+ fold_right String.append EmptyString chunks in
    read_ buffer chunks =
    fst (drain_ (String.length whole) whole) ++
    onEnd_ (snd (drain_ (String.length whole) whole)).
Proof.
  induction chunks as [|chunk chunks IH]; intros buffer Hb; cbv zeta.
  - cbn [fold_right read]. rewrite append_empty_r.
    by rewrite drain_no_newline.
  - cbn [fold_right read]. unfold onData.
    set (rest0 := fold_right String.append EmptyString chunks).
    rewrite <- (append_assoc buffer chunk rest0).
    set (a := buffer +:+ chunk). set (b := rest0).
    rewrite (drain_app JSONparse (String.length (a +:+ b)) (String.length a)
               (String.length (snd (drain_ (String.length a) a) +:+ b)) a b)
      by lia.
    pose proof (drain_rest JSONparse (String.length a) a (le_n _)) as Hrest.
    destruct (drain_ (String.length a) a) as [records rest].
    cbn [fst snd] in *. rewrite (IH rest Hrest). cbv zeta. fold b.
    by rewrite app_assoc.
Qed.
End NdjsonReadFacts.


(** X9.  The NDJSON reader of [safeRead] delivers the same records
    whatever the boundaries of the chunks the stream arrives in: reading the
    chunks one by one gives what reading their concatenation as one chunk
    gives.  Every record delivered has an array as [meta.pipeline]. *)
Theorem ndjson_chunking_irrelevant (JSONparse : string -> option jsval)
    (trim : string -> string) (chunks : list string) :
  Ndjson.read JSONparse trim EmptyString chunks =
  Ndjson.read JSONparse trim EmptyString
    [fold_right String.append EmptyString chunks] /\
  Forall (fun r => isArray (prop (meta r) "pipeline") = true)
         (Ndjson.read JSONparse trim EmptyString chunks).
Proof.
  split.
  - rewrite (read_whole JSONparse trim chunks EmptyString eq_refl).
    rewrite (read_whole JSONparse trim [_] EmptyString eq_refl).
    cbv zeta. cbn [fold_right]. by rewrite append_empty_r.
  - rewrite (read_whole JSONparse trim chunks EmptyString eq_refl). cbv zeta.
    set (whole := EmptyString +:+ _).
    assert (Hline : forall line r, Ndjson.parseLine JSONparse line = Some r ->
                                   isArray (prop (meta r) "pipeline") = true).
    { intros line r Hr. unfold Ndjson.parseLine in Hr.
      destruct (JSONparse line); [|discriminate]. cbn in Hr. injection Hr as <-.
      apply normalizeObject_pipeline. }
    apply Forall_app. split.
    + generalize (String.length whole) as fuel. generalize whole. clear whole.
      intros whole fuel. revert whole.
      induction fuel as [|fuel IH]; intros whole; [constructor|].
      cbn [Ndjson.drain]. destruct (Ndjson.indexOfNewline whole) as [idx|]; [|constructor].
      specialize (IH (Ndjson.sliceFrom (idx + 1) whole)).
      destruct (Ndjson.drain JSONparse fuel _) as [records rest]. cbn [fst] in *.
      destruct (Ndjson.parseLine JSONparse _) eqn:Hp; [|exact IH].
      constructor; [by eapply Hline|exact IH].
    + unfold Ndjson.onEnd. destruct (Nat.ltb _ _); [|constructor].
      destruct (Ndjson.parseLine JSONparse _) eqn:Hp; [|constructor].
      constructor; [by eapply Hline|constructor].
Qed.

(** ** Minimum rate: clones *)

Section MinRateCloneFacts.
Context `{Conversions}.
Variable tagEnabled : bool.
Variable i : Q.
Import MinRate.

#[local] Abbreviation run_ := (run tagEnabled (JNum (Fin i))).




End MinRateCloneFacts.



(** ** Merge: windows, frames and unbounded sides *)

Section MergeWindowFacts.
Context `{Conversions}.
Variable tagEnabled : bool.
Variable MATCH_TOLERANCE_MS MAX_BUFFER_MS : number.
Variable postfixes : list jsval.
Variable allowUnbounded : list bool.
Import Merge.

Lemma trim_spec (cutoff : number) (buf : list record) :
  exists dropped,
    buf = dropped ++ trim cutoff buf /\
    Forall (fun r => js_lt (tsOr0 r) (JNum cutoff) = true) dropped /\
    match trim cutoff buf with
    | [] => True
    | r :: _ => js_lt (tsOr0 r) (JNum cutoff) = false
    end.
Proof.
  induction buf as [|o rest IH].
  - exists []. repeat split; constructor.
  - cbn [trim]. destruct (js_lt (tsOr0 o) (JNum cutoff)) eqn:Ho.
    + destruct IH as (dropped & Heq & Hall & Hhd).
      exists (o :: dropped). split; [by rewrite Heq at 1|].
      split; [by constructor|exact Hhd].
    + exists []. split; [reflexivity|]. split; [constructor|exact Ho].
Qed.



End MergeWindowFacts.



Section MergeFrameFacts.
Context `{Conversions}.
Variable tagEnabled : bool.
Variable MATCH_TOLERANCE_MS MAX_BUFFER_MS : number.
Variable postfixes : list jsval.
Variable allowUnbounded : list bool.

Lemma appendTag_other_keys (m : gmap string jsval) (tag k : string) :
  k ≠ "pipeline" -> Core.appendTag tagEnabled m tag !! k = m !! k.
Proof.
  intros Hk. unfold Core.appendTag. destruct tagEnabled; cbn [negb]; [|done].
  by rewrite lookup_insert_ne.
Qed.

Lemma safeWrite_other_keys (r : record) (k : string) :
  k ≠ "pipeline" -> meta (Stream.safeWrite r) !! k = meta r !! k.
Proof.
  intros Hk. rewrite safeWrite_spec. cbn [meta].
  destruct (isArray (prop (meta r) "pipeline")); [done|].
  by rewrite lookup_insert_ne.
Qed.

Lemma safeWrite_data (r : record) : data (Stream.safeWrite r) = data r.
Proof. by rewrite safeWrite_spec. Qed.
End MergeFrameFacts.


(** X17.  What [tryEmit] keeps of the primary record.  Every key of
    its [meta] other than [pipeline] is written as it is.  When its timestamp
    is not a Number its data is written unchanged; when it is, every data key
    that no side writes (no side record has a key which, with the postfix of
    its side, equals it) is written with its value. *)
Theorem merge_keeps_main_record `{Conversions} (tagEnabled : bool)
    (tolerance : number) (postfixes : list jsval) (allowUnbounded : list bool)
    (st : Merge.state) (mainObj : record) :
  last (Merge.mainBuffer st) = Some mainObj ->
  exists out,
    Merge.tryEmit tagEnabled tolerance postfixes allowUnbounded st = [out] /\
    (forall k, k ≠ "pipeline" -> meta out !! k = meta mainObj !! k) /\
    match Merge.timestamp mainObj with
    | JNum ts =>
        forall k v,
          data mainObj !! k = Some v ->
          (forall j rec k',
             j < length (Merge.sideBuffers st) ->
             Merge.interpolateSide tolerance allowUnbounded st j ts = Some rec ->
             is_Some (data rec !! k') ->
             k' +:+ Merge.postfixOf postfixes j ≠ k) ->
          data out !! k = Some v
    | _ => data out = data mainObj
    end.
Proof.
  intros Hlast. unfold Merge.tryEmit. rewrite Hlast.
  destruct (Merge.timestamp mainObj) as [| | |ts| | |] eqn:Hts;
    try (eexists; split; [reflexivity|]; split;
         [intros k Hk; unfold Merge.emitPassthrough;
          rewrite safeWrite_other_keys by done; cbn [meta];
          by rewrite appendTag_other_keys
         |unfold Merge.emitPassthrough; by rewrite safeWrite_data]).
  eexists; split; [reflexivity|]. split.
  - intros k Hk. rewrite safeWrite_other_keys by done. cbn [meta].
    rewrite appendTag_other_keys by done.
    destruct (decide (k = "timestamp")) as [->|Hne].
    + rewrite lookup_insert_eq. unfold Merge.timestamp, prop in Hts.
      destruct (meta mainObj !! "timestamp") as [v|]; cbn in Hts; by subst.
    + by rewrite lookup_insert_ne.
  - intros k v Hk Hfree. rewrite safeWrite_data. cbn [data].
    unfold Merge.mergeSides.
    rewrite (mergeSides_untouched tolerance postfixes allowUnbounded st ts k).
    + exact Hk.
    + intros j rec k' Hj. apply elem_of_seq in Hj. apply Hfree. lia.
Qed.

(** The statement above on a concrete input. *)
Lemma merge_keeps_main_record_witness :
  exists out,
    Merge.tryEmit (H := exampleConversions) true (Fin 10) [] [false] mergeScenario
      = [out] /\
    data out !! "x" = Some (JNum (Fin 1)).
Proof.
  destruct (merge_keeps_main_record (H := exampleConversions) true (Fin 10) []
              [false] mergeScenario
              (Rec (<["timestamp" := JNum (Fin 1000)]> (<["pipeline" := JArr []]> ∅))
                   (<["x" := JNum (Fin 1)]> ∅)) eq_refl)
    as (out & Hout & _ & Hdata).
  exists out. split; [exact Hout|].
  apply (Hdata "x" (JNum (Fin 1)) eq_refl).
  intros j rec k' Hj _ _ Heq. cbn in Hj.
  assert (j = 0) as -> by lia.
  apply (f_equal String.length) in Heq.
  rewrite string_length_app in Heq.
  vm_compute (String.length (Merge.postfixOf _ _)) in Heq.
  cbn in Heq. lia.
Defined.

Section MergeSideBufferFacts.
Context `{Conversions}.
Variable tagEnabled : bool.
Variable MATCH_TOLERANCE_MS MAX_BUFFER_MS : number.
Variable postfixes : list jsval.
Variable allowUnbounded : list bool.

#[local] Abbreviation step_ :=
  (mergeStep tagEnabled MATCH_TOLERANCE_MS MAX_BUFFER_MS postfixes allowUnbounded).
#[local] Abbreviation run_ :=
  (mergeRun tagEnabled MATCH_TOLERANCE_MS MAX_BUFFER_MS postfixes allowUnbounded).

Lemma step_sidesNumeric (st : Merge.state) (e : mergeEvent) :
  sidesNumeric allowUnbounded st -> sidesNumeric allowUnbounded (fst (step_ st e)).
Proof.
  intros Hinv. destruct e as [o now|i o now]; [exact Hinv|].
  cbn [mergeStep fst]. unfold Merge.pushSide.
  destruct (default false (allowUnbounded !! i)) eqn:Hu.
  - intros idx buf Hb Hlook. cbn [Merge.sideBuffers] in Hlook.
    destruct (decide (i = idx)) as [->|Hne]; [congruence|].
    rewrite list_lookup_alter_ne in Hlook by done. by apply (Hinv idx).
  - destruct (String.eqb (typeof (Merge.timestamp o)) "number") eqn:Hn; [|exact Hinv].
    intros idx buf Hb Hlook. cbn [Merge.sideBuffers] in Hlook.
    destruct (decide (i = idx)) as [->|Hne].
    + rewrite list_lookup_alter_eq in Hlook.
      destruct (Merge.sideBuffers st !! idx) as [b|] eqn:Hold;
        [|cbn in Hlook; discriminate].
      cbn in Hlook. injection Hlook as <-.
      destruct (trim_spec (num_sub (Fin now) MAX_BUFFER_MS) (b ++ [o]))
        as (dropped & Heq & _ & _).
      assert (Hall : Forall (fun r => numericTs r = true) (b ++ [o])).
      { apply Forall_app. split; [by apply (Hinv idx)|].
        constructor; [exact Hn|constructor]. }
      rewrite Heq in Hall. by apply Forall_app in Hall as [_ ?].
    + rewrite list_lookup_alter_ne in Hlook by done. by apply (Hinv idx).
Qed.

Lemma run_sidesNumeric (es : list mergeEvent) :
  forall st, sidesNumeric allowUnbounded st ->
             sidesNumeric allowUnbounded (fst (run_ st es)).
Proof.
  induction es as [|e es IH]; intros st Hinv; [exact Hinv|].
  cbn [mergeRun].
  pose proof (step_sidesNumeric st e Hinv) as Hstep.
  destruct (step_ st e) as [st1 out1]. cbn [fst] in Hstep.
  specialize (IH st1 Hstep).
  destruct (run_ st1 es) as [st2 out2]. exact IH.
Qed.
End MergeSideBufferFacts.


(** X18.  From start-up on, whatever records arrive on stdin and on the
    side channels, the buffer of a bounded side channel only holds records
    whose [meta.timestamp] is a Number. *)
Theorem bounded_side_buffers_numeric `{Conversions} (tagEnabled : bool)
    (tolerance maxBuffer : number) (postfixes : list jsval)
    (allowUnbounded : list bool) (sides : nat) (es : list mergeEvent) :
  sidesNumeric allowUnbounded
    (fst (mergeRun tagEnabled tolerance maxBuffer postfixes allowUnbounded
            (mergeInitial sides) es)).
Proof.
  apply run_sidesNumeric. intros idx buf _ Hlook.
  unfold mergeInitial in Hlook. cbn [Merge.sideBuffers] in Hlook.
  apply lookup_replicate in Hlook as [-> _]. constructor.
Qed.

Section MergeContributionFacts.
Context `{Conversions}.
Variable MATCH_TOLERANCE_MS : number.

Lemma last_filter_is_Some (p : record -> bool) (l : list record) (x : record) :
  x ∈ l -> p x = true -> is_Some (last (List.filter p l)).
Proof.
  intros Hx Hp. destruct (last (List.filter p l)) eqn:Hl; [by eexists|].
  apply last_None in Hl.
  assert (Hin : In x (List.filter p l)).
  { apply filter_In. split; [by apply list_elem_of_In|exact Hp]. }
  rewrite Hl in Hin. destruct Hin.
Qed.

Lemma find_is_Some (p : record -> bool) (l : list record) (x : record) :
  x ∈ l -> p x = true -> is_Some (List.find p l).
Proof.
  intros Hx Hp. destruct (List.find p l) eqn:Hf; [by eexists|].
  apply list_elem_of_In in Hx.
  pose proof (find_none p l Hf x Hx). congruence.
Qed.

Lemma finite_le_or_gt (r : record) (t : Q) :
  isFinite (Merge.timestamp r) = true ->
  js_le (Merge.tsOr0 r) (JNum (Fin t)) = true \/
  js_gt (Merge.tsOr0 r) (JNum (Fin t)) = true.
Proof.
  unfold Merge.tsOr0. destruct (Merge.timestamp r) as [| | |[q| |]| | |]; try done.
  intros _. cbn. unfold Qlt_bool. destruct (Qle_bool q t); [by left|by right].
Qed.
End MergeContributionFacts.


(** X19.  For a buffer whose timestamps are finite Numbers,
    [interpolateBounded] returns no record only when the buffer is empty: the
    tolerance decides between the nearest record and the interpolation or
    fallback, never whether the side contributes. *)
Theorem bounded_side_contributes `{Conversions} (tolerance : number)
    (buf : list record) (t : Q) :
  Forall (fun r => isFinite (Merge.timestamp r) = true) buf ->
  Merge.interpolateBounded tolerance buf (Fin t) = None <-> buf = [].
Proof.
  intros Hfin. split; [|by intros ->].
  destruct buf as [|b0 rest]; [done|]. intros Hnone. exfalso.
  assert (Hb0 : isFinite (Merge.timestamp b0) = true) by by inversion Hfin.
  unfold Merge.interpolateBounded in Hnone.
  destruct (Merge.findClosest tolerance (b0 :: rest) (Fin t)); [discriminate|].
  assert (Hsome :
    is_Some (last (List.filter (fun o => js_le (Merge.tsOr0 o) (JNum (Fin t)))
                               (b0 :: rest))) \/
    is_Some (List.find (fun o => js_gt (Merge.tsOr0 o) (JNum (Fin t)))
                       (b0 :: rest))).
  { destruct (finite_le_or_gt b0 t Hb0) as [Hle|Hgt].
    - left. eapply last_filter_is_Some; [apply list_elem_of_here|exact Hle].
    - right. eapply find_is_Some; [apply list_elem_of_here|exact Hgt]. }
  destruct (last _) as [b|], (List.find _ _) as [a|]; cbn [Merge.orElse] in Hnone.
  - by destruct (js_le (Merge.timestamp a) (Merge.timestamp b)).
  - discriminate.
  - discriminate.
  - destruct Hsome as [[? ?]|[? ?]]; discriminate.
Qed.

(** The statement above on a concrete input. *)
Lemma bounded_side_contributes_witness :
  Merge.interpolateBounded (H := exampleConversions) (Fin 10)
    [sideRecord 980 10; sideRecord 1020 20] (Fin 5000) ≠ None.
Proof.
  intros Hnone.
  apply (bounded_side_contributes (H := exampleConversions) (Fin 10)
           [sideRecord 980 10; sideRecord 1020 20] 5000) in Hnone.
  - discriminate.
  - repeat constructor.
Defined.

Section MergeUnboundedFacts.
Context `{Conversions}.
Variable tagEnabled : bool.
Variable MATCH_TOLERANCE_MS MAX_BUFFER_MS : number.
Variable postfixes : list jsval.
Variable allowUnbounded : list bool.

#[local] Abbreviation step_ :=
  (mergeStep tagEnabled MATCH_TOLERANCE_MS MAX_BUFFER_MS postfixes allowUnbounded).
#[local] Abbreviation run_ :=
  (mergeRun tagEnabled MATCH_TOLERANCE_MS MAX_BUFFER_MS postfixes allowUnbounded).

Lemma filter_snoc (p : record -> bool) (l : list record) (x : record) :
  List.filter p (l ++ [x]) = List.filter p l ++ (if p x then [x] else []).
Proof. by rewrite List.filter_app. Qed.

Lemma run_unbounded (idx : nat) (es : list mergeEvent) :
  default false (allowUnbounded !! idx) = true ->
  forall st seen,
    Merge.sideBuffers st !! idx = Some seen ->
    Merge.sideLastUnbounded st !! idx = Some (last (List.filter numericTs seen)) ->
    let st' := fst (run_ st es) in
    Merge.sideBuffers st' !! idx = Some (seen ++ receivedOn idx es) /\
    Merge.sideLastUnbounded st' !! idx =
    Some (last (List.filter numericTs (seen ++ receivedOn idx es))).
Proof.
  intros Hu. induction es as [|e es IH]; intros st seen Hbuf Hlast.
  - cbn. by rewrite app_nil_r.
  - cbn [mergeRun].
    assert (Hstep :
      Merge.sideBuffers (fst (step_ st e)) !! idx = Some (seen ++ receivedOn idx [e]) /\
      Merge.sideLastUnbounded (fst (step_ st e)) !! idx =
      Some (last (List.filter numericTs (seen ++ receivedOn idx [e])))).
    { destruct e as [o now|i o now].
      - cbn. by rewrite app_nil_r.
      - cbn [mergeStep fst receivedOn omap list_omap]. unfold Merge.pushSide.
        destruct (Nat.eqb_spec i idx) as [->|Hne].
        + rewrite Hu. cbn [Merge.sideBuffers Merge.sideLastUnbounded].
          rewrite list_lookup_alter_eq, Hbuf. split; [reflexivity|].
          rewrite filter_snoc. fold (numericTs o).
          destruct (numericTs o).
          * rewrite last_snoc. apply list_lookup_insert_eq.
            by apply lookup_lt_Some in Hlast.
          * by rewrite app_nil_r.
        + rewrite app_nil_r.
          destruct (default false (allowUnbounded !! i)).
          * cbn [Merge.sideBuffers Merge.sideLastUnbounded].
            rewrite list_lookup_alter_ne by done. split; [exact Hbuf|].
            destruct (String.eqb _ _); [|exact Hlast].
            by rewrite list_lookup_insert_ne.
          * destruct (String.eqb _ _); [|by split].
            cbn [Merge.sideBuffers Merge.sideLastUnbounded].
            by rewrite list_lookup_alter_ne. }
    destruct (step_ st e) as [st1 out1]. cbn [fst] in Hstep.
    destruct Hstep as [Hb1 Hl1].
    specialize (IH st1 _ Hb1 Hl1). cbv zeta in IH.
    destruct (run_ st1 es) as [st2 out2]. cbn [fst] in IH |- *.
    change (e :: es) with ([e] ++ es).
    unfold receivedOn in *. rewrite omap_app, app_assoc. exact IH.
Qed.
End MergeUnboundedFacts.


(** X20.  An unbounded side channel.  After any sequence of records,
    [interpolateSide] returns, for every main timestamp, the last record
    received on the channel whose timestamp is a Number (none if there is no
    such record); and the buffer of the channel holds every record received, as
    it is never trimmed. *)
Theorem unbounded_side_holds_last `{Conversions} (tagEnabled : bool)
    (tolerance maxBuffer : number) (postfixes : list jsval)
    (allowUnbounded : list bool) (sides idx : nat) (es : list mergeEvent)
    (ts : number) :
  idx < sides ->
  default false (allowUnbounded !! idx) = true ->
  let st := fst (mergeRun tagEnabled tolerance maxBuffer postfixes allowUnbounded
                   (mergeInitial sides) es) in
  Merge.interpolateSide tolerance allowUnbounded st idx ts =
  last (List.filter numericTs (receivedOn idx es)) /\
  Merge.sideBuffers st !! idx = Some (receivedOn idx es).
Proof.
  intros Hidx Hu. cbv zeta.
  destruct (run_unbounded tagEnabled tolerance maxBuffer postfixes allowUnbounded
              idx es Hu (mergeInitial sides) [])
    as [Hbuf Hlast].
  - unfold mergeInitial. cbn [Merge.sideBuffers]. by apply lookup_replicate_2.
  - unfold mergeInitial. cbn [Merge.sideLastUnbounded]. by apply lookup_replicate_2.
  - cbn [app] in Hbuf, Hlast. split; [|exact Hbuf].
    unfold Merge.interpolateSide. rewrite Hu, Hlast. reflexivity.
Qed.

(** The statement above on a concrete input. *)
Lemma unbounded_side_holds_last_witness :
  let side (t z : Q) :=
    Rec (<["timestamp" := JNum (Fin t)]> (<["pipeline" := JArr []]> ∅))
        (<["z" := JNum (Fin z)]> ∅) in
  let late := Rec (<["pipeline" := JArr []]> ∅) (<["z" := JNum (Fin 9)]> ∅) in
  Merge.interpolateSide (H := exampleConversions) (Fin 100) [true]
    (fst (mergeRun (H := exampleConversions) true (Fin 100) (Fin 2000) [] [true]
            (mergeInitial 1)
            [SideRecord 0 (side 5%Q 42%Q) 1000000; SideRecord 0 late 1000000]))
    0 (Fin 1000000) =
  Some (side 5%Q 42%Q).
Proof.
  cbv zeta.
  destruct (unbounded_side_holds_last (H := exampleConversions) true (Fin 100)
              (Fin 2000) [] [true] 1 0
              [SideRecord 0 (Rec (<["timestamp" := JNum (Fin 5)]>
                                    (<["pipeline" := JArr []]> ∅))
                                 (<["z" := JNum (Fin 42)]> ∅)) 1000000;
               SideRecord 0 (Rec (<["pipeline" := JArr []]> ∅)
                                 (<["z" := JNum (Fin 9)]> ∅)) 1000000]
              (Fin 1000000)) as [Hside _].
  - lia.
  - reflexivity.
  - rewrite Hside. reflexivity.
Defined.

(** ** Logical delay: conservation *)

(** At a timestamp of the present epoch a delay of a hundred-thousandth of a
    millisecond is lost in the addition: the sum of the two doubles is the
    timestamp. *)
Example delay_absorbed :
  fl_add (Fin 1700000000000) (round64 (1 # 100000)) = Fin 1700000000000.
Proof. vm_compute. reflexivity. Qed.

Section DelayConservation.
Variable tagEnabled : bool.
Variable d : Q.
Import Delay.

#[local] Abbreviation emitItem_ := (emitItem tagEnabled).
#[local] Abbreviation onRecord_ := (onRecord tagEnabled (Fin d)).
#[local] Abbreviation step_ := (step tagEnabled (Fin d)).
#[local] Abbreviation run_ := (run tagEnabled (Fin d)).

End DelayConservation.




(** X22.  With a positive delay, a record whose input timestamp is not
    below the watermark, and for which the sum [tsIn + delayMs] is a double
    (so that the addition of the program is exact, as it is for timestamps
    and delays that are whole milliseconds), is not written by the step that
    receives it: it is in the queue afterwards, and what that step writes are
    items that were queued before, each with an output timestamp at most the
    input timestamp of the new record. *)
Theorem delay_holds_timely_record (tagEnabled : bool) (d : Q)
    (es : list Delay.event) (o : record) (now : Q) :
  let st := fst (Delay.run tagEnabled (Fin d) Delay.initial es) in
  let st' := fst (Delay.step tagEnabled (Fin d) st (Delay.Input o now)) in
  let out := snd (Delay.step tagEnabled (Fin d) st (Delay.Input o now)) in
  Delay.exited st = false ->
  (0 < d)%Q ->
  num_eqb (fl_add (Delay.tsInOf o now) (Fin d))
          (num_add (Delay.tsInOf o now) (Fin d)) = true ->
  num_leb (Delay.watermarkTs st) (Delay.tsInOf o now) = true ->
  delayedItem d (o, now) ∈ Delay.queue st' /\
  exists ready,
    out = map (Delay.emitItem tagEnabled) ready /\
    ready ⊆ Delay.queue st /\
    Forall (fun it => num_leb (Delay.outTs it) (Delay.tsInOf o now) = true) ready.
Proof.
  cbv zeta. intros Hex Hd _ Hle.
  set (st := fst (Delay.run tagEnabled (Fin d) Delay.initial es)) in *.
  assert (Hwf : wellFormed st).
  { apply run_wellFormed. split; constructor. }
  unfold Delay.step. rewrite Hex.
  pose proof (onRecord_spec tagEnabled d st o now Hwf) as Hrec. cbv zeta in Hrec.
  destruct (Delay.onRecord tagEnabled (Fin d) st o now) as [st1 out1].
  destruct Hrec as (ready & Hout & Hperm & _ & _ & Hw & Hready & _ & _).
  cbn [fst snd].
  assert (Hw1 : num_leb (Delay.watermarkTs st1) (Delay.tsInOf o now) = true).
  { rewrite Hw. destruct (num_ltb (Delay.watermarkTs st) (Delay.tsInOf o now));
      [|exact Hle].
    pose proof (tsInOf_finite o now) as Hfin.
    destruct (Delay.tsInOf o now) as [t| |]; try discriminate.
    cbn. apply Qle_bool_iff. apply Qle_refl. }
  assert (Hready' :
    Forall (fun it => num_leb (Delay.outTs it) (Delay.tsInOf o now) = true) ready).
  { eapply Forall_impl; [exact Hready|]. intros it Hit.
    by apply (num_leb_finite_trans _ (Delay.watermarkTs st1)). }
  assert (Hnot : delayedItem d (o, now) ∉ ready).
  { intros Hin. rewrite Forall_forall in Hready'. specialize (Hready' _ Hin).
    unfold delayedItem in Hready'. cbn [Delay.outTs fst snd] in Hready'.
    pose proof (tsInOf_finite o now) as Hfin.
    destruct (Delay.tsInOf o now) as [t| |]; try discriminate.
    cbn in Hready'. apply Qle_bool_iff in Hready'. lra. }
  split.
  - assert (Hin : delayedItem d (o, now) ∈ ready ++ Delay.queue st1).
    { rewrite <- Hperm. apply list_elem_of_here. }
    apply elem_of_app in Hin as [Hin|Hin]; [by destruct Hnot|exact Hin].
  - exists ready. split; [exact Hout|]. split; [|exact Hready'].
    intros it Hit.
    assert (Hin : it ∈ Delay.Item (num_add (Delay.tsInOf o now) (Fin d)) o
                       :: Delay.queue st).
    { rewrite Hperm. apply elem_of_app. by left. }
    apply elem_of_cons in Hin as [->|Hin]; [by destruct Hnot|exact Hin].
Qed.

(** The statement above on a concrete input. *)
Lemma delay_holds_timely_record_witness :
  let o (t : Q) := stamped t (Rec (<["pipeline" := JArr []]> ∅) ∅) in
  delayedItem 50 (o 1010%Q, 0%Q) ∈
  Delay.queue
    (fst (Delay.step true (Fin 50)
            (fst (Delay.run true (Fin 50) Delay.initial [Delay.Input (o 1000%Q) 0]))
            (Delay.Input (o 1010%Q) 0))).
Proof.
  cbv zeta.
  apply (delay_holds_timely_record true 50
           [Delay.Input (stamped 1000 (Rec (<["pipeline" := JArr []]> ∅) ∅)) 0]
           (stamped 1010 (Rec (<["pipeline" := JArr []]> ∅) ∅)) 0).
  - reflexivity.
  - reflexivity.
  - reflexivity.
  - reflexivity.
Defined.

(** ** Dedup: the decision *)

Section DedupDecisionFacts.
Variable tagEnabled : bool.
Variable IGNORE_FIELDS : list string.
Variable CHECK_FIELDS : option (list string).
Variable NUM_TOL : Q.
Import Dedup.

Lemma existsb_true_elem {A} (f : A -> bool) (l : list A) :
  existsb f l = true <-> exists x, x ∈ l /\ f x = true.
Proof.
  rewrite existsb_exists. split; intros (x & Hx & Hf); exists x;
    (split; [by apply list_elem_of_In|done]).
Qed.

Lemma toleranceEqual_fieldChanged (curr last : gmap string jsval) (k : string) :
  readProp curr k = Value (prop curr k) ->
  is_Some (last !! k) ->
  (forall pc, own_props (prop curr k) = Some pc -> pc !! "length" = None) ->
  fieldChanged NUM_TOL curr last k = false ->
  toleranceEqual NUM_TOL (prop curr k) (prop last k) = true.
Proof.
  intros Hread Hin Hlen Hch. unfold fieldChanged in Hch. cbv zeta in Hch.
  rewrite (has_own _ _ Hin), Hread, (readProp_own _ _ Hin) in Hch.
  cbn [negb] in Hch. unfold toleranceEqual.
  destruct (own_props (prop curr k)) as [pc|] eqn:Hc.
  - destruct (own_props (prop last k)) as [pp|] eqn:Hp.
    + assert (primitive (Value (prop curr k)) = false) as Hpc
        by (apply not_true_iff_false; rewrite primitive_own_props; congruence).
      assert (primitive (Value (prop last k)) = false) as Hpp
        by (apply not_true_iff_false; rewrite primitive_own_props; congruence).
      rewrite Hpc, Hpp in Hch. cbn [orb] in Hch.
      rewrite (keysOf_own_props _ _ Hc), (keysOf_own_props _ _ Hp) in Hch.
      destruct (Nat.eqb_spec (size pc) (size pp)) as [Hsize|]; [|discriminate].
      cbn [negb] in Hch.
      rewrite existsb_false in Hch.
      assert (Hsub : forall sub, is_Some (pc !! sub) ->
                is_Some (pp !! sub) /\
                isEqualWithTolerance NUM_TOL (Value (prop pc sub))
                                     (Value (prop pp sub)) = true).
      { intros sub Hs. pose proof Hs as Hkey. apply keys_elem_of, Hch in Hkey.
        destruct (member (Value (prop last k)) sub) as [w|] eqn:Hw; [|discriminate].
        apply negb_false_iff in Hkey.
        destruct (member_inv _ _ _ _ Hp Hw) as [Hown| ->].
        - split; [by eexists|]. unfold prop at 2. by rewrite Hown.
        - rewrite (Hlen pc eq_refl) in Hs. by destruct Hs. }
      assert (Hdom : dom pc = dom pp).
      { apply set_subseteq_size_eq.
        - intros sub Hs. apply elem_of_dom. apply elem_of_dom in Hs.
          by apply Hsub.
        - rewrite !size_dom. lia. }
      apply andb_true_intro. split; [by apply bool_decide_eq_true|].
      apply forallb_forall. intros sub Hs.
      apply list_elem_of_In, elem_of_elements, elem_of_dom in Hs.
      by apply Hsub.
    + assert (primitive (Value (prop last k)) = true) as Hpp
        by (by apply primitive_own_props).
      rewrite Hpp, orb_true_r in Hch. by apply negb_false_iff in Hch.
  - assert (primitive (Value (prop curr k)) = true) as Hpc
      by (by apply primitive_own_props).
    rewrite Hpc in Hch. cbn [orb] in Hch. by apply negb_false_iff in Hch.
Qed.

Lemma computeComparisonFields_elem (curr : gmap string jsval) (k : string) :
  k ∈ computeComparisonFields IGNORE_FIELDS CHECK_FIELDS curr <->
  includes IGNORE_FIELDS k = false /\
  match CHECK_FIELDS with
  | Some fields => k ∈ fields
  | None => is_Some (curr !! k)
  end.
Proof.
  unfold computeComparisonFields.
  rewrite list_elem_of_In, filter_In, negb_true_iff, <- list_elem_of_In.
  destruct CHECK_FIELDS as [fields|]; [tauto|].
  rewrite keys_elem_of. tauto.
Qed.

(** Two reads of an inherited name that is no own property show no change. *)
Lemma fieldChanged_inherited (curr last : gmap string jsval) (k : string) :
  inherited k = true -> curr !! k = None -> last !! k = None ->
  has last k = true /\ fieldChanged NUM_TOL curr last k = false.
Proof.
  intros Hk Hc Hl.
  assert (Hhas : has last k = true) by (unfold has; by rewrite Hk, orb_true_r).
  split; [exact Hhas|].
  unfold fieldChanged. cbv zeta. rewrite Hhas. cbn [negb].
  unfold readProp. rewrite Hc, Hl, Hk. cbn [primitive].
  destruct (String.eqb k "__proto__"); cbn [negb orb].
  - reflexivity.
  - cbn [isEqualWithTolerance identical]. by rewrite String.eqb_refl.
Qed.
End DedupDecisionFacts.


(** X23.  The decision of dedup once a record has been written, for a
    remembered and a current data that are plain objects, compared fields
    none of which is a name that objects inherit from [Object.prototype], and
    values under them that have no own key [length].  A record is dropped
    exactly when every compared field is a key of the remembered data with a
    tolerance-equal value.  The compared fields are the fields of
    [check_fields] when it is given, the keys of the record otherwise, minus
    [ignore_fields]. *)
Theorem dedup_decision_exact (IGNORE_FIELDS : list string)
    (CHECK_FIELDS : option (list string)) (NUM_TOL : Q)
    (rawLast rawCurr : jsval) :
  let last := data (Core.normalizeObject rawLast) in
  let curr := data (Core.normalizeObject rawCurr) in
  plainData rawLast = true ->
  plainData rawCurr = true ->
  (forall k, k ∈ Dedup.computeComparisonFields IGNORE_FIELDS CHECK_FIELDS curr ->
             inherited k = false) ->
  (forall k pc,
     k ∈ Dedup.computeComparisonFields IGNORE_FIELDS CHECK_FIELDS curr ->
     own_props (prop curr k) = Some pc -> pc !! "length" = None) ->
  (Dedup.hasMeaningfulChange IGNORE_FIELDS CHECK_FIELDS NUM_TOL
     (Dedup.State (Some last) true) curr = false <->
   forall k,
     k ∈ Dedup.computeComparisonFields IGNORE_FIELDS CHECK_FIELDS curr ->
     is_Some (last !! k) /\
     toleranceEqual NUM_TOL (prop curr k) (prop last k) = true) /\
  (forall k,
     k ∈ Dedup.computeComparisonFields IGNORE_FIELDS CHECK_FIELDS curr <->
     Dedup.includes IGNORE_FIELDS k = false /\
     match CHECK_FIELDS with
     | Some fields => k ∈ fields
     | None => is_Some (curr !! k)
     end).
Proof.
  intros last curr _ _ Hplain Hlen.
  split; [|apply computeComparisonFields_elem].
  unfold Dedup.hasMeaningfulChange. cbn [Dedup.haveLast Dedup.lastData negb].
  set (fields := Dedup.computeComparisonFields IGNORE_FIELDS CHECK_FIELDS curr) in *.
  split.
  - intros Hno k Hk.
    destruct (existsb (fun k => negb (has last k)) fields) eqn:Hmiss;
      [discriminate|].
    rewrite existsb_false in Hmiss, Hno.
    assert (Hin : is_Some (last !! k)).
    { apply has_spec; [by apply Hplain|].
      specialize (Hmiss k Hk). by apply negb_false_iff in Hmiss. }
    split; [exact Hin|].
    apply toleranceEqual_fieldChanged;
      [apply readProp_not_inherited; by apply Hplain | exact Hin
      | intros pc; by apply Hlen | by apply Hno].
  - intros Hall.
    assert (existsb (fun k => negb (has last k)) fields = false) as ->.
    { apply existsb_false. intros k Hk. apply Hall in Hk as [Hin _].
      by rewrite (has_own _ _ Hin). }
    apply existsb_false. intros k Hk. pose proof (Hplain k Hk) as Hpk.
    apply Hall in Hk as [Hin Heq].
    apply fieldChanged_toleranceEqual; [by apply readProp_not_inherited|done|done].
Qed.

(** The statement above on a concrete input: with tolerance 1, [{a: 1.1}]
    after [{a: 0.1}] is no change, the difference of the two doubles being
    rounded to 1. *)
Lemma dedup_decision_exact_witness :
  let line (a : Q) := JObj (<["data" := JObj (<["a" := JNum (round64 a)]> ∅)]> ∅) in
  Dedup.hasMeaningfulChange [] None 1
    (Dedup.State (Some (data (Core.normalizeObject (line (1 # 10))))) true)
    (data (Core.normalizeObject (line (11 # 10)))) = false.
Proof.
  cbv beta zeta.
  destruct (dedup_decision_exact [] None 1
              (JObj (<["data" := JObj (<["a" := JNum (round64 (1 # 10))]> ∅)]> ∅))
              (JObj (<["data" := JObj (<["a" := JNum (round64 (11 # 10))]> ∅)]> ∅)))
    as [[_ Hback] _].
  - reflexivity.
  - reflexivity.
  - intros k Hk. vm_compute in Hk. apply list_elem_of_singleton in Hk as ->.
    reflexivity.
  - intros k pc Hk. vm_compute in Hk. apply list_elem_of_singleton in Hk as ->.
    vm_compute. discriminate.
  - apply Hback. intros k Hk. vm_compute in Hk.
    apply list_elem_of_singleton in Hk as ->.
    split; [vm_compute; by eexists|]. vm_compute. reflexivity.
Defined.

Section DedupAbsentField.
Variable tagEnabled : bool.
Variable IGNORE_FIELDS : list string.
Variable NUM_TOL : Q.

Lemma includes_false_filter (fields : list string) (k : string) :
  k ∈ fields -> Dedup.includes IGNORE_FIELDS k = false ->
  k ∈ List.filter (fun k => negb (Dedup.includes IGNORE_FIELDS k)) fields.
Proof.
  intros Hk Hign. apply list_elem_of_In, filter_In.
  split; [by apply list_elem_of_In|by rewrite Hign].
Qed.

Lemma run_absent_field (fields : list string) (k : string) (os : list record) :
  k ∈ fields -> Dedup.includes IGNORE_FIELDS k = false ->
  inherited k = false ->
  Forall (fun o => data o !! k = None) os ->
  forall st,
    (Dedup.haveLast st = true ->
     exists last, Dedup.lastData st = Some last /\ last !! k = None) ->
    snd (dedupRun tagEnabled IGNORE_FIELDS (Some fields) NUM_TOL st os) =
    map (fun o => Stream.safeWrite
                    (Rec (Core.appendTag tagEnabled (meta o) "dup") (data o))) os.
Proof.
  intros Hk Hign Hplain Hall. induction Hall as [|o os Ho Hall IH]; intros st Hst.
  - reflexivity.
  - cbn [dedupRun map]. unfold Dedup.onRecord.
    assert (Hchange : Dedup.hasMeaningfulChange IGNORE_FIELDS (Some fields) NUM_TOL
                        st (data o) = true).
    { unfold Dedup.hasMeaningfulChange.
      destruct (Dedup.haveLast st) eqn:Hhave; [|reflexivity]. cbn [negb].
      destruct (Hst eq_refl) as (last & -> & Hlast).
      assert (existsb (fun k => negb (has last k))
                (Dedup.computeComparisonFields IGNORE_FIELDS (Some fields) (data o))
              = true) as ->; [|reflexivity].
      apply existsb_exists. exists k. split.
      - apply list_elem_of_In. by apply includes_false_filter.
      - apply negb_true_iff. apply not_true_iff_false.
        rewrite (has_spec _ _ Hplain), Hlast. by intros [? ?]. }
    rewrite Hchange. cbn [negb].
    specialize (IH (Dedup.State (Some (data o)) true)).
    destruct (dedupRun _ _ _ _ _ os) as [st2 out2]. cbn [snd app] in IH |- *.
    rewrite IH; [reflexivity|]. intros _. by exists (data o).
Qed.

(** Once a record is remembered, records that lack every compared field are
    dropped when these fields are all inherited names. *)
Lemma run_inherited_fields (fields : list string) (os : list record) :
  (forall k, k ∈ fields -> Dedup.includes IGNORE_FIELDS k = false ->
             inherited k = true) ->
  Forall (fun o => forall k, k ∈ fields -> data o !! k = None) os ->
  forall last,
    (forall k, k ∈ fields -> last !! k = None) ->
    dedupRun tagEnabled IGNORE_FIELDS (Some fields) NUM_TOL
      (Dedup.State (Some last) true) os =
    (Dedup.State (Some last) true, []).
Proof.
  intros Hinh Hall last Hlast. induction Hall as [|o os Ho Hall IH]; [reflexivity|].
  cbn [dedupRun]. unfold Dedup.onRecord.
  assert (Hfields : forall k,
            k ∈ Dedup.computeComparisonFields IGNORE_FIELDS (Some fields) (data o) ->
            has last k = true /\
            Dedup.fieldChanged NUM_TOL (data o) last k = false).
  { intros k Hk. unfold Dedup.computeComparisonFields in Hk.
    apply list_elem_of_In, filter_In in Hk as [Hk Hign].
    apply list_elem_of_In in Hk. apply negb_true_iff in Hign.
    apply fieldChanged_inherited; [by apply Hinh|by apply Ho|by apply Hlast]. }
  assert (Dedup.hasMeaningfulChange IGNORE_FIELDS (Some fields) NUM_TOL
            (Dedup.State (Some last) true) (data o) = false) as ->.
  { unfold Dedup.hasMeaningfulChange. cbn [Dedup.haveLast Dedup.lastData negb].
    assert (existsb (fun k => negb (has last k))
              (Dedup.computeComparisonFields IGNORE_FIELDS (Some fields) (data o))
            = false) as ->.
    { apply existsb_false. intros k Hk. apply Hfields in Hk as [-> _]. reflexivity. }
    apply existsb_false. intros k Hk. by apply Hfields. }
  cbn [negb]. by rewrite IH.
Qed.
End DedupAbsentField.


(** X24.  When [check_fields] names a field that is not ignored, that no
    record carries and that is not a name inherited from [Object.prototype],
    dedup writes every record, for records whose data are plain objects: the
    field is never found in the remembered data, which counts as a change
    each time. *)
Theorem dedup_absent_check_field_passes_all (tagEnabled : bool)
    (IGNORE_FIELDS fields : list string) (NUM_TOL : Q) (k : string)
    (raws : list jsval) :
  let os := map Core.normalizeObject raws in
  Forall (fun raw => plainData raw = true) raws ->
  k ∈ fields -> Dedup.includes IGNORE_FIELDS k = false ->
  inherited k = false ->
  Forall (fun o => data o !! k = None) os ->
  snd (dedupRun tagEnabled IGNORE_FIELDS (Some fields) NUM_TOL Dedup.initial os) =
  map (fun o => Stream.safeWrite
                  (Rec (Core.appendTag tagEnabled (meta o) "dup") (data o))) os /\
  map data
      (snd (dedupRun tagEnabled IGNORE_FIELDS (Some fields) NUM_TOL Dedup.initial os)) =
  map data os.
Proof.
  intros os _ Hk Hign Hplain Hall.
  rewrite (run_absent_field tagEnabled IGNORE_FIELDS NUM_TOL fields k os
             Hk Hign Hplain Hall).
  - split; [reflexivity|]. rewrite map_map. apply map_ext. intros o.
    by rewrite safeWrite_spec.
  - discriminate.
Qed.

(** The statement above on a concrete input. *)
Lemma dedup_absent_check_field_passes_all_witness :
  let line := JObj (<["data" := JObj (<["a" := JNum (Fin 1)]> ∅)]> ∅) in
  let os := map Core.normalizeObject [line; line; line] in
  map data (snd (dedupRun true [] (Some ["temp"]) 0 Dedup.initial os)) =
  map data os.
Proof.
  cbv zeta.
  apply (dedup_absent_check_field_passes_all true [] ["temp"] 0 "temp"
           (let line := JObj (<["data" := JObj (<["a" := JNum (Fin 1)]> ∅)]> ∅) in
            [line; line; line])).
  - repeat constructor.
  - apply list_elem_of_here.
  - reflexivity.
  - reflexivity.
  - repeat constructor.
Defined.


(** X30.  When every compared field of [check_fields] is a name that
    objects inherit from [Object.prototype], such as [toString], and no
    record has it as an own key, dedup writes the first record and drops all
    that follow, whatever their data, for records whose data are plain
    objects: the [in] test finds the name in the remembered data, and the two
    inherited members are identical. *)
Theorem dedup_inherited_check_fields_drop (tagEnabled : bool)
    (IGNORE_FIELDS fields : list string) (NUM_TOL : Q)
    (raw : jsval) (raws : list jsval) :
  let o := Core.normalizeObject raw in
  let os := map Core.normalizeObject raws in
  Forall (fun raw => plainData raw = true) (raw :: raws) ->
  (forall k, k ∈ fields -> Dedup.includes IGNORE_FIELDS k = false ->
             inherited k = true) ->
  Forall (fun o' => forall k, k ∈ fields -> data o' !! k = None) (o :: os) ->
  snd (dedupRun tagEnabled IGNORE_FIELDS (Some fields) NUM_TOL Dedup.initial
         (o :: os)) =
  [Stream.safeWrite (Rec (Core.appendTag tagEnabled (meta o) "dup") (data o))].
Proof.
  intros o os _ Hinh Hall. apply Forall_cons in Hall as [Ho Hos].
  cbn [dedupRun]. unfold Dedup.onRecord at 1.
  cbn [Dedup.hasMeaningfulChange Dedup.initial Dedup.haveLast negb].
  rewrite (run_inherited_fields tagEnabled IGNORE_FIELDS NUM_TOL fields os
             Hinh Hos (data o) Ho).
  reflexivity.
Qed.

(** The statement above on a concrete input. *)
Lemma dedup_inherited_check_fields_drop_witness :
  let line (a : Q) := JObj (<["data" := JObj (<["a" := JNum (Fin a)]> ∅)]> ∅) in
  map data
      (snd (dedupRun true [] (Some ["toString"]) 0 Dedup.initial
              (map Core.normalizeObject [line 1%Q; line 2%Q; line 3%Q]))) =
  [<["a" := JNum (Fin 1)]> ∅].
Proof.
  cbv beta zeta. change (map Core.normalizeObject (?a :: ?l))
    with (Core.normalizeObject a :: map Core.normalizeObject l).
  rewrite (dedup_inherited_check_fields_drop true [] ["toString"] 0
             (JObj (<["data" := JObj (<["a" := JNum (Fin 1)]> ∅)]> ∅))
             [JObj (<["data" := JObj (<["a" := JNum (Fin 2)]> ∅)]> ∅);
              JObj (<["data" := JObj (<["a" := JNum (Fin 3)]> ∅)]> ∅)]).
  - vm_compute. reflexivity.
  - repeat constructor.
  - intros k Hk _. apply list_elem_of_singleton in Hk as ->. reflexivity.
  - repeat constructor; intros k Hk; apply list_elem_of_singleton in Hk as ->;
      reflexivity.
Defined.

(** ** Reducer: rules and retained state *)

Section ReduceFrameFacts.
Variable tagEnabled : bool.
Variable rules : list (string * jsval).
Variable passes : nat.
Variable missingMode : string.
Variable forwardPolicy : string.
Variable computeOutput : string -> jsval -> gmap string jsval -> string -> jsval.
Import Reduce.

#[local] Abbreviation sweep_ := (sweep missingMode computeOutput).
#[local] Abbreviation sweeps_ := (sweeps rules missingMode computeOutput).
#[local] Abbreviation onRecord_ :=
  (onRecord tagEnabled rules passes missingMode forwardPolicy computeOutput).
#[local] Abbreviation run_ :=
  (reduceRun tagEnabled rules passes missingMode forwardPolicy computeOutput).

Lemma includes_app_r (sub a b : string) :
  includes sub b = true -> includes sub (a +:+ b) = true.
Proof.
  intros Hb. induction a as [|c a IH]; [exact Hb|].
  change (String c a +:+ b) with (String c (a +:+ b)).
  cbn [includes]. rewrite IH. apply orb_true_r.
Qed.

Lemma includes_prev (name : string) : includes "__" (name +:+ "__prev") = true.
Proof. by apply includes_app_r. Qed.


Lemma prev_ne (name k : string) : includes "__" k = false -> name +:+ "__prev" ≠ k.
Proof. intros Hk <-. by rewrite includes_prev in Hk. Qed.

Lemma ensurePrevInitialized_frame (name k : string) (wd : gmap string jsval) :
  includes "__" k = false ->
  ensurePrevInitialized missingMode name wd !! k = wd !! k.
Proof.
  intros Hk. unfold ensurePrevInitialized.
  destruct (wd !! (name +:+ "__prev")); [reflexivity|].
  destruct (wd !! name).
  - rewrite lookup_insert_ne; [reflexivity|by apply prev_ne].
  - destruct (String.eqb missingMode "zero"); [|reflexivity].
    rewrite lookup_insert_ne; [reflexivity|by apply prev_ne].
Qed.

Lemma sweep_frame (rs : list (string * jsval)) (k : string) :
  includes "__" k = false -> k ∉ map fst rs ->
  forall wd ret wd' ret',
    sweep_ rs wd ret = (Some wd', ret') -> wd' !! k = wd !! k.
Proof.
  intros Hk. induction rs as [|[name rule] rs IH]; intros Hnot wd ret wd' ret' Hs.
  - cbn in Hs. by injection Hs as <- <-.
  - cbn [map fst] in Hnot. apply not_elem_of_cons in Hnot as [Hne Hnot].
    cbn [sweep] in Hs.
    destruct (isRule rule); cbn [negb] in Hs; [|by apply (IH Hnot) in Hs].
    destruct (is_null _ && _); [discriminate|].
    destruct (ruleFlag rule "retain").
    + apply (IH Hnot) in Hs. rewrite Hs, ensurePrevInitialized_frame by done.
      by rewrite lookup_insert_ne.
    + apply (IH Hnot) in Hs. rewrite Hs. by rewrite lookup_insert_ne.
Qed.

Lemma sweep_internal (rs : list (string * jsval)) :
  forall wd ret wd' ret',
    sweep_ rs wd ret = (wd', ret') -> internalKeys ret -> internalKeys ret'.
Proof.
  induction rs as [|[name rule] rs IH]; intros wd ret wd' ret' Hs Hint.
  - cbn in Hs. by injection Hs as <- <-.
  - cbn [sweep] in Hs.
    destruct (isRule rule); cbn [negb] in Hs; [|by eapply IH].
    destruct (is_null _ && _); [by injection Hs as <- <-|].
    destruct (ruleFlag rule "retain"); [|by eapply IH].
    eapply IH; [exact Hs|]. intros k Hsome.
    destruct (decide (name +:+ "__prev" = k)) as [<-|Hne]; [apply includes_prev|].
    rewrite lookup_insert_ne in Hsome by done. by apply Hint.
Qed.

Lemma sweeps_frame (n : nat) (k : string) :
  includes "__" k = false -> k ∉ map fst rules ->
  forall wd ret wd' ret',
    sweeps_ n wd ret = (Some wd', ret') -> wd' !! k = wd !! k.
Proof.
  intros Hk Hnot. induction n as [|n IH]; intros wd ret wd' ret' Hs.
  - cbn in Hs. by injection Hs as <- <-.
  - cbn [sweeps] in Hs. destruct (sweep_ rules wd ret) as [[wd1|] ret1] eqn:H1;
      [|discriminate].
    apply IH in Hs. rewrite Hs. by eapply sweep_frame.
Qed.

Lemma sweeps_internal (n : nat) :
  forall wd ret wd' ret',
    sweeps_ n wd ret = (wd', ret') -> internalKeys ret -> internalKeys ret'.
Proof.
  induction n as [|n IH]; intros wd ret wd' ret' Hs Hint.
  - cbn in Hs. by injection Hs as <- <-.
  - cbn [sweeps] in Hs. destruct (sweep_ rules wd ret) as [[wd1|] ret1] eqn:H1.
    + eapply IH; [exact Hs|]. by eapply sweep_internal.
    + injection Hs as <- <-. by eapply sweep_internal.
Qed.

Lemma onRecord_internal (st : state) (o : record) (now : Q) :
  internalKeys (retained st) -> internalKeys (retained (fst (onRecord_ st o now))).
Proof.
  intros Hint. unfold onRecord.
  destruct (sweeps_ passes _ _) as [[wd|] ret] eqn:Hs; cbn [fst retained];
    by eapply sweeps_internal.
Qed.

Lemma run_internal (inputs : list (record * Q)) :
  forall st, internalKeys (retained st) ->
             internalKeys (retained (fst (run_ st inputs))).
Proof.
  induction inputs as [|[o now] inputs IH]; intros st Hint; [exact Hint|].
  cbn [reduceRun].
  pose proof (onRecord_internal st o now Hint) as H1.
  destruct (onRecord_ st o now) as [st1 out1]. cbn [fst] in H1.
  specialize (IH st1 H1). destruct (run_ st1 inputs) as [st2 out2]. exact IH.
Qed.

Lemma markedTemp_not_rule (k : string) :
  k ∉ map fst rules -> markedTemp rules k = false.
Proof.
  intros Hnot. unfold markedTemp. apply existsb_false. intros [name rule] Hin.
  destruct (String.eqb_spec name k) as [->|]; [|reflexivity].
  destruct Hnot. apply list_elem_of_fmap. by exists (k, rule).
Qed.

Lemma seed_lookup (st : state) (o : record) (now : Q) (k : string) :
  includes "__" k = false ->
  seedWorkingData st o now !! k = (data o ∪ retained st) !! k.
Proof.
  intros Hk. unfold seedWorkingData.
  rewrite !lookup_insert_ne; [reflexivity| | |]; by intros <-.
Qed.
End ReduceFrameFacts.


(** X25.  In any state the reducer reaches from start-up, a key that is
    not the name of a rule and does not contain ["__"] goes through a written
    record as the input has it (present with its value, or absent), unless
    [forward_policy] is ["known"], where it is never written. *)
Theorem reducer_passes_input_keys (tagEnabled : bool)
    (rules : list (string * jsval)) (passes : nat)
    (missingMode forwardPolicy : string)
    (computeOutput : string -> jsval -> gmap string jsval -> string -> jsval)
    (history : list (record * Q)) (o out : record) (now : Q) (k : string) :
  let st := fst (reduceRun tagEnabled rules passes missingMode forwardPolicy
                   computeOutput Reduce.initial history) in
  snd (Reduce.onRecord tagEnabled rules passes missingMode forwardPolicy
         computeOutput st o now) = [out] ->
  Reduce.includes "__" k = false ->
  k ∉ map fst rules ->
  data out !! k = (if String.eqb forwardPolicy "known" then None else data o !! k).
Proof.
  cbv zeta. intros Hout Hk Hnot.
  set (st := fst (reduceRun _ _ _ _ _ _ _ history)) in *.
  assert (Hint : internalKeys (Reduce.retained st)).
  { apply run_internal. intros k' [v Hv]. cbn in Hv. by rewrite lookup_empty in Hv. }
  rewrite onRecord_emits in Hout.
  destruct (Reduce.sweeps rules missingMode computeOutput passes
              (Reduce.seedWorkingData st o now) (Reduce.retained st))
    as [[wd|] ret] eqn:Hs; cbn [fst] in Hout; [|discriminate].
  injection Hout as <-. rewrite safeWrite_spec. cbn [data].
  assert (Hwd : wd !! k = data o !! k).
  { rewrite (sweeps_frame rules missingMode computeOutput passes k Hk Hnot _ _ _ _ Hs).
    rewrite seed_lookup by done. rewrite lookup_union.
    destruct (Reduce.retained st !! k) eqn:Hr.
    - assert (Reduce.includes "__" k = true) by (apply Hint; by eexists). congruence.
    - by destruct (data o !! k). }
  apply option_eq. intros v.
  rewrite forward_lookup, Hwd.
  destruct (String.eqb_spec forwardPolicy "known") as [->|Hpol].
  - split; [|discriminate]. intros (_ & _ & _ & Hknown). destruct Hnot. by apply Hknown.
  - split; [by intros [? _]|]. intros Hv. split; [exact Hv|]. split; [exact Hk|].
    split; [by apply markedTemp_not_rule|]. by intros ->.
Qed.

(** The statement above on a concrete input. *)
Lemma reducer_passes_input_keys_witness :
  let rules : list (string * jsval) := [("total", JObj (<["op" := JStr "sum"]> ∅))] in
  let compute := fun (_ : string) (_ : jsval) (_ : gmap string jsval) (_ : string) =>
                   JNum (Fin 3) in
  let o := Rec (<["pipeline" := JArr []]> ∅) (<["a" := JNum (Fin 1)]> ∅) in
  exists out,
    snd (Reduce.onRecord true rules 1 "ignore" "all" compute Reduce.initial o 0) = [out] /\
    data out !! "a" = Some (JNum (Fin 1)).
Proof.
  cbv zeta. eexists. split; [reflexivity|].
  assert (Hnot : "a" ∉ map fst [("total", JObj (<["op" := JStr "sum"]> ∅))]).
  { intros Hin. apply list_elem_of_singleton in Hin. discriminate. }
  match goal with
  | |- data ?out !! _ = _ =>
      exact (reducer_passes_input_keys true
               [("total", JObj (<["op" := JStr "sum"]> ∅))] 1 "ignore" "all"
               (fun _ _ _ _ => JNum (Fin 3)) []
               (Rec (<["pipeline" := JArr []]> ∅) (<["a" := JNum (Fin 1)]> ∅))
               out 0 "a" eq_refl eq_refl Hnot)
  end.
Defined.

Section ReduceRuleFacts.
Variable tagEnabled : bool.
Variable rules : list (string * jsval).
Variable passes : nat.
Variable missingMode : string.
Variable forwardPolicy : string.
Variable computeOutput : string -> jsval -> gmap string jsval -> string -> jsval.
Import Reduce.

#[local] Abbreviation sweep_ := (sweep missingMode computeOutput).
#[local] Abbreviation sweeps_ := (sweeps rules missingMode computeOutput).





End ReduceRuleFacts.




(** A record whose data holds NaN under [q], an infinity under [s] and
    [undefined] under [u] is written with [null] under [q] and [s] and
    without [u]. *)
Example ndjsonLine_not_finite :
  data (Stream.ndjsonLine
          (Rec (<["pipeline" := JArr []]> ∅)
               (<["q" := JNum NaN]>
                  (<["s" := JNum (Inf false)]> (<["u" := JUndef]> ∅))))) =
  <["q" := JNull]> (<["s" := JNull]> ∅).
Proof. vm_compute. reflexivity. Qed.

(** ** Reducer rules and channel policy lists *)

Section CollectFacts.
Context `{Conversions}.



End CollectFacts.




Section PolicySpecFacts.
Context `{Conversions}.
Variable trim : string -> string.
Variable toLowerCase : string -> string.

Lemma split_app (sep : ascii) (a b : string) :
  Layers.split sep (a +:+ String sep b) = Layers.split sep a ++ Layers.split sep b.
Proof.
  induction a as [|c a IH].
  - change (EmptyString +:+ String sep b) with (String sep b).
    cbn [Layers.split app]. by rewrite Ascii.eqb_refl.
  - change (String c a +:+ String sep b) with (String c (a +:+ String sep b)).
    cbn [Layers.split]. rewrite IH.
    pose proof (split_nonempty sep a) as Hne.
    destruct (Ascii.eqb c sep); [reflexivity|].
    by destruct (Layers.split sep a).
Qed.

Lemma parsePart_dom (m : gmap string bool) (part : string) :
  dom m ⊆ dom (PolicySpec.parsePart trim toLowerCase m part).
Proof.
  unfold PolicySpec.parsePart. cbv zeta.
  destruct (String.eqb (trim part) EmptyString); [done|].
  destruct (Layers.split "=" (trim part)) as [|rawName rest]; [done|].
  destruct (String.eqb (if String.eqb rawName EmptyString then rawName
                        else trim rawName) EmptyString); [done|].
  destruct (match rest with
            | [] => Some true
            | rawVal :: _ => PolicySpec.parseBooleanLike toLowerCase (JStr (trim rawVal))
            end); [|done].
  rewrite dom_insert. set_solver.
Qed.
End PolicySpecFacts.


(** X8.  [parseSpec] reads its comma-separated list from left to
    right: the map for [a + "," + b] is the map for [b] computed on top of the
    map for [a], so a later entry for the same channel replaces an earlier one;
    and no entry ever removes a channel from the map. *)
Theorem parseSpec_sequential `{Conversions} (trim toLowerCase : string -> string)
    (a b : string) (targetMap : gmap string bool) :
  a ≠ EmptyString -> b ≠ EmptyString ->
  PolicySpec.parseSpec trim toLowerCase (JStr (a +:+ "," +:+ b)) targetMap =
  PolicySpec.parseSpec trim toLowerCase (JStr b)
    (PolicySpec.parseSpec trim toLowerCase (JStr a) targetMap) /\
  dom targetMap ⊆ dom (PolicySpec.parseSpec trim toLowerCase (JStr a) targetMap).
Proof.
  intros Ha Hb. destruct a as [|ca a]; [done|]. destruct b as [|cb b]; [done|].
  split.
  - unfold PolicySpec.parseSpec.
    change (String ca a +:+ "," +:+ String cb b)
      with (String ca (a +:+ String "," (String cb b))).
    change (String ca (a +:+ String "," (String cb b)))
      with (String ca a +:+ String "," (String cb b)).
    assert (Hshape : exists c s, String ca a +:+ String "," (String cb b) = String c s)
      by (by exists ca, (a +:+ String "," (String cb b))).
    destruct Hshape as (c & s & Hs). rewrite Hs, <- Hs.
    by rewrite split_app, fold_left_app.
  - unfold PolicySpec.parseSpec.
    generalize (Layers.split "," (String ca a)). intros parts. revert targetMap.
    induction parts as [|part parts IH]; intros targetMap; [done|].
    cbn [fold_left]. etrans; [|apply IH]. apply parsePart_dom.
Qed.

(** The statement above on a concrete input. *)
Lemma parseSpec_sequential_witness :
  PolicySpec.parseSpec (H := exampleConversions) asciiTrim asciiLower
    (JStr "stdout=false, side=ON") ∅ =
  <["side" := true]> (<["stdout" := false]> ∅).
Proof.
  destruct (parseSpec_sequential (H := exampleConversions) asciiTrim asciiLower
              "stdout=false" " side=ON" ∅) as [Hseq _];
    [discriminate|discriminate|].
  etrans; [exact Hseq|]. reflexivity.
Defined.

(** ** Gate *)

Section GateFacts.
Context `{Conversions}.
Variable tagEnabled : bool.
Variable normalizedBlocks : list Gate.block.
Import Gate.

#[local] Abbreviation onRecord_ := (onRecord tagEnabled normalizedBlocks).
#[local] Abbreviation run_ := (run tagEnabled normalizedBlocks).
#[local] Abbreviation satisfied_ := (allBlocksSatisfied normalizedBlocks).

#[local] Abbreviation forwarded := (gateForwarded tagEnabled).

Lemma run_activated (inputs : list (record * (nat -> Q))) :
  run_ (State true) inputs = (State true, map forwarded inputs).
Proof.
  induction inputs as [|[o nows] inputs IH]; [reflexivity|].
  cbn [run map]. unfold onRecord at 1. cbn [activated negb]. by rewrite IH.
Qed.

Lemma run_latch (inputs : list (record * (nat -> Q))) :
  exists pre post,
    inputs = pre ++ post /\
    Forall (fun r => satisfied_ (fst r) (snd r) = false) pre /\
    match post with
    | [] => True
    | r :: _ => satisfied_ (fst r) (snd r) = true
    end /\
    run_ initial inputs =
    (State (match post with [] => false | _ :: _ => true end), map forwarded post).
Proof.
  induction inputs as [|[o nows] inputs IH].
  - exists [], []. repeat split; constructor.
  - cbn [run]. unfold onRecord at 1. cbn [activated initial negb].
    destruct (satisfied_ o nows) eqn:Hsat.
    + exists [], ((o, nows) :: inputs). split; [reflexivity|].
      split; [constructor|]. split; [exact Hsat|].
      by rewrite run_activated.
    + destruct IH as (pre & post & -> & Hpre & Hpost & Hrun).
      exists ((o, nows) :: pre), post. split; [reflexivity|].
      split; [by constructor|]. split; [exact Hpost|].
      fold initial. by rewrite Hrun.
Qed.
End GateFacts.


(** X28.  The gate latches.  The input splits into the records before
    the first one that satisfies all blocks, for which nothing is written, and
    that record and all that follow, each of which is written once, in order,
    with its data unchanged, whether or not it satisfies the blocks. *)
Theorem gate_latches `{Conversions} (tagEnabled : bool)
    (normalizedBlocks : list Gate.block) (inputs : list (record * (nat -> Q))) :
  exists pre post,
    inputs = pre ++ post /\
    Forall (fun r => Gate.allBlocksSatisfied normalizedBlocks (fst r) (snd r) = false)
           pre /\
    match post with
    | [] => True
    | r :: _ => Gate.allBlocksSatisfied normalizedBlocks (fst r) (snd r) = true
    end /\
    snd (Gate.run tagEnabled normalizedBlocks Gate.initial inputs) =
    map (gateForwarded tagEnabled) post /\
    map data (snd (Gate.run tagEnabled normalizedBlocks Gate.initial inputs)) =
    map (fun r => data (fst r)) post /\
    Gate.activated (fst (Gate.run tagEnabled normalizedBlocks Gate.initial inputs)) =
    match post with
    | [] => false
    | _ :: _ => true
    end.
Proof.
  destruct (run_latch tagEnabled normalizedBlocks inputs)
    as (pre & post & Heq & Hpre & Hpost & Hrun).
  exists pre, post. rewrite Hrun. cbn [fst snd Gate.activated].
  repeat (split; [done|]). split; [|reflexivity].
  rewrite map_map. apply map_ext. intros r. unfold gateForwarded.
  by rewrite safeWrite_spec.
Qed.

Section GateBlockFacts.
Context `{Conversions}.
Import Gate.

Lemma map_fold_andb (P : string -> jsval -> bool) (m : gmap string jsval) :
  map_fold (fun k v acc => acc && P k v) true m = true <->
  forall k v, m !! k = Some v -> P k v = true.
Proof.
  induction m as [|k v m Hk Hfold IH] using map_first_key_ind.
  - rewrite map_fold_empty. split; [|done]. intros _ k v Hkv.
    by rewrite lookup_empty in Hkv.
  - rewrite map_fold_insert_first_key by done.
    rewrite andb_true_iff, IH. split.
    + intros [Hm Hv] k' v' Hkv.
      destruct (decide (k = k')) as [<-|Hne].
      * rewrite lookup_insert_eq in Hkv. by injection Hkv as <-.
      * rewrite lookup_insert_ne in Hkv by done. by apply Hm.
    + intros Hall. split.
      * intros k' v' Hkv. apply Hall. rewrite lookup_insert_ne; [done|].
        intros <-. congruence.
      * apply Hall. apply lookup_insert_eq.
Qed.
End GateBlockFacts.


(** X29.  The activation conditions of one block, for a record whose
    data is a plain object.  [blockSatisfied]
    holds exactly when every [must_have] field is an own key of the data
    with a value other than [null] and [undefined], or is no own key but a
    name that objects inherit from [Object.prototype]; every [min_values]
    field holds a Number that is not below its bound; every [bool_equal]
    field required to be [true] is [true], and every one required to be
    [false] is [false] or absent; every [str_equal] field is present and
    strictly equal to the expected value; and, with [max_age_ms], the
    timestamp is a Number whose age [Date.now() - ts], as a double, does not
    exceed the bound. *)
Theorem blockSatisfied_exact `{Conversions} (b : Gate.block) (raw : jsval) (now : Q) :
  let obj := Core.normalizeObject raw in
  plainData raw = true ->
  Gate.blockSatisfied b obj now = true <->
  (forall k, k ∈ Gate.mustHave b ->
     match data obj !! ToString k with
     | Some v => v ≠ JNull /\ v ≠ JUndef
     | None => inherited (ToString k) = true
     end) /\
  (forall k minV, Gate.minValues b !! k = Some minV ->
     exists n, data obj !! k = Some (JNum n) /\ js_lt (JNum n) minV = false) /\
  (forall field, Gate.boolEqual b !! field = Some (JBool true) ->
     data obj !! field = Some (JBool true)) /\
  (forall field, Gate.boolEqual b !! field = Some (JBool false) ->
     data obj !! field = None \/ data obj !! field = Some (JBool false)) /\
  (forall field expected, Gate.strEqual b !! field = Some expected ->
     exists v, data obj !! field = Some v /\ Dedup.strictEq v expected = true) /\
  (forall maxAge, Gate.maxAgeMs b = Some maxAge ->
     exists ts, prop (meta obj) "timestamp" = JNum ts /\
                num_ltb maxAge (fl_sub (Fin now) ts) = false).
Proof.
  intros obj _. clearbody obj.
  unfold Gate.blockSatisfied, Gate.booleanCheck, Gate.stringEqualCheck. cbv zeta.
  rewrite !andb_true_iff, forallb_forall, !map_fold_andb.
  assert (Hhas : forall k, hasOwn (data obj) k = true <-> is_Some (data obj !! k))
    by (intros k; apply hasOwn_spec).
  assert (Hmust : forall key,
            has (data obj) key &&
            negb (match readProp (data obj) key with
                  | Value JNull | Value JUndef => true
                  | _ => false
                  end) = true <->
            match data obj !! key with
            | Some v => v ≠ JNull /\ v ≠ JUndef
            | None => inherited key = true
            end).
  { intros key. unfold has, hasOwn, readProp.
    destruct (data obj !! key) as [v|] eqn:Hv.
    - rewrite bool_decide_eq_true_2 by (by eexists). cbn [orb andb].
      destruct v; cbn; split; try done; intros [? ?]; done.
    - rewrite bool_decide_eq_false_2 by (by intros [? ?]). cbn [orb].
      destruct (inherited key); cbn; split; done. }
  split.
  - intros ((((Hm & Hmin) & Hbool) & Hstr) & Hage).
    split; [|split; [|split; [|split; [|split]]]].
    + intros k Hk. apply list_elem_of_In, Hm in Hk. by apply Hmust.
    + intros k minV Hk. specialize (Hmin k minV Hk).
      apply negb_true_iff, orb_false_iff in Hmin as [Hty Hlt].
      apply negb_false_iff in Hty. unfold prop in *.
      destruct (data obj !! k) as [[| | |n| | |]|]; try discriminate.
      by exists n.
    + intros field Hf. specialize (Hbool field _ Hf). cbn in Hbool.
      apply andb_true_iff in Hbool as [Hin Hv]. apply Hhas in Hin as [v Hv'].
      unfold prop in Hv. rewrite Hv' in Hv. cbn in Hv.
      by destruct v as [| |[|]| | | |].
    + intros field Hf. specialize (Hbool field _ Hf). cbn in Hbool.
      apply negb_true_iff in Hbool.
      destruct (data obj !! field) as [v|] eqn:Hv; [|by left]. right.
      assert (Hin : hasOwn (data obj) field = true) by (apply Hhas; by eexists).
      rewrite Hin in Hbool. cbn in Hbool. apply negb_false_iff in Hbool.
      unfold prop in Hbool. rewrite Hv in Hbool. cbn in Hbool.
      by destruct v as [| |[|]| | | |].
    + intros field expected Hf. specialize (Hstr field _ Hf).
      apply andb_true_iff in Hstr as [Hin Hv]. apply Hhas in Hin as [v Hv'].
      exists v. split; [exact Hv'|]. unfold prop in Hv. by rewrite Hv' in Hv.
    + intros maxAge Hm'. rewrite Hm' in Hage.
      destruct (prop (meta obj) "timestamp") as [| | |ts| | |]; try discriminate.
      exists ts. split; [reflexivity|]. by apply negb_true_iff.
  - intros (Hm & Hmin & Htrue & Hfalse & Hstr & Hage).
    split; [split; [split; [split|]|]|].
    + intros k Hk. apply Hmust. apply Hm. by apply list_elem_of_In.
    + intros k minV Hk. destruct (Hmin k minV Hk) as (n & Hn & Hlt).
      unfold prop. rewrite Hn. cbn [default from_option id typeof].
      by rewrite Hlt.
    + intros field target Hf. destruct target as [| |[|]| | | |]; try reflexivity.
      * specialize (Htrue field Hf). apply andb_true_iff.
        split; [apply Hhas; by eexists|]. unfold prop. by rewrite Htrue.
      * apply negb_true_iff. destruct (Hfalse field Hf) as [Hnone|Hsome].
        -- assert (hasOwn (data obj) field = false) as ->; [|reflexivity].
           apply not_true_iff_false. rewrite Hhas, Hnone. by intros [? ?].
        -- unfold prop. rewrite Hsome. cbn. apply andb_false_r.
    + intros field expected Hf. destruct (Hstr field expected Hf) as (v & Hv & Heq).
      apply andb_true_iff. split; [apply Hhas; by eexists|].
      unfold prop. by rewrite Hv.
    + destruct (Gate.maxAgeMs b) as [maxAge|]; [|reflexivity].
      destruct (Hage maxAge eq_refl) as (ts & -> & Hlt). by rewrite Hlt.
Qed.

(** The statement above on a concrete input: a block with
    [must_have: ["toString"]] is satisfied by a record with no data at all. *)
Lemma blockSatisfied_exact_witness :
  Gate.blockSatisfied (H := exampleConversions)
    (Gate.Block [JStr "toString"] ∅ ∅ ∅ None (Fin 2000))
    (Core.normalizeObject (JObj ∅)) 0 = true.
Proof.
  apply (blockSatisfied_exact (H := exampleConversions)
           (Gate.Block [JStr "toString"] ∅ ∅ ∅ None (Fin 2000)) (JObj ∅) 0).
  - reflexivity.
  - split; [|split; [|split; [|split; [|split]]]].
    + intros k Hk. apply list_elem_of_singleton in Hk as ->. reflexivity.
    + intros k minV Hk. vm_compute in Hk. discriminate.
    + intros field Hf. vm_compute in Hf. discriminate.
    + intros field Hf. vm_compute in Hf. discriminate.
    + intros field expected Hf. vm_compute in Hf. discriminate.
    + intros maxAge Hm. vm_compute in Hm. discriminate.
Defined.
